(** * Assembly planner: the combinator, the A* search, the XML reader's
      validation and the directed-graph substrate, embedded from the C++
      sources and checked against the planner's specification. *)

From Stdlib Require Import PrimFloat Uint63 ArithRing Ascii String ZArith.
From stdpp Require Import gmap strings list sorting.

Set Warnings "-register-all".

(** ** Outcomes of a C++ call

    A call either returns, or indexes a [std::vector] outside its bounds, or
    touches an object that was already deleted, or reads a variable that was
    never assigned, or throws, or (in the model only) runs out of fuel. *)

Inductive outcome (A : Type) : Type :=
  | Done (a : A)
  | OutOfBounds
  | UseAfterFree
  | Uninitialised
  | Throws
  | OutOfFuel.
Arguments Done {A} a.
Arguments OutOfBounds {A}.
Arguments UseAfterFree {A}.
Arguments Uninitialised {A}.
Arguments Throws {A}.
Arguments OutOfFuel {A}.

Global Instance outcome_bind : MBind outcome := fun A B k o =>
  match o with
  | Done a => k a
  | OutOfBounds => OutOfBounds
  | UseAfterFree => UseAfterFree
  | Uninitialised => Uninitialised
  | Throws => Throws
  | OutOfFuel => OutOfFuel
  end.

(** [v[i]] on a [std::vector]. *)
Definition at_index {A} (v : list A) (i : nat) : outcome A :=
  match v !! i with
  | Some a => Done a
  | None => OutOfBounds
  end.

(** A loop body run over the elements of a vector, left to right. *)
Fixpoint for_each {A S} (body : A -> S -> outcome S) (l : list A) (s : S)
  : outcome S :=
  match l with
  | [] => Done s
  | a :: l' => s' ← body a s; for_each body l' s'
  end.

(** Every element in turn is turned into a value, or the first fault wins. *)
Fixpoint collect {A B} (f : A -> outcome B) (l : list A) : outcome (list B) :=
  match l with
  | [] => Done []
  | a :: l' => b ← f a; bs ← collect f l'; Done (b :: bs)
  end.

(** ** Loops that push one element per round

    [do { push (emit s); } while (step s)] and
    [while (1) { push (emit s); if (!step s) break; }] are the same loop: the
    state [s] is visited, one element is appended, and the loop goes on from
    the next state when there is one. *)

Section EmitLoop.
Context {S A : Type} (emit : S -> outcome A) (step : S -> option S).

Fixpoint emit_loop (fuel : nat) (s : S) (acc : list A) : outcome (list A) :=
  match fuel with
  | 0 => OutOfFuel
  | Datatypes.S fuel' =>
      a ← emit s;
      let acc' := acc ++ [a] in
      match step s with
      | None => Done acc'
      | Some s' => emit_loop fuel' s' acc'
      end
  end.

(** [visits s n s']: starting in [s] the loop visits [n] states, the last
    of which is [s']. *)
Inductive visits : S -> nat -> S -> Prop :=
  | visits_one s : visits s 1 s
  | visits_more s s' n s'' :
      step s = Some s' -> visits s' n s'' -> visits s (Datatypes.S n) s''.
End EmitLoop.

(** ** [std::next_permutation] and [std::prev_permutation]

    Both are one algorithm over a strict order [lt]: find the rightmost
    position [i] with [d[i] < d[i+1]] (the pivot), swap it with the rightmost
    element it is less than, reverse what follows the pivot.  Without a pivot
    the range is reversed and [false] is returned. *)

Section Permutation.
Context {A : Type} (lt : A -> A -> bool).

(** The rightmost element of [l] that [x] is less than takes [x]'s place:
    the element, and [l] with [x] in its position. *)
Fixpoint swap_pivot (x : A) (l : list A) : option (A * list A) :=
  match l with
  | [] => None
  | y :: t =>
      match swap_pivot x t with
      | Some (z, t') => Some (z, y :: t')
      | None => if lt x y then Some (y, x :: t) else None
      end
  end.

Fixpoint advance (l : list A) : option (list A) :=
  match l with
  | [] => None
  | x :: t =>
      match advance t with
      | Some t' => Some (x :: t')
      | None =>
          match t with
          | [] => None
          | y :: _ =>
              if lt x y then
                match swap_pivot x t with
                | Some (z, t') => Some (z :: rev t')
                | None => None
                end
              else None
          end
      end
  end.

Definition permute (l : list A) : bool * list A :=
  match advance l with
  | Some l' => (true, l')
  | None => (false, rev l)
  end.
End Permutation.

Definition next_permutation (d : list nat) : bool * list nat :=
  permute Nat.ltb d.

(** On [bool], [false < true]; [prev_permutation] runs the algorithm with the
    comparison turned around. *)
Definition bool_gt (a b : bool) : bool := a && negb b.

Definition prev_permutation (v : list bool) : bool * list bool :=
  permute bool_gt v.

(** [std::reverse(d.begin() + k, d.end())]. *)
Definition reverse_from {A} (k : nat) (d : list A) : list A :=
  take k d ++ rev (drop k d).

(** ** Counting functions of the specification *)

Fixpoint binomial (n k : nat) : nat :=
  match k, n with
  | 0, _ => 1
  | S _, 0 => 0
  | S k', S n' => binomial n' k' + binomial n' k
  end.

(** [falling n k] = n (n-1) ... (n-k+1), the number of ways to fill [k]
    ordered places from [n] items. *)
Fixpoint falling (n k : nat) : nat :=
  match k, n with
  | 0, _ => 1
  | S _, 0 => 0
  | S k', S n' => n * falling n' k'
  end.

Definition product (l : list nat) : nat := foldr Nat.mul 1 l.

Definition sum_from_1 (l : nat) (f : nat -> nat) : nat :=
  foldr (fun k acc => f k + acc) 0 (seq 1 l).

(** ** combinator.hpp *)

Module Combinator.

Definition NodeIndex := nat.

(** types.hpp *)
Record AgentActionAssignment := {
  agent : string;
  action : string;
  action_node_id : NodeIndex
}.

Record Agent := {
  name : string;
  hostname : string;
  port : string
}.

(** Modelled from the spec: the planner's [Graph] class (src/graph.hpp) is not
    among the sources.  The combinator reads it through three calls:
    [successorNodes(id)], the list A_i of ACTION successors of a frontier node,
    [numberOfSuccessors(id)], its length, and [getNodeData(id).name]. *)
Record Graph := {
  successorNodes : NodeIndex -> list NodeIndex;
  getNodeName : NodeIndex -> string
}.

Definition numberOfSuccessors (g : Graph) (id : NodeIndex) : nat :=
  length (successorNodes g id).

(** The data members of [class Combinator] that its methods touch. *)
Record Combinator := {
  agent_action_assignements_ : list (list AgentActionAssignment);
  temp_agent_combinations_ : list (list string);
  temp_agent_set_ : list string;
  temp_action_combinations_ : list (list (string * NodeIndex));
  temp_action_set_ : list (string * NodeIndex)
}.

Definition set_assignments v (c : Combinator) : Combinator :=
  {| agent_action_assignements_ := v;
     temp_agent_combinations_ := temp_agent_combinations_ c;
     temp_agent_set_ := temp_agent_set_ c;
     temp_action_combinations_ := temp_action_combinations_ c;
     temp_action_set_ := temp_action_set_ c |}.

Definition set_agent_combinations v last (c : Combinator) : Combinator :=
  {| agent_action_assignements_ := agent_action_assignements_ c;
     temp_agent_combinations_ := v;
     temp_agent_set_ := last;
     temp_action_combinations_ := temp_action_combinations_ c;
     temp_action_set_ := temp_action_set_ c |}.

Definition set_action_combinations v last (c : Combinator) : Combinator :=
  {| agent_action_assignements_ := agent_action_assignements_ c;
     temp_agent_combinations_ := temp_agent_combinations_ c;
     temp_agent_set_ := temp_agent_set_ c;
     temp_action_combinations_ := v;
     temp_action_set_ := last |}.

(** *** assignAgentsToActions *)

(** The inner [for (i = 0; i < k; i++)]: agent [i] gets action [d[i]]. *)
Definition assignment_of (cur_agents : list string)
    (cur_actions : list (string * NodeIndex)) (d : list nat)
  : outcome (list AgentActionAssignment) :=
  collect (fun '(i, a) =>
             di ← at_index d i;
             act ← at_index cur_actions di;
             Done {| agent := a; action := act.1; action_node_id := act.2 |})
          (imap pair cur_agents).

Definition selector_step (k : nat) (d : list nat) : option (list nat) :=
  advance Nat.ltb (reverse_from k d).

Definition assignAgentsToActions (fuel : nat) (cur_agents : list string)
    (cur_actions : list (string * NodeIndex)) (c : Combinator)
  : outcome Combinator :=
  let n := length cur_actions in
  let k := length cur_agents in
  let d := seq 0 n in
  acc ← emit_loop (assignment_of cur_agents cur_actions) (selector_step k)
           fuel d (agent_action_assignements_ c);
  Done (set_assignments acc c).

(** *** generateAgentCombinationSets *)

(** The inner [for (i = 0; i < n; ++i) if (v[i]) push_back(agents[i])]. *)
Definition selected (agents : list string) (v : list bool) : list string :=
  omap (fun '(a, b) => if (b : bool) then Some a else None) (zip agents v).

Definition generateAgentCombinationSets (fuel : nat) (agents : list string)
    (k : nat) (c : Combinator) : outcome Combinator :=
  let n := length agents in
  if n <? k then OutOfBounds else
  let v := replicate k true ++ replicate (n - k) false in
  sets ← emit_loop (fun v => Done (selected agents v)) (advance bool_gt)
            fuel v [];
  Done (set_agent_combinations sets (default [] (last sets)) c).

(** *** generateActionCombinationSets *)

(** The [for] that fills [temp_action_set_] from the current indices. *)
Definition action_set (g : Graph) (node_ids : list NodeIndex)
    (indices : list nat) : outcome (list (string * NodeIndex)) :=
  collect (fun '(s, i) =>
             node_id ← at_index (successorNodes g s) i;
             Done (getNodeName g node_id, node_id))
          (zip node_ids indices).

(** The rightmost index that has more elements left moves on, the indices to
    its right go back to the first element. *)
Fixpoint odometer (ib : list (nat * nat)) : option (list nat) :=
  match ib with
  | [] => None
  | (i, b) :: t =>
      match odometer t with
      | Some t' => Some (i :: t')
      | None => if b <=? i + 1 then None else Some (S i :: ((fun _ => 0) <$> t))
      end
  end.

Definition indices_step (g : Graph) (node_ids : list NodeIndex)
    (indices : list nat) : option (list nat) :=
  odometer (zip indices (numberOfSuccessors g <$> node_ids)).

Definition generateActionCombinationSets (fuel : nat) (g : Graph)
    (node_ids : list NodeIndex) (c : Combinator) : outcome Combinator :=
  let n := length node_ids in
  let indices := replicate n 0 in
  sets ← emit_loop (action_set g node_ids) (indices_step g node_ids)
            fuel indices [];
  Done (set_action_combinations sets (default [] (last sets)) c).

(** *** generateAgentActionAssignments *)

Definition generateAgentActionAssignments (fuel : nat) (g : Graph)
    (agents : gmap string Agent) (nodes : list NodeIndex) (c : Combinator)
  : outcome (list (list AgentActionAssignment) * Combinator) :=
  let l := Nat.min (length nodes) (size agents) in
  c ← generateActionCombinationSets fuel g nodes c;
  let c := set_assignments [] c in
  let vector_of_agents := (fun kv => name kv.2) <$> map_to_list agents in
  c ← for_each (fun j c =>
         c ← generateAgentCombinationSets fuel vector_of_agents j c;
         for_each (fun agents c =>
           for_each (fun actions c =>
             assignAgentsToActions fuel agents actions c)
             (temp_action_combinations_ c) c)
           (temp_agent_combinations_ c) c)
         (seq 1 l) c;
  Done (agent_action_assignements_ c, c).

End Combinator.

(** ** types.hpp: the assembly graph's node payload *)

Inductive NodeType := ACTION | SUBASSEMBLY | INTERACTION | INTERASSEMBLY.

Global Instance NodeType_eq_dec : EqDecision NodeType.
Proof. solve_decision. Defined.

Record AssemblyData := {
  type : NodeType;
  name : string;
  assigned_agent : string;
  interaction_prev : nat;
  interaction_or : nat;
  interaction_next : nat
}.

(** ** io.hpp *)

Module IoXml.

(** *** What the reader uses of tinyxml2 *)

Inductive XMLElement :=
  Element (tag : string) (attributes : list (string * string))
          (children : list XMLElement).

Definition Tag (e : XMLElement) : string :=
  match e with Element t _ _ => t end.

Fixpoint FindAttribute (name : string) (attrs : list (string * string))
  : option string :=
  match attrs with
  | [] => None
  | (k, v) :: rest => if String.eqb k name then Some v else FindAttribute name rest
  end.

(** [e->Attribute(name)]: the value, or a null pointer. *)
Definition Attribute (e : XMLElement) (name : string) : option string :=
  match e with
  | Element _ attrs _ => FindAttribute name attrs
  end.

(** [FirstChildElement(name)] followed by [NextSiblingElement(name)] until
    null. *)
Definition ChildElements (e : XMLElement) (name : string) : list XMLElement :=
  match e with
  | Element _ _ cs => filter (fun c => Tag c = name) cs
  end.

(** *** std::tolower over a string, in the "C" locale *)

Definition tolower (c : ascii) : ascii :=
  let n := nat_of_ascii c in
  if (65 <=? n) && (n <=? 90) then ascii_of_nat (n + 32) else c.

Fixpoint lowercase (s : string) : string :=
  match s with
  | EmptyString => EmptyString
  | String c s' => String (tolower c) (lowercase s')
  end.

(** [INT_MAX] converted to [double]. *)
Definition INT_MAX : float := PrimFloat.of_uint63 2147483647%uint63.

Section ParseCostmap.
(** [is_float] (types.hpp) asks the stream library whether the whole string
    reads as a [float]; [std::stod] converts it.  What the C++ library
    accepts as a number is not fixed here.  [stod] stands for the
    conversions that return: [std::stod] throws [std::out_of_range] on a
    value outside the range of [double], an exit the model does not have,
    so what is shown of the readers is shown of the calls that return. *)
Variable is_float : string -> bool.
Variable stod : string -> float.

(** One round of the loop over the [<cost>] children. *)
Definition parse_cost (cost : XMLElement) (costmap : gmap string float)
  : option (gmap string float) :=
  match Attribute cost "agent" with
  | None => None
  | Some agent_name =>
      match Attribute cost "value" with
      | None => None
      | Some value =>
          let cost_value := lowercase value in
          if String.eqb cost_value "inf" then
            Some (<[agent_name := INT_MAX]> costmap)
          else if is_float cost_value then
            Some (<[agent_name := stod cost_value]> costmap)
          else None
      end
  end.

Fixpoint parse_costs (costs : list XMLElement) (costmap : gmap string float)
  : option (gmap string float) :=
  match costs with
  | [] => Some costmap
  | cost :: rest =>
      match parse_cost cost costmap with
      | None => None
      | Some costmap' => parse_costs rest costmap'
      end
  end.

Definition parse_costmap (action_node : XMLElement)
  : option (gmap string float) :=
  parse_costs (ChildElements action_node "cost") ∅.
End ParseCostmap.

(** *** validate_graph *)

(** Modelled from the spec: the planner's [Graph] class (src/graph.hpp) is not
    among the sources.  As in section 3 of the specification, a graph is a
    mapping from node identifiers to nodes and a collection of edges, and a
    node's predecessors (successors) are the sources (destinations) of the
    edges that end (start) at it. *)
Record Graph := {
  nodes_ : gmap nat AssemblyData;
  edges_ : list (nat * nat)
}.

Definition nodes (g : Graph) : list (nat * AssemblyData) :=
  map_to_list (nodes_ g).

Definition getPredecessorNodes (g : Graph) (id : nat) : list AssemblyData :=
  omap (fun e => if decide (e.2 = id) then nodes_ g !! e.1 else None) (edges_ g).

Definition getSuccessorNodes (g : Graph) (id : nat) : list AssemblyData :=
  omap (fun e => if decide (e.1 = id) then nodes_ g !! e.2 else None) (edges_ g).

(** The two tests made on a neighbour, the same for predecessors and
    successors: an ACTION next to anything but a SUBASSEMBLY, a SUBASSEMBLY
    next to anything but an ACTION. *)
Definition rejected (node other : AssemblyData) : bool :=
  bool_decide (type node = ACTION) && negb (bool_decide (type other = SUBASSEMBLY))
  || bool_decide (type node = SUBASSEMBLY) && negb (bool_decide (type other = ACTION)).

Definition validate_graph (g : Graph) : Z :=
  if existsb (fun n =>
       existsb (rejected n.2) (getPredecessorNodes g n.1)
       || existsb (rejected n.2) (getSuccessorNodes g n.1)) (nodes g)
  then (-1)%Z else 0%Z.

End IoXml.

(** ** astar.hpp *)

Module AStar.

Definition NodeIndex := nat.

(** types.hpp *)
Record SearchData := {
  marked : bool;
  g_score : float;
  f_score : float;
  h_score : float;
  minimum_cost_action : float;
  subassemblies : gmap string NodeIndex;
  actions : gmap string NodeIndex
}.

Definition set_marked (b : bool) (d : SearchData) : SearchData :=
  {| marked := b; g_score := g_score d; f_score := f_score d;
     h_score := h_score d; minimum_cost_action := minimum_cost_action d;
     subassemblies := subassemblies d; actions := actions d |}.

Definition set_g_score (x : float) (d : SearchData) : SearchData :=
  {| marked := marked d; g_score := x; f_score := f_score d;
     h_score := h_score d; minimum_cost_action := minimum_cost_action d;
     subassemblies := subassemblies d; actions := actions d |}.

Definition set_h_score (x : float) (d : SearchData) : SearchData :=
  {| marked := marked d; g_score := g_score d; f_score := f_score d;
     h_score := x; minimum_cost_action := minimum_cost_action d;
     subassemblies := subassemblies d; actions := actions d |}.

Definition set_f_score (x : float) (d : SearchData) : SearchData :=
  {| marked := marked d; g_score := g_score d; f_score := x;
     h_score := h_score d; minimum_cost_action := minimum_cost_action d;
     subassemblies := subassemblies d; actions := actions d |}.

(** Modelled from the spec: the planner's [Graph] class (src/graph.hpp) is not
    among the sources.  The search reads the assembly graph through
    [getNode(id)->data.name] and [hasSuccessor(id)]. *)
Record AssemblyGraph := {
  getNodeName : NodeIndex -> string;
  hasSuccessor : NodeIndex -> bool
}.

(** A [size_t] converted to floating point. *)
Definition float_of_size (n : nat) : float :=
  PrimFloat.of_uint63 (Uint63.of_Z (Z.of_nat n)).

Section Scores.
Variable assembly_ : AssemblyGraph.
(** [log2f] of the C library, its result widened to [double]. *)
Variable log2f : float -> float.

Definition isGoal (current : SearchData) : bool :=
  negb (existsb (fun x => hasSuccessor assembly_ x.2)
          (map_to_list (subassemblies current))).

(** The loop of calc_hscore over the sub-assemblies. *)
Definition maximum_length (subs : list (string * NodeIndex)) : nat :=
  foldl (fun maximum_length_subassembly x =>
           let len := String.length (getNodeName assembly_ x.2) in
           if maximum_length_subassembly <? len then len
           else maximum_length_subassembly)
        0 subs.

Definition calc_hscore (current : SearchData) : float :=
  let maximum_length_subassembly :=
    maximum_length (map_to_list (subassemblies current)) in
  PrimFloat.mul (log2f (float_of_size maximum_length_subassembly))
                (minimum_cost_action current).

Definition calc_fscore (current : SearchData) : float :=
  PrimFloat.add (g_score current) (h_score current).

(** [n.h_score = calc_hscore(n); n.f_score = calc_fscore(n);] *)
Definition score (n : SearchData) : SearchData :=
  let n := set_h_score (calc_hscore n) n in
  set_f_score (calc_fscore n) n.

(** *** search *)

(** Modelled from the spec: the node expander (expander.hpp) and the search
    graph's class are not among the sources.  [expandNode(id)] creates the
    children of a state and the edges to them; what it creates for a state
    is taken as a function of the state, here [successorEdges id], the list
    [getSuccessorEdges(id)] returns once [id] was expanded, each edge with
    its cost and destination.  The states themselves are a store from
    identifiers to [SearchData]. *)
Variable successorEdges : NodeIndex -> list (float * NodeIndex).

(** [std::priority_queue]: [top] names one element of the container, the
    position of which is left to the library. *)
Variable top : (NodeIndex -> SearchData) -> list NodeIndex -> nat.

Definition update (id : NodeIndex) (f : SearchData -> SearchData)
    (store : NodeIndex -> SearchData) : NodeIndex -> SearchData :=
  fun i => if decide (i = id) then f (store i) else store i.

(** The body of [for (auto &edge : graph.getSuccessorEdges(current->id))]. *)
Definition relax (current : NodeIndex) (edge : float * NodeIndex)
    (s : (NodeIndex -> SearchData) * list NodeIndex)
  : (NodeIndex -> SearchData) * list NodeIndex :=
  let '(store, openSet) := s in
  let child := edge.2 in
  let store := update child
    (set_g_score (PrimFloat.add (g_score (store current)) edge.1)) store in
  let store := update child score store in
  (store, openSet ++ [child]).

Record SearchResult := {
  found : option NodeIndex;          (* the returned pointer *)
  store_after : NodeIndex -> SearchData;
  open_after : list NodeIndex;       (* openSet when the function returns *)
  popped : list NodeIndex            (* every state popped, in order *)
}.

Fixpoint search_loop (fuel : nat) (store : NodeIndex -> SearchData)
    (openSet : list NodeIndex) (current : option NodeIndex)
    (trace : list NodeIndex) : outcome SearchResult :=
  match fuel with
  | 0 => OutOfFuel
  | S fuel' =>
      match openSet with
      | [] => Done {| found := current; store_after := store;
                      open_after := openSet; popped := trace |}
      | _ :: _ =>
          let i := top store openSet in
          cur ← at_index openSet i;
          let openSet := delete i openSet in
          let trace := trace ++ [cur] in
          if isGoal (store cur) then
            Done {| found := Some cur; store_after := store;
                    open_after := openSet; popped := trace |}
          else
            let store := update cur (set_marked true) store in
            let '(store, openSet) :=
              foldl (fun s edge => relax cur edge s) (store, openSet)
                    (successorEdges cur) in
            search_loop fuel' store openSet (Some cur) trace
      end
  end.

Definition search (fuel : nat) (store : NodeIndex -> SearchData)
    (root : NodeIndex) : outcome SearchResult :=
  let store := update root score store in
  search_loop fuel store [root] None [].
End Scores.

End AStar.

(** ** assemblyPlanner/Source/graph.hpp *)

Module Graph.

Section Graph.
Context {nodeData edgeData : Type}.

(** Modelled from the spec: node.hpp, with the classes [Node] and [Edge], is
    not among the sources.  As section 3 of the specification has it, a node
    carries its identifier, its payload, the list of its incoming edges and
    the list of its outgoing edges; an edge carries its payload, its source
    and its destination.  Objects live on the heap and are referred to by
    address. *)
Record Node := {
  id_ : nat;
  data : nodeData;
  parents : list nat;
  children : list nat
}.

Record Edge := {
  edge_data : edgeData;
  source : nat;
  destination : nat
}.

(** The two members of [class Graph], and the objects they point to. *)
Record Graph := {
  nodes_ : gmap nat nat;          (* std::unordered_map<size_t, Node*> *)
  edges_ : list nat;              (* std::vector<Edge*> *)
  node_objects : gmap nat Node;   (* the live Node objects, by address *)
  edge_objects : gmap nat Edge    (* the live Edge objects, by address *)
}.

Definition empty : Graph :=
  {| nodes_ := ∅; edges_ := []; node_objects := ∅; edge_objects := ∅ |}.

Definition set_nodes_ v (g : Graph) : Graph :=
  {| nodes_ := v; edges_ := edges_ g; node_objects := node_objects g;
     edge_objects := edge_objects g |}.

Definition set_edges_ v (g : Graph) : Graph :=
  {| nodes_ := nodes_ g; edges_ := v; node_objects := node_objects g;
     edge_objects := edge_objects g |}.

Definition set_node_objects v (g : Graph) : Graph :=
  {| nodes_ := nodes_ g; edges_ := edges_ g; node_objects := v;
     edge_objects := edge_objects g |}.

Definition set_edge_objects v (g : Graph) : Graph :=
  {| nodes_ := nodes_ g; edges_ := edges_ g; node_objects := node_objects g;
     edge_objects := v |}.

(** [*p] for a node or an edge: the object when it is live. *)
Definition node_at (g : Graph) (p : nat) : outcome Node :=
  match node_objects g !! p with
  | Some n => Done n
  | None => UseAfterFree
  end.

Definition edge_at (g : Graph) (p : nat) : outcome Edge :=
  match edge_objects g !! p with
  | Some e => Done e
  | None => UseAfterFree
  end.

(** [p->method()] where the method rewrites the node. *)
Definition on_node (p : nat) (method : Node -> outcome Node) (g : Graph)
  : outcome Graph :=
  n ← node_at g p;
  n' ← method n;
  Done (set_node_objects (<[p := n']> (node_objects g)) g).

Definition addSuccessor (e : nat) (n : Node) : outcome Node :=
  Done {| id_ := id_ n; data := data n; parents := parents n;
          children := children n ++ [e] |}.

Definition addPredecessor (e : nat) (n : Node) : outcome Node :=
  Done {| id_ := id_ n; data := data n; parents := parents n ++ [e];
          children := children n |}.

(** The first edge of the list whose far end (the node [far] selects) has
    identifier [id] is taken out. *)
Fixpoint remove_first (g : Graph) (far : Edge -> nat) (id : nat)
    (es : list nat) : outcome (list nat) :=
  match es with
  | [] => Done []
  | e :: rest =>
      edge ← edge_at g e;
      n ← node_at g (far edge);
      if decide (id_ n = id) then Done rest
      else rest' ← remove_first g far id rest; Done (e :: rest')
  end.

Definition removeSuccessor (g : Graph) (id : nat) (n : Node) : outcome Node :=
  cs ← remove_first g destination id (children n);
  Done {| id_ := id_ n; data := data n; parents := parents n; children := cs |}.

Definition removePredecessor (g : Graph) (id : nat) (n : Node) : outcome Node :=
  ps ← remove_first g source id (parents n);
  Done {| id_ := id_ n; data := data n; parents := ps; children := children n |}.

(** *** General information *)

Definition numberOfNodes (g : Graph) : nat := size (nodes_ g).
Definition numberOfEdges (g : Graph) : nat := length (edges_ g).

(** *** insertNode *)

Definition insertNode (nodeId : nat) (d : nodeData) (g : Graph)
  : outcome (nat * Graph) :=
  let tempNode := fresh (dom (node_objects g)) in
  let g := set_node_objects
             (<[tempNode := {| id_ := nodeId; data := d; parents := [];
                               children := [] |}]> (node_objects g)) g in
  (* unordered_map::insert keeps an element that is already there *)
  let g := match nodes_ g !! nodeId with
           | Some _ => g
           | None => set_nodes_ (<[nodeId := tempNode]> (nodes_ g)) g
           end in
  Done (size (nodes_ g) - 1, g).

(** *** insertEdge *)

Definition insertEdge (d : edgeData) (srcNodeId destNodeId : nat) (g : Graph)
  : outcome (nat * Graph) :=
  match nodes_ g !! srcNodeId with
  | None => Throws
  | Some src =>
      match nodes_ g !! destNodeId with
      | None => Throws
      | Some dest =>
          let edge := fresh (dom (edge_objects g)) in
          let g := set_edge_objects
                     (<[edge := {| edge_data := d; source := src;
                                   destination := dest |}]> (edge_objects g)) g in
          let g := set_edges_ (edges_ g ++ [edge]) g in
          g ← on_node src (addSuccessor edge) g;
          g ← on_node dest (addPredecessor edge) g;
          Done (length (edges_ g), g)
      end
  end.

(** *** findEdge

    The second component is [None] where the code returns the variable
    [edge_index] without having assigned it. *)
Fixpoint find_from (g : Graph) (src dst : nat) (j : nat) (es : list nat)
  : outcome (bool * option nat) :=
  match es with
  | [] => Done (false, None)
  | e :: rest =>
      edge ← edge_at g e;
      if decide (source edge = src /\ destination edge = dst)
      then Done (true, Some j)
      else find_from g src dst (S j) rest
  end.

Definition findEdge (nodeSrc nodeDst : nat) (g : Graph)
  : outcome (bool * option nat) :=
  match nodes_ g !! nodeSrc with
  | None => Done (false, Some 0)
  | Some src =>
      match nodes_ g !! nodeDst with
      | None => Done (false, Some 0)
      | Some dst => find_from g src dst 0 (edges_ g)
      end
  end.

(** *** findEdgeIndexHelper: [None] is the unassigned [edge_index]. *)
Definition findEdgeIndexHelper (edge : nat) (g : Graph) : option nat :=
  fst <$> list_find (fun e => e = edge) (edges_ g).

(** [edges_.erase(edges_.begin() + index)]. *)
Definition erase_at (index : option nat) (g : Graph) : outcome Graph :=
  match index with
  | None => Uninitialised
  | Some j =>
      if decide (j < length (edges_ g))
      then Done (set_edges_ (delete j (edges_ g)) g)
      else OutOfBounds
  end.

(** [delete p] for an edge and for a node. *)
Definition delete_edge (p : nat) (g : Graph) : outcome Graph :=
  _ ← edge_at g p;
  Done (set_edge_objects (delete p (edge_objects g)) g).

Definition delete_node (p : nat) (g : Graph) : outcome Graph :=
  _ ← node_at g p;
  Done (set_node_objects (delete p (node_objects g)) g).

(** *** eraseEdge *)

Definition eraseEdge (nodeSrc nodeDst : nat) (g : Graph)
  : outcome (bool * Graph) :=
  match nodes_ g !! nodeSrc with
  | None => Done (false, g)
  | Some source_node =>
      match nodes_ g !! nodeDst with
      | None => Done (false, g)
      | Some destination_node =>
          result ← findEdge nodeSrc nodeDst g;
          if negb result.1 then Done (false, g)
          else
            g ← on_node source_node (removeSuccessor g nodeDst) g;
            g ← on_node destination_node (removePredecessor g nodeSrc) g;
            match result.2 with
            | None => Uninitialised
            | Some edgeIndex =>
                e ← at_index (edges_ g) edgeIndex;
                g ← delete_edge e g;
                g ← erase_at (Some edgeIndex) g;
                Done (true, g)
            end
      end
  end.

(** *** eraseNode *)

(** One round of either loop of eraseNode: [far] is [getSource] and
    [unlink] is [removeSuccessor] in the loop over the predecessors,
    [getDestination] and [removePredecessor] in the loop over the
    successors. *)
Definition erase_incident (far : Edge -> nat)
    (unlink : Graph -> nat -> Node -> outcome Node) (nodeId : nat)
    (edge_to_remove : nat) (g : Graph) : outcome Graph :=
  edge ← edge_at g edge_to_remove;
  g ← on_node (far edge) (unlink g nodeId) g;
  let temp_edge_index := findEdgeIndexHelper edge_to_remove g in
  g ← erase_at temp_edge_index g;
  delete_edge edge_to_remove g.

Definition eraseNode (nodeId : nat) (g : Graph) : outcome (bool * Graph) :=
  match nodes_ g !! nodeId with
  | None => Done (false, g)
  | Some node_to_remove =>
      let g := set_nodes_ (delete nodeId (nodes_ g)) g in
      n ← node_at g node_to_remove;
      let predecessors := parents n in
      let successors := children n in
      g ← for_each (erase_incident source removeSuccessor nodeId)
            predecessors g;
      g ← for_each (erase_incident destination removePredecessor nodeId)
            successors g;
      g ← delete_node node_to_remove g;
      Done (true, g)
  end.

(** *** Sequences of operations *)

Inductive operation :=
  | InsertNode (id : nat) (d : nodeData)
  | InsertEdge (d : edgeData) (src dst : nat)
  | EraseNode (id : nat)
  | EraseEdge (src dst : nat).

(** A caller that goes on after the [range_error] of insertEdge has the
    graph as it was: the exception is thrown before anything is written. *)
Definition perform (op : operation) (g : Graph) : outcome Graph :=
  match op with
  | InsertNode id d => r ← insertNode id d g; Done r.2
  | InsertEdge d src dst =>
      match insertEdge d src dst g with
      | Throws => Done g
      | o => r ← o; Done r.2
      end
  | EraseNode id => r ← eraseNode id g; Done r.2
  | EraseEdge src dst => r ← eraseEdge src dst g; Done r.2
  end.

Definition run (ops : list operation) (g : Graph) : outcome Graph :=
  for_each perform ops g.

(** *** Integrity: every stored edge is live and both its ends are nodes of
    the graph. *)
Definition is_node (g : Graph) (p : nat) : Prop :=
  exists n, node_objects g !! p = Some n /\ nodes_ g !! id_ n = Some p.

Definition integrity (g : Graph) : Prop :=
  forall e, e ∈ edges_ g ->
    exists edge, edge_objects g !! e = Some edge
                 /\ is_node g (source edge) /\ is_node g (destination edge).
End Graph.

Arguments Node : clear implicits.
Arguments Edge : clear implicits.
Arguments Graph : clear implicits.
Arguments operation : clear implicits.

End Graph.

(** * Properties *)

(** ** Loops: what a run of the visited states gives *)

Section EmitLoopFacts.
Context {S A : Type} (emit : S -> outcome A) (step : S -> option S).

Lemma visits_app s n s' s1 m s2 :
  visits step s n s' -> step s' = Some s1 -> visits step s1 m s2 ->
  visits step s (n + m) s2.
Proof.
  induction 1 as [s|s t n u Hst _ IH]; intros Hs' Hm; simpl.
  - by eapply visits_more.
  - eapply visits_more; [done|]. by apply IH.
Qed.

(** When every visited state emits, the loop returns once it has fuel for
    each visited state, and it has appended one element per state. *)
Lemma emit_loop_visits (P : S -> Prop) (Q : A -> Prop) s n s' :
  (forall s, P s -> exists a, emit s = Done a /\ Q a) ->
  (forall s t, P s -> step s = Some t -> P t) ->
  visits step s n s' -> step s' = None -> P s ->
  forall fuel acc, n <= fuel ->
    exists out, emit_loop emit step fuel s acc = Done (acc ++ out)
                /\ length out = n /\ Forall Q out.
Proof.
  intros Hemit Hpres Hv Hend. induction Hv as [s|s t n u Hst _ IH];
    intros HP fuel acc Hfuel.
  - destruct fuel as [|fuel]; [lia|]. destruct (Hemit s HP) as (a & Ha & HQ).
    exists [a]. simpl. rewrite Ha, Hend. split_and!; [done..|].
    by constructor.
  - destruct fuel as [|fuel]; [lia|]. destruct (Hemit s HP) as (a & Ha & HQ).
    destruct (IH Hend (Hpres _ _ HP Hst) fuel (acc ++ [a]))
      as (out & Hout & Hlen & HQs); [lia|].
    exists (a :: out). simpl. rewrite Ha, Hst. simpl.
    rewrite Hout, <- app_assoc. simpl. split_and!; [done| |].
    + by rewrite Hlen.
    + by constructor.
Qed.

(** A state that cannot emit stops the loop with its fault. *)
Lemma emit_loop_fault s fuel acc :
  emit s = OutOfBounds -> emit_loop emit step (Datatypes.S fuel) s acc = OutOfBounds.
Proof. intros H. simpl. by rewrite H. Qed.

End EmitLoopFacts.

(** ** The permutation step *)

Section PermutationFacts.
Context {A : Type} (lt : A -> A -> bool).

Definition perm_step (k : nat) (d : list A) : option (list A) :=
  advance lt (reverse_from k d).

Lemma reverse_from_cons k x (d : list A) :
  reverse_from (S k) (x :: d) = x :: reverse_from k d.
Proof. done. Qed.

Lemma reverse_from_0 (d : list A) : reverse_from 0 d = rev d.
Proof. unfold reverse_from. by rewrite take_0, drop_0. Qed.

Lemma swap_pivot_app x l1 l2 z r :
  swap_pivot lt x l2 = Some (z, r) ->
  swap_pivot lt x (l1 ++ l2) = Some (z, l1 ++ r).
Proof. intros H. induction l1 as [|y l1 IH]; [done|]. simpl. by rewrite IH. Qed.

Lemma swap_pivot_none x l :
  Forall (fun y => lt x y = false) l -> swap_pivot lt x l = None.
Proof. induction 1 as [|y l Hy _ IH]; [done|]. simpl. by rewrite IH, Hy. Qed.

Lemma swap_pivot_at x l1 y l2 :
  lt x y = true -> Forall (fun z => lt x z = false) l2 ->
  swap_pivot lt x (l1 ++ y :: l2) = Some (y, l1 ++ x :: l2).
Proof.
  intros Hy Hl2. apply swap_pivot_app. simpl.
  by rewrite (swap_pivot_none _ _ Hl2), Hy.
Qed.

(** A range without ascent has no next permutation. *)
Lemma advance_descending l :
  StronglySorted (fun a b => lt a b = false) l -> advance lt l = None.
Proof.
  induction 1 as [|x l _ IH Hx]; [done|]. simpl. rewrite IH.
  destruct l as [|y l]; [done|]. by rewrite (Forall_inv Hx).
Qed.

(** While the tail still has a next permutation the head stays. *)
Lemma advance_cons_Some x t t' :
  advance lt t = Some t' -> advance lt (x :: t) = Some (x :: t').
Proof. intros H. simpl. by rewrite H. Qed.

Lemma visits_advance_cons x t n t' :
  visits (advance lt) t n t' -> visits (advance lt) (x :: t) n (x :: t').
Proof.
  induction 1 as [|s u n w Hst _ IH]; [constructor|].
  eapply visits_more; [|done]. by apply advance_cons_Some.
Qed.

Lemma visits_perm_step_cons k x t n t' :
  visits (perm_step k) t n t' ->
  visits (perm_step (S k)) (x :: t) n (x :: t').
Proof.
  induction 1 as [|s u n w Hst _ IH]; [constructor|].
  eapply visits_more; [|done].
  unfold perm_step in *. rewrite reverse_from_cons. by apply advance_cons_Some.
Qed.

(** The head moves on when the tail is exhausted. *)
Lemma advance_cons_pivot x l1 y l2 :
  advance lt (l1 ++ y :: l2) = None ->
  lt x y = true -> Forall (fun z => lt x z = false) l2 ->
  (forall z, head (l1 ++ y :: l2) = Some z -> lt x z = true) ->
  advance lt (x :: l1 ++ y :: l2) = Some (y :: rev (l1 ++ x :: l2)).
Proof.
  intros Hnone Hy Hl2 Hhd. simpl. rewrite Hnone.
  destruct (l1 ++ y :: l2) as [|z l] eqn:E.
  { by destruct l1. }
  rewrite (Hhd z) by done. rewrite <- E.
  by rewrite (swap_pivot_at _ _ _ _ Hy Hl2).
Qed.
End PermutationFacts.

(** ** The selector vector of assignAgentsToActions

    Started in ascending order, the loop [do { ...; reverse(d+k, end); }
    while (next_permutation(d))] visits one state for every way to fill the
    first [k] places: [falling n k] states. *)

Section Selector.
Local Abbreviation asc := (StronglySorted Nat.lt).
Local Abbreviation noasc := (StronglySorted (fun a b => Nat.ltb a b = false)).

Lemma rev_asc_noasc (s : list nat) : asc s -> noasc (rev s).
Proof.
  induction 1 as [|x s _ IH Hx]; simpl; [constructor|].
  apply StronglySorted_app_2; [|done|repeat constructor].
  intros a b Ha Hb. apply list_elem_of_In, in_rev, list_elem_of_In in Ha.
  apply list_elem_of_singleton in Hb as ->.
  rewrite Forall_forall in Hx. apply Nat.ltb_ge. specialize (Hx a Ha). lia.
Qed.

Lemma selector_done k (s_f s : list nat) :
  asc s -> reverse_from k s_f = rev s -> perm_step Nat.ltb k s_f = None.
Proof.
  intros Hs E. unfold perm_step. rewrite E.
  by apply advance_descending, rev_asc_noasc.
Qed.

Lemma asc_middle_out (a : list nat) x b : asc (a ++ x :: b) -> asc (a ++ b).
Proof.
  rewrite !StronglySorted_app, StronglySorted_cons.
  intros (Hab & Ha & Hx & Hb). split_and!; [|done..].
  intros x1 x2 H1 H2. apply Hab; [done|]. by right.
Qed.

Lemma selector_head_moves k (a : list nat) x y b t_f :
  asc (a ++ x :: y :: b) ->
  reverse_from k t_f = rev (a ++ y :: b) ->
  perm_step Nat.ltb (S k) (x :: t_f) = Some (y :: (a ++ [x]) ++ b).
Proof.
  intros Hs E. unfold perm_step. rewrite reverse_from_cons, E.
  assert (rev (a ++ y :: b) = rev b ++ y :: rev a) as Erev.
  { rewrite rev_app_distr. simpl. by rewrite <- app_assoc. }
  rewrite Erev.
  pose proof Hs as Hs'.
  rewrite StronglySorted_app, !StronglySorted_cons in Hs'.
  destruct Hs' as (Hab & Ha & [Hx _]%Forall_cons & Hyb & Hb).
  rewrite advance_cons_pivot.
  - rewrite rev_app_distr. simpl. rewrite rev_involutive, <- !app_assoc. simpl.
    by rewrite rev_involutive.
  - rewrite <- Erev. apply advance_descending, rev_asc_noasc.
    apply (asc_middle_out a x (y :: b) Hs).
  - by apply Nat.ltb_lt.
  - apply Forall_forall. intros z Hz.
    apply list_elem_of_In, in_rev, list_elem_of_In in Hz.
    apply Nat.ltb_ge. specialize (Hab z x Hz). unfold Nat.lt in Hab.
    assert (z < x) by (apply Hab; left). lia.
  - intros z Hz. apply Nat.ltb_lt.
    assert (z ∈ rev b ++ y :: rev a) as Hin.
    { destruct (rev b ++ y :: rev a); simplify_eq/=. left. }
    apply elem_of_app in Hin as [Hin|Hin].
    + apply list_elem_of_In, in_rev, list_elem_of_In in Hin.
      rewrite Forall_forall in Hyb. specialize (Hyb z Hin). unfold Nat.lt in *. lia.
    + apply elem_of_cons in Hin as [->|Hin]; [done|].
      exfalso. destruct (rev b) as [|w rb] eqn:Erb.
      * simpl in Hz. simplify_eq.
        apply list_elem_of_In, in_rev, list_elem_of_In in Hin.
        specialize (Hab z x Hin). unfold Nat.lt in *.
        assert (z < x) by (apply Hab; left). lia.
      * simpl in Hz. simplify_eq.
        assert (z ∈ b) as Hzb.
        { apply list_elem_of_In, in_rev. rewrite Erb. left. done. }
        apply list_elem_of_In, in_rev, list_elem_of_In in Hin.
        assert (z < z); [|lia].
        apply (Hab z z Hin). right. by right.
Qed.

Lemma selector_visits k : forall s : list nat,
  asc s -> k <= length s ->
  exists s_f, visits (perm_step Nat.ltb k) s (falling (length s) k) s_f
              /\ reverse_from k s_f = rev s.
Proof.
  induction k as [|k IHk]; intros s Hs Hk.
  { exists s. split; [|apply reverse_from_0].
    destruct (length s); constructor. }
  assert (forall b a x, asc (a ++ x :: b) -> k <= length (a ++ b) ->
    exists s_f, visits (perm_step Nat.ltb (S k)) (x :: a ++ b)
                  (S (length b) * falling (length (a ++ b)) k) s_f
                /\ reverse_from (S k) s_f = rev (a ++ x :: b)) as Hinner.
  { clear s Hs Hk. induction b as [|y b IHb]; intros a x Hs Hk.
    - destruct (IHk (a ++ []) (asc_middle_out _ _ _ Hs) Hk) as (t_f & Hv & E).
      exists (x :: t_f). split.
      + simpl. rewrite Nat.add_0_r. by apply visits_perm_step_cons.
      + rewrite reverse_from_cons, E, !rev_app_distr. done.
    - destruct (IHk (a ++ y :: b) (asc_middle_out _ _ _ Hs) Hk) as (t_f & Hv & E).
      destruct (IHb (a ++ [x]) y) as (s_f & Hv' & E').
      { by rewrite <- app_assoc. }
      { rewrite !length_app in *. simpl in *. lia. }
      exists s_f. split.
      + replace (S (length (y :: b)) * falling (length (a ++ y :: b)) k)
          with (falling (length (a ++ y :: b)) k
                + S (length b) * falling (length ((a ++ [x]) ++ b)) k).
        2:{ rewrite !length_app. simpl. rewrite Nat.add_1_r.
            replace (length a + S (length b)) with (S (length a) + length b) by lia.
            lia. }
        eapply visits_app; [by apply visits_perm_step_cons| |done].
        by apply selector_head_moves.
      + rewrite E'. by rewrite <- app_assoc. }
  destruct s as [|x b]; [simpl in Hk; lia|].
  destruct (Hinner b [] x Hs) as (s_f & Hv & E); [simpl in *; lia|].
  exists s_f. split; [|done]. simpl in *.
  replace (falling (length b) k + length b * falling (length b) k)
    with (S (length b) * falling (length b) k) by lia. done.
Qed.

Lemma asc_seq i n : asc (seq i n).
Proof.
  revert i. induction n as [|n IH]; intros i; simpl; constructor; [done|].
  apply Forall_forall. intros x Hx%elem_of_seq. unfold Nat.lt. lia.
Qed.
End Selector.

(** ** The chooser vector of generateAgentCombinationSets

    Started with [a] times [true] followed by [b] times [false], the loop
    [do { ... } while (prev_permutation(v))] visits [binomial (a + b) a]
    states and stops at [b] times [false] followed by [a] times [true]. *)

Section Chooser.
Lemma binomial_diag n : binomial n n = 1.
Proof.
  assert (forall n k, n < k -> binomial n k = 0) as Hz.
  { clear n. induction n as [|n IH]; intros [|k] Hk; simpl; try lia.
    rewrite !IH by lia. done. }
  induction n as [|n IH]; [done|]. simpl. rewrite IH, Hz by lia. done.
Qed.

Lemma chooser_last_noasc a b :
  StronglySorted (fun x y => bool_gt x y = false)
    (replicate b false ++ replicate a true).
Proof.
  apply StronglySorted_app_2.
  - by intros x y ->%elem_of_replicate_inv _.
  - induction b; simpl; constructor; [done|]. by apply Forall_forall.
  - induction a; simpl; constructor; [done|].
    apply Forall_forall. by intros y ->%elem_of_replicate_inv.
Qed.

Lemma rev_replicate {A} n (x : A) : rev (replicate n x) = replicate n x.
Proof.
  induction n as [|n IH]; [done|]. simpl. rewrite IH.
  clear IH. induction n as [|n IH]; [done|]. simpl. by rewrite IH.
Qed.

Lemma replicate_shift {A} n (x : A) l :
  replicate n x ++ x :: l = x :: replicate n x ++ l.
Proof. induction n as [|n IH]; [done|]. simpl. by rewrite IH. Qed.

Lemma rev_chooser_swapped a b :
  rev (replicate b false ++ true :: replicate a true)
  = replicate (S a) true ++ replicate b false.
Proof.
  rewrite rev_app_distr. cbn [rev]. rewrite !rev_replicate, <- app_assoc.
  cbn [app replicate]. by rewrite replicate_shift.
Qed.

Lemma chooser_visits n : forall a b, a + b = n ->
  visits (advance bool_gt) (replicate a true ++ replicate b false)
    (binomial (a + b) a) (replicate b false ++ replicate a true).
Proof.
  induction n as [n IH] using lt_wf_ind. intros a b Hn.
  destruct a as [|a].
  { simpl. rewrite app_nil_r. destruct b; constructor. }
  destruct b as [|b].
  { rewrite Nat.add_0_r, binomial_diag. cbn [replicate app].
    rewrite app_nil_r. constructor. }
  replace (binomial (S a + S b) (S a))
    with (binomial (a + S b) a + binomial (S a + b) (S a)).
  2:{ simpl. by replace (a + S b) with (S (a + b)) by lia. }
  eapply visits_app.
  - apply (visits_advance_cons bool_gt true).
    apply (IH (a + S b)); [lia|done].
  - cbn [replicate app]. rewrite <- replicate_shift.
    rewrite advance_cons_pivot; [reflexivity|..].
    + rewrite replicate_shift.
      apply (advance_descending _ _ (chooser_last_noasc a (S b))).
    + done.
    + apply Forall_forall. by intros y ->%elem_of_replicate_inv.
    + intros z. destruct b; simpl; by intros [= <-].
  - rewrite rev_chooser_swapped.
    apply (visits_advance_cons bool_gt false).
    apply (IH (S a + b)); [lia|done].
Qed.

Lemma chooser_done a b :
  advance bool_gt (replicate b false ++ replicate a true) = None.
Proof. apply advance_descending, chooser_last_noasc. Qed.
End Chooser.

(** ** The index vector of generateActionCombinationSets

    Started at all zeros, the loop visits one state for every tuple of
    indices below the bounds: [product bounds] states. *)

Section Odometer.
Definition odo_step (bounds idx : list nat) : option (list nat) :=
  Combinator.odometer (zip idx bounds).

Lemma visits_odo_cons i b bounds t n t' :
  visits (odo_step bounds) t n t' ->
  visits (odo_step (b :: bounds)) (i :: t) n (i :: t').
Proof.
  induction 1 as [|s u n w Hst _ IH]; [constructor|].
  eapply visits_more; [|done].
  unfold odo_step in *. simpl. by rewrite Hst.
Qed.

Lemma odometer_visits bounds :
  Forall (fun b => 1 <= b) bounds ->
  visits (odo_step bounds) (replicate (length bounds) 0) (product bounds)
    (pred <$> bounds)
  /\ odo_step bounds (pred <$> bounds) = None.
Proof.
  induction 1 as [|b bounds Hb _ [IHv IHn]].
  { split; [constructor|done]. }
  split.
  2:{ unfold odo_step in *. rewrite fmap_cons. simpl. rewrite IHn.
      destruct (b <=? pred b + 1) eqn:E; [done|].
      apply Nat.leb_gt in E. lia. }
  assert (forall j i, i + j + 1 = b ->
    visits (odo_step (b :: bounds)) (i :: replicate (length bounds) 0)
      (S j * product bounds) (pred b :: (pred <$> bounds))) as Hinner.
  { induction j as [|j IHj]; intros i Hi.
    - replace (pred b) with i by lia. simpl. rewrite Nat.add_0_r.
      by apply visits_odo_cons.
    - replace (S (S j) * product bounds)
        with (product bounds + S j * product bounds) by lia.
      eapply visits_app; [by apply visits_odo_cons| |apply (IHj (S i)); lia].
      unfold odo_step in *. simpl. rewrite IHn.
      destruct (b <=? i + 1) eqn:E; [apply Nat.leb_le in E; lia|].
      f_equal. f_equal.
      clear. induction bounds as [|c bounds IH]; [done|].
      rewrite fmap_cons. cbn [zip zip_with]. rewrite fmap_cons.
      cbn [length replicate]. by rewrite IH. }
  simpl. replace (b * product bounds) with (S (pred b) * product bounds).
  - apply Hinner. lia.
  - f_equal. lia.
Qed.

Lemma odometer_bounded bounds : forall idx idx',
  Forall2 lt idx bounds -> odo_step bounds idx = Some idx' ->
  Forall2 lt idx' bounds.
Proof.
  unfold odo_step. intros idx idx' H. revert idx'.
  induction H as [|i b idx bounds Hib H IH]; intros idx'; [done|]. simpl.
  destruct (Combinator.odometer (zip idx bounds)) as [t'|] eqn:E.
  - intros [= <-]. constructor; [done|]. by apply IH.
  - destruct (b <=? i + 1) eqn:Eb; [done|]. intros [= <-].
    apply Nat.leb_gt in Eb. constructor; [lia|].
    clear -H. induction H as [|j c idx bounds Hjc _ IH]; simpl; constructor.
    + lia.
    + done.
Qed.
End Odometer.

(** ** The permutation step rearranges, it never changes the elements *)

Section PermutationKeeps.
Context {A : Type} (lt : A -> A -> bool).

Lemma swap_pivot_perm x : forall l z l',
  swap_pivot lt x l = Some (z, l') -> x :: l ≡ₚ z :: l'.
Proof.
  induction l as [|y t IH]; intros z l'; [done|]. simpl.
  destruct (swap_pivot lt x t) as [[w t']|] eqn:E.
  - intros [= <- <-]. etrans; [apply Permutation_swap|].
    etrans; [apply Permutation_skip, (IH _ _ eq_refl)|].
    apply Permutation_swap.
  - destruct (lt x y); [|done]. intros [= <- <-]. apply Permutation_swap.
Qed.

Lemma advance_perm : forall l l', advance lt l = Some l' -> l ≡ₚ l'.
Proof.
  induction l as [|x t IH]; intros l'; [done|]. simpl.
  destruct (advance lt t) as [t'|] eqn:E.
  - intros [= <-]. by rewrite (IH _ eq_refl).
  - destruct t as [|y t0]; [done|]. destruct (lt x y); [|done].
    destruct (swap_pivot lt x (y :: t0)) as [[z t']|] eqn:Es; [|done].
    intros [= <-]. rewrite (swap_pivot_perm _ _ _ _ Es).
    by rewrite <- Permutation_rev.
Qed.

Lemma reverse_from_perm k (d : list A) : reverse_from k d ≡ₚ d.
Proof.
  unfold reverse_from. rewrite <- Permutation_rev. by rewrite take_drop.
Qed.

Lemma perm_step_perm k d d' : perm_step lt k d = Some d' -> d ≡ₚ d'.
Proof.
  intros H%advance_perm. by rewrite <- H, reverse_from_perm.
Qed.
End PermutationKeeps.

(** ** The counting functions are the usual ones *)

Lemma falling_fact : forall n k, k <= n -> falling n k * fact (n - k) = fact n.
Proof.
  induction n as [|n IH]; intros [|k] Hk; simpl; try lia.
  specialize (IH k ltac:(lia)). nia.
Qed.

Lemma binomial_above : forall n k, n < k -> binomial n k = 0.
Proof.
  induction n as [|n IH]; intros [|k] Hk; simpl; try lia.
  rewrite !IH by lia. done.
Qed.

Lemma binomial_fact : forall n k,
  k <= n -> binomial n k * (fact k * fact (n - k)) = fact n.
Proof.
  induction n as [|n IH]; intros [|k] Hk; simpl; try lia.
  destruct (decide (k = n)) as [->|Hne].
  - rewrite binomial_diag, binomial_above, Nat.sub_diag by lia. simpl. lia.
  - pose proof (IH k ltac:(lia)) as H1. pose proof (IH (S k) ltac:(lia)) as H2.
    replace (n - k) with (S (n - S k)) in * by lia.
    assert (S n = S k + S (n - S k)) as Hn by lia.
    change (fact n + n * fact n) with (S n * fact n).
    change (fact k + k * fact k) with (fact (S k)).
    generalize dependent (n - S k). intros r H1 H2 Hn.
    transitivity (S k * (binomial n k * (fact k * fact (S r)))
                  + S r * (binomial n (S k) * (fact (S k) * fact r))).
    + change (fact (S r)) with (S r * fact r).
      change (fact (S k)) with (S k * fact k). ring.
    + rewrite H1, H2, Hn. ring.
Qed.

Lemma sum_from_1_le l f j : 1 <= j <= l -> f j <= sum_from_1 l f.
Proof.
  unfold sum_from_1. intros Hj. assert (j ∈ seq 1 l) as Hin.
  { apply elem_of_seq. lia. }
  induction Hin as [j s|j i s _ IH]; simpl; lia.
Qed.

Lemma at_index_Some {A} (v : list A) i a : v !! i = Some a -> at_index v i = Done a.
Proof. unfold at_index. by intros ->. Qed.

(** ** combinator.hpp: the three generators *)

Module CombinatorFacts.
Import Combinator.

Definition branching (g : Graph) (nodes : list NodeIndex) : list nat :=
  numberOfSuccessors g <$> nodes.

Lemma for_each_count {A S} (body : A -> S -> outcome S) (I : S -> Prop)
    (size : S -> nat) (w : A -> nat) (l : list A) :
  (forall a s, a ∈ l -> I s ->
     exists s', body a s = Done s' /\ I s' /\ size s' = size s + w a) ->
  forall s, I s ->
    exists s', for_each body l s = Done s' /\ I s'
               /\ size s' = size s + sum_list_with w l.
Proof.
  induction l as [|a l IH]; intros Hbody s Hs.
  { exists s. simpl. split_and!; [done..|lia]. }
  destruct (Hbody a s) as (s1 & E1 & I1 & Z1); [left|done|].
  destruct IH with (s := s1) as (s2 & E2 & I2 & Z2); [|done|].
  { intros b t Hb. apply Hbody. by right. }
  exists s2. simpl. rewrite E1. simpl. split_and!; [done..|lia].
Qed.

(** *** generateActionCombinationSets *)

Lemma action_set_ok g : forall idx nodes,
  Forall2 lt idx (branching g nodes) ->
  exists t, action_set g nodes idx = Done t /\ length t = length nodes.
Proof.
  unfold branching. intros idx nodes H. rewrite Forall2_fmap_r in H.
  unfold action_set. induction H as [|i s idx' nodes' His _ (t & Et & Lt)].
  { by exists []. }
  unfold numberOfSuccessors in His. apply lookup_lt_is_Some_2 in His as [a Ha].
  exists ((getNodeName g a, a) :: t). simpl. rewrite (at_index_Some _ _ _ Ha).
  simpl. rewrite Et. simpl. by rewrite Lt.
Qed.

Lemma generateActionCombinationSets_ok g nodes c fuel :
  Forall (fun s => 1 <= numberOfSuccessors g s) nodes ->
  product (branching g nodes) <= fuel ->
  exists sets last,
    generateActionCombinationSets fuel g nodes c
      = Done (set_action_combinations sets last c)
    /\ length sets = product (branching g nodes)
    /\ Forall (fun t => length t = length nodes) sets.
Proof.
  intros Hpos Hfuel.
  assert (Forall (fun b => 1 <= b) (branching g nodes)) as Hb.
  { unfold branching. by apply Forall_fmap. }
  destruct (odometer_visits _ Hb) as [Hv Hend].
  destruct (emit_loop_visits (action_set g nodes) (indices_step g nodes)
              (fun idx => Forall2 lt idx (branching g nodes))
              (fun t => length t = length nodes)
              (replicate (length nodes) 0) (product (branching g nodes))
              (pred <$> branching g nodes)) with (fuel := fuel) (acc := @nil (list (string * NodeIndex)))
    as (out & Hout & Hlen & HQ); try done.
  - intros idx Hidx. by apply action_set_ok.
  - intros idx idx' Hidx Hstep. by eapply odometer_bounded.
  - unfold branching in *. by rewrite length_fmap in Hv.
  - clear -Hb. unfold branching in *. induction nodes as [|s nodes IH]; [constructor|].
    rewrite fmap_cons in *. apply Forall_cons in Hb as [Hs Hb].
    simpl. constructor; [lia|]. by apply IH.
  - exists out, (default [] (last out)). unfold generateActionCombinationSets.
    rewrite Hout. done.
Qed.

(** *** generateAgentCombinationSets *)

Definition trues (v : list bool) : nat :=
  sum_list_with (fun b : bool => if b then 1 else 0) v.

Lemma selected_length : forall agents v,
  length agents = length v -> length (selected agents v) = trues v.
Proof.
  unfold selected, trues.
  induction agents as [|a agents IH]; intros [|b v] Hlen; simplify_eq/=; [done|].
  destruct b; simpl; by rewrite IH.
Qed.

Lemma trues_chooser a b : trues (replicate a true ++ replicate b false) = a.
Proof.
  unfold trues. rewrite sum_list_with_app.
  assert (sum_list_with (fun b : bool => if b then 1 else 0) (replicate b false) = 0)
    as ->.
  { induction b as [|b IH]; [done|]. simpl. by rewrite IH. }
  induction a as [|a IH]; [done|]. simpl. simpl in IH. lia.
Qed.

Lemma generateAgentCombinationSets_ok agents k c fuel :
  k <= length agents ->
  binomial (length agents) k <= fuel ->
  exists sets last,
    generateAgentCombinationSets fuel agents k c
      = Done (set_agent_combinations sets last c)
    /\ length sets = binomial (length agents) k
    /\ Forall (fun t => length t = k) sets.
Proof.
  intros Hk Hfuel. set (n := length agents) in *.
  set (v0 := replicate k true ++ replicate (n - k) false).
  pose proof (chooser_visits _ k (n - k) eq_refl) as Hv.
  replace (k + (n - k)) with n in Hv by lia.
  destruct (emit_loop_visits (fun v => Done (selected agents v)) (advance bool_gt)
              (fun v => v ≡ₚ v0) (fun t => length t = k)
              v0 (binomial n k) (replicate (n - k) false ++ replicate k true))
    with (fuel := fuel) (acc := @nil (list string))
    as (out & Hout & Hlen & HQ); [| |exact Hv|apply chooser_done|done|done|].
  - intros v Hperm. eexists. split; [done|].
    rewrite selected_length.
    + unfold trues. rewrite Hperm. apply trues_chooser.
    + rewrite Hperm. unfold v0. rewrite length_app, !length_replicate. lia.
  - intros v v' Hperm Hstep%advance_perm. by rewrite <- Hstep.
  - exists out, (default [] (last out)). unfold generateAgentCombinationSets.
    fold n. destruct (n <? k) eqn:E; [apply Nat.ltb_lt in E; lia|].
    fold v0. rewrite Hout. done.
Qed.

(** *** assignAgentsToActions *)

Lemma collect_ok {A B} (f : A -> outcome B) (l : list A) :
  Forall (fun a => exists b, f a = Done b) l -> exists bs, collect f l = Done bs.
Proof.
  induction 1 as [|a l [b Hb] _ [bs Hbs]]; [by exists []|].
  exists (b :: bs). simpl. rewrite Hb. simpl. by rewrite Hbs.
Qed.

Lemma assignment_of_ok cur_agents cur_actions d :
  d ≡ₚ seq 0 (length cur_actions) -> length cur_agents <= length cur_actions ->
  exists a, assignment_of cur_agents cur_actions d = Done a.
Proof.
  intros Hperm Hk. apply collect_ok, Forall_lookup. intros j [i a] Hj.
  apply list_lookup_imap_Some in Hj as (a' & Ha' & [= -> ->]).
  apply lookup_lt_Some in Ha'.
  destruct (lookup_lt_is_Some_2 d j) as [di Hdi].
  { rewrite Hperm, length_seq. lia. }
  destruct (lookup_lt_is_Some_2 cur_actions di) as [act Hact].
  { apply list_elem_of_lookup_2 in Hdi. rewrite Hperm in Hdi.
    apply elem_of_seq in Hdi. lia. }
  eexists. rewrite (at_index_Some _ _ _ Hdi). simpl.
  rewrite (at_index_Some _ _ _ Hact). done.
Qed.

Lemma assignAgentsToActions_ok cur_agents cur_actions c fuel :
  length cur_agents <= length cur_actions ->
  falling (length cur_actions) (length cur_agents) <= fuel ->
  exists out,
    assignAgentsToActions fuel cur_agents cur_actions c
      = Done (set_assignments (agent_action_assignements_ c ++ out) c)
    /\ length out = falling (length cur_actions) (length cur_agents).
Proof.
  intros Hk Hfuel.
  set (n := length cur_actions) in *. set (k := length cur_agents) in *.
  destruct (selector_visits k (seq 0 n) (asc_seq 0 n)) as (s_f & Hv & Hrev).
  { by rewrite length_seq. }
  rewrite length_seq in Hv.
  destruct (emit_loop_visits (assignment_of cur_agents cur_actions)
              (selector_step k) (fun d => d ≡ₚ seq 0 n) (fun _ => True)
              (seq 0 n) (falling n k) s_f)
    with (fuel := fuel) (acc := agent_action_assignements_ c)
    as (out & Hout & Hlen & _); try done.
  - intros d Hd. destruct (assignment_of_ok cur_agents cur_actions d Hd Hk) as [a Ha].
    by exists a.
  - intros d d' Hd Hstep%perm_step_perm. by rewrite <- Hstep.
  - by apply (selector_done k s_f (seq 0 n) (asc_seq 0 n)).
  - exists out. unfold assignAgentsToActions. fold n k. rewrite Hout. done.
Qed.

(** *** generateAgentActionAssignments *)

Definition roster (agents : gmap string Agent) : list string :=
  (fun kv => name kv.2) <$> map_to_list agents.

Lemma roster_length agents : length (roster agents) = size agents.
Proof. unfold roster. by rewrite length_fmap, length_map_to_list. Qed.

Lemma sum_list_with_const {A} (l : list A) (w : A -> nat) c :
  Forall (fun a => w a = c) l -> sum_list_with w l = length l * c.
Proof. induction 1 as [|a l Ha _ IH]; [done|]. simpl. lia. Qed.

Lemma sum_from_1_list l f : sum_list_with f (seq 1 l) = sum_from_1 l f.
Proof.
  unfold sum_from_1. induction (seq 1 l) as [|a s IH]; [done|]. simpl. by rewrite IH.
Qed.

(** The number of assignments the code emits for [k] agents out of [m] over a
    frontier of [n] nodes: a subset of the agents, an ordered choice of [k] of
    the [n] frontier positions, and an action for every frontier node. *)
Definition emitted (g : Graph) (agents : gmap string Agent)
    (nodes : list NodeIndex) (k : nat) : nat :=
  binomial (size agents) k * falling (length nodes) k
  * product (branching g nodes).

Definition enough_fuel (g : Graph) (agents : gmap string Agent)
    (nodes : list NodeIndex) : nat :=
  product (branching g nodes)
  + sum_from_1 (Nat.min (length nodes) (size agents))
      (fun j => binomial (size agents) j + falling (length nodes) j).

(** C1 (as amended): when every frontier node has at least one ACTION
    successor, a call with enough fuel returns, and the number of assignments
    returned is the sum over k = 1..min(n,m) of
    C(m,k) * n!/(n-k)! * (product of the |A_i|): every agent subset of size k
    is paired with every ordered choice of k of the n frontier positions, not
    only with the k! orders of one choice. *)
Theorem generateAgentActionAssignments_count g agents nodes c fuel :
  Forall (fun s => 1 <= numberOfSuccessors g s) nodes ->
  enough_fuel g agents nodes <= fuel ->
  exists r c',
    generateAgentActionAssignments fuel g agents nodes c = Done (r, c')
    /\ length r
       = sum_from_1 (Nat.min (length nodes) (size agents))
           (emitted g agents nodes).
Proof.
  intros Hpos Hfuel. unfold enough_fuel in Hfuel.
  set (n := length nodes) in *. set (m := size agents) in *.
  set (l := Nat.min n m) in *.
  destruct (generateActionCombinationSets_ok g nodes c fuel Hpos)
    as (sets & lst & Esets & Lsets & Hsets); [lia|].
  unfold generateAgentActionAssignments. rewrite Esets. simpl.
  fold (roster agents). fold n m l.
  set (c1 := set_assignments [] (set_action_combinations sets lst c)).
  set (I := fun c : Combinator => temp_action_combinations_ c = sets).
  set (sz := fun c : Combinator => length (agent_action_assignements_ c)).
  destruct (for_each_count
    (fun j c =>
       c ← generateAgentCombinationSets fuel (roster agents) j c;
       for_each (fun ags c =>
         for_each (fun actions c => assignAgentsToActions fuel ags actions c)
           (temp_action_combinations_ c) c)
         (temp_agent_combinations_ c) c)
    I sz (emitted g agents nodes) (seq 1 l)) with (s := c1)
    as (c2 & E2 & _ & Z2); [|done|].
  2:{ rewrite E2. simpl. exists (agent_action_assignements_ c2), c2.
      split; [done|]. fold (sz c2). rewrite Z2. unfold sz, c1. simpl.
      apply sum_from_1_list. }
  intros j s Hj Is. apply elem_of_seq in Hj.
  assert (binomial m j + falling n j <= fuel) as Hfj.
  { pose proof (sum_from_1_le l (fun j => binomial m j + falling n j) j) as H.
    simpl in H. lia. }
  destruct (generateAgentCombinationSets_ok (roster agents) j s fuel)
    as (asets & alst & Ea & La & Ha).
  { rewrite roster_length. fold m. lia. }
  { rewrite roster_length. fold m. lia. }
  rewrite Ea. simpl. rewrite roster_length in La. fold m in La.
  set (s1 := set_agent_combinations asets alst s).
  destruct (for_each_count
    (fun ags c =>
       for_each (fun actions c => assignAgentsToActions fuel ags actions c)
         (temp_action_combinations_ c) c)
    I sz (fun _ => length sets * falling n j) asets) with (s := s1)
    as (s2 & Es2 & Is2 & Zs2); [|done|].
  2:{ exists s2. split_and!; [done..|]. rewrite Zs2.
      rewrite (sum_list_with_const _ _ (length sets * falling n j))
        by (by apply Forall_forall).
      unfold sz, s1, emitted. simpl. fold n m. rewrite La, Lsets.
      f_equal. ring. }
  intros ags t Hags It. rewrite Forall_forall in Ha. specialize (Ha ags Hags).
  rewrite It.
  destruct (for_each_count
    (fun actions c => assignAgentsToActions fuel ags actions c)
    I sz (fun _ => falling n j) sets) with (s := t)
    as (t2 & Et2 & It2 & Zt2); [|done|].
  2:{ exists t2. split_and!; [done..|]. rewrite Zt2.
      by rewrite (sum_list_with_const _ _ (falling n j)) by (by apply Forall_forall). }
  intros actions u Hact Iu. rewrite Forall_forall in Hsets.
  specialize (Hsets actions Hact).
  destruct (assignAgentsToActions_ok ags actions u fuel) as (out & Eo & Lo).
  { rewrite Ha, Hsets. fold n. lia. }
  { rewrite Ha, Hsets. fold n. lia. }
  rewrite Eo. eexists. split_and!; [done|done|].
  unfold sz. simpl. rewrite length_app, Lo, Ha, Hsets. done.
Qed.

(** What the specification states instead: k! in the place of n!/(n-k)!. *)
Definition claimed (g : Graph) (agents : gmap string Agent)
    (nodes : list NodeIndex) : nat :=
  sum_from_1 (Nat.min (length nodes) (size agents))
    (fun k => binomial (size agents) k * fact k * product (branching g nodes)).

(** Scenario 5 of the specification: three frontier sub-assemblies 0, 1, 2
    with two actions each, two agents. *)
Definition branching_graph : Graph :=
  {| successorNodes := fun s => if s <? 3 then [10 + 2 * s; 11 + 2 * s] else [];
     getNodeName := fun a => if Nat.even a then "even" else "odd" |}.

Definition two_agents : gmap string Agent :=
  <["A" := {| name := "A"; hostname := "localhost"; port := "1" |}]>
    (<["B" := {| name := "B"; hostname := "localhost"; port := "2" |}]> ∅).

Definition fresh_combinator : Combinator :=
  {| agent_action_assignements_ := []; temp_agent_combinations_ := [];
     temp_agent_set_ := []; temp_action_combinations_ := [];
     temp_action_set_ := [] |}.

Lemma generateAgentActionAssignments_count_scenario5 :
  (Forall (fun s => 1 <= numberOfSuccessors branching_graph s) [0; 1; 2]
   /\ enough_fuel branching_graph two_agents [0; 1; 2] <= 100)
  /\ exists r c',
       generateAgentActionAssignments 100 branching_graph two_agents [0; 1; 2]
         fresh_combinator = Done (r, c')
       /\ length r
          = sum_from_1 (Nat.min (length [0; 1; 2]) (size two_agents))
              (emitted branching_graph two_agents [0; 1; 2]).
Proof.
  assert (Forall (fun s => 1 <= numberOfSuccessors branching_graph s) [0; 1; 2])
    as H1 by (repeat constructor).
  assert (enough_fuel branching_graph two_agents [0; 1; 2] <= 100)
    as H2 by (vm_compute; lia).
  split; [by split|].
  exact (generateAgentActionAssignments_count branching_graph two_agents
           [0; 1; 2] fresh_combinator 100 H1 H2).
Defined.

(** C1 as stated fails on scenario 5: the code returns 96 assignments where
    the stated sum is 32. *)
Lemma scenario5_emits_96_not_32 :
  exists r c',
    generateAgentActionAssignments 100 branching_graph two_agents [0; 1; 2]
      fresh_combinator = Done (r, c')
    /\ length r = 96
    /\ claimed branching_graph two_agents [0; 1; 2] = 32.
Proof.
  destruct (generateAgentActionAssignments 100 branching_graph two_agents
              [0; 1; 2] fresh_combinator) as [[r c']| | | | |] eqn:E;
    try (vm_compute in E; discriminate).
  exists r, c'. split; [done|]. split; [|by vm_compute].
  assert (length <$> (Some r) = Some 96) as H; [|by injection H].
  transitivity (match generateAgentActionAssignments 100 branching_graph
                        two_agents [0; 1; 2] fresh_combinator with
                | Done (r, _) => Some (length r) | _ => None end).
  - by rewrite E.
  - by vm_compute.
Qed.

(** *** A frontier node without successors *)

Lemma action_set_dead_end g : forall nodes,
  Exists (fun s => successorNodes g s = []) nodes ->
  action_set g nodes (replicate (length nodes) 0) = OutOfBounds.
Proof.
  unfold action_set. induction nodes as [|s nodes IH]; intros H.
  { by apply Exists_nil in H. }
  simpl. destruct (successorNodes g s) as [|a succs] eqn:Es; [done|].
  apply Exists_cons in H as [H|H]; [congruence|]. simpl. by rewrite IH.
Qed.

(** C2: as soon as one frontier node has no ACTION successor, the first round
    of generateActionCombinationSets reads element 0 of an empty successor
    list; no assignment list is returned. *)
Theorem dead_end_reads_out_of_bounds g agents nodes c fuel :
  Exists (fun s => successorNodes g s = []) nodes ->
  generateAgentActionAssignments (S fuel) g agents nodes c = OutOfBounds.
Proof.
  intros H. unfold generateAgentActionAssignments, generateActionCombinationSets.
  by rewrite emit_loop_fault by (by apply action_set_dead_end).
Qed.

Lemma dead_end_reads_out_of_bounds_leaf :
  Exists (fun s => successorNodes branching_graph s = []) [0; 5]
  /\ generateAgentActionAssignments 100 branching_graph two_agents [0; 5]
       fresh_combinator = OutOfBounds.
Proof.
  assert (Exists (fun s => successorNodes branching_graph s = []) [0; 5]) as H.
  { apply Exists_cons_tl, Exists_cons_hd. reflexivity. }
  split; [exact H|].
  exact (dead_end_reads_out_of_bounds branching_graph two_agents [0; 5]
           fresh_combinator 99 H).
Defined.

(** *** The result does not depend on what earlier calls left behind *)











End CombinatorFacts.

(** ** io.hpp: parse_costmap *)

Module IoXmlFacts.
Import IoXml.

Section ParseCostmapFacts.
Variable is_float : string -> bool.
Variable stod : string -> float.

Lemma parse_cost_inf cost agent value m :
  Attribute cost "agent" = Some agent ->
  Attribute cost "value" = Some value ->
  lowercase value = "inf"%string ->
  parse_cost is_float stod cost m = Some (<[agent := INT_MAX]> m).
Proof. unfold parse_cost. by intros -> -> ->. Qed.

Lemma parse_cost_not_a_number cost value m :
  Attribute cost "value" = Some value ->
  lowercase value <> "inf"%string ->
  is_float (lowercase value) = false ->
  parse_cost is_float stod cost m = None.
Proof.
  unfold parse_cost. intros -> Hinf ->.
  destruct (Attribute cost "agent"); [|done].
  by apply String.eqb_neq in Hinf as ->.
Qed.

(** A cost written for another agent leaves the entry alone. *)
Lemma parse_cost_other cost agent m m' :
  Attribute cost "agent" <> Some agent ->
  parse_cost is_float stod cost m = Some m' ->
  m' !! agent = m !! agent.
Proof.
  unfold parse_cost. destruct (Attribute cost "agent") as [a|]; [|done].
  intros Ha. assert (a <> agent) by congruence.
  destruct (Attribute cost "value") as [v|]; [|done].
  destruct (lowercase v =? "inf")%string.
  - intros [= <-]. by rewrite lookup_insert_ne.
  - destruct (is_float (lowercase v)); [|done].
    intros [= <-]. by rewrite lookup_insert_ne.
Qed.

Lemma parse_costs_others agent : forall costs m m',
  Forall (fun c => Attribute c "agent" <> Some agent) costs ->
  parse_costs is_float stod costs m = Some m' ->
  m' !! agent = m !! agent.
Proof.
  induction costs as [|c costs IH]; intros m m' Hall; simpl.
  { by intros [= <-]. }
  apply Forall_cons in Hall as [Hc Hall].
  destruct (parse_cost is_float stod c m) as [m1|] eqn:E; [|done].
  intros H. rewrite (IH _ _ Hall H). by eapply parse_cost_other.
Qed.

Lemma parse_costs_app : forall pre post m m',
  parse_costs is_float stod (pre ++ post) m = Some m' ->
  exists m1, parse_costs is_float stod pre m = Some m1
             /\ parse_costs is_float stod post m1 = Some m'.
Proof.
  induction pre as [|c pre IH]; intros post m m'; simpl.
  { intros H. by exists m. }
  destruct (parse_cost is_float stod c m) as [m1|]; [|done]. apply IH.
Qed.

Lemma parse_costs_error : forall costs cost m,
  cost ∈ costs -> (forall m, parse_cost is_float stod cost m = None) ->
  parse_costs is_float stod costs m = None.
Proof.
  induction costs as [|c costs IH]; intros cost m Hin Hnone.
  { by apply elem_of_nil in Hin. }
  simpl. apply elem_of_cons in Hin as [<-|Hin].
  - by rewrite Hnone.
  - destruct (parse_cost is_float stod c m); [|done]. by eapply IH.
Qed.

(** C3 (as amended): a [<cost>] whose value is "inf" in any letter case
    makes parse_costmap record the cost INT_MAX, that is 2147483647, a
    finite number, for that agent, and the returned map holds it unless a
    later [<cost>] names the same agent; a value that is neither a number
    nor "inf" makes parse_costmap return no cost map. *)
Theorem parse_costmap_inf_and_errors :
  (forall cost agent value m,
     Attribute cost "agent" = Some agent ->
     Attribute cost "value" = Some value ->
     lowercase value = "inf"%string ->
     parse_cost is_float stod cost m = Some (<[agent := INT_MAX]> m))
  /\ (forall action_node pre cost post agent value m,
        ChildElements action_node "cost" = pre ++ cost :: post ->
        Attribute cost "agent" = Some agent ->
        Attribute cost "value" = Some value ->
        lowercase value = "inf"%string ->
        Forall (fun c => Attribute c "agent" <> Some agent) post ->
        parse_costmap is_float stod action_node = Some m ->
        m !! agent = Some INT_MAX)
  /\ (forall action_node cost value,
        cost ∈ ChildElements action_node "cost" ->
        Attribute cost "value" = Some value ->
        lowercase value <> "inf"%string ->
        is_float (lowercase value) = false ->
        parse_costmap is_float stod action_node = None)
  /\ INT_MAX = 2147483647%float
  /\ PrimFloat.is_finite INT_MAX = true.
Proof.
  split_and!; [| | |done|done].
  - intros cost agent value m Ha Hv Hinf. by apply (parse_cost_inf cost agent value).
  - intros node pre cost post agent value m Hch Ha Hv Hinf Hpost.
    unfold parse_costmap. rewrite Hch.
    intros (m1 & _ & H)%parse_costs_app. simpl in H.
    rewrite (parse_cost_inf _ _ _ _ Ha Hv Hinf) in H.
    rewrite (parse_costs_others _ _ _ _ Hpost H). apply lookup_insert_eq.
  - intros node cost value Hin Hv Hinf Hnum. unfold parse_costmap.
    eapply parse_costs_error; [done|].
    intros m. exact (parse_cost_not_a_number cost value m Hv Hinf Hnum).
Qed.
End ParseCostmapFacts.

Definition cost_element (agent value : string) : XMLElement :=
  Element "cost" [("agent", agent); ("value", value)]%string [].

(** An action with an unassignable agent, a costly one and a malformed
    entry. *)
Definition weld : XMLElement :=
  Element "node" [("name", "weld"); ("type", "AND")]%string
    [cost_element "robot" "Inf"; cost_element "human" "3000000000"].

Definition weld_malformed : XMLElement :=
  Element "node" [("name", "weld"); ("type", "AND")]%string
    [cost_element "robot" "Inf"; cost_element "human" "soon"].

(** A stream library that reads exactly "3000000000" as a number. *)
Definition reads_3e9 (s : string) : bool := String.eqb s "3000000000".
Definition value_3e9 (s : string) : float := 3000000000%float.

Lemma parse_costmap_inf_and_errors_weld :
  parse_cost reads_3e9 value_3e9 (cost_element "robot" "Inf") ∅
    = Some (<["robot"%string := INT_MAX]> ∅)
  /\ (forall m, parse_costmap reads_3e9 value_3e9 weld = Some m ->
                m !! "robot"%string = Some INT_MAX)
  /\ parse_costmap reads_3e9 value_3e9 weld_malformed = None.
Proof.
  destruct (parse_costmap_inf_and_errors reads_3e9 value_3e9)
    as (H1 & H2 & H3 & _).
  split_and!.
  - by apply (H1 (cost_element "robot" "Inf") "robot"%string "Inf"%string).
  - intros m. apply (H2 weld [] (cost_element "robot" "Inf")
                       [cost_element "human" "3000000000"]
                       "robot"%string "Inf"%string m); try done.
    by repeat constructor.
  - apply (H3 weld_malformed (cost_element "human" "soon") "soon"%string);
      try done.
    unfold weld_malformed. simpl. rewrite !filter_cons_True by done.
    apply elem_of_cons. right. apply elem_of_cons. by left.
Defined.

(** A node with a single [<cost>] child whose value is "inf": what is recorded
    would be above every finite cost. *)
Definition inf_recorded_above_every_finite_cost : Prop :=
  forall is_float stod agent value m,
    lowercase value = "inf"%string ->
    parse_costmap is_float stod
      (Element "node" [] [cost_element agent value]) = Some m ->
    exists c, m !! agent = Some c
              /\ forall x, PrimFloat.is_finite x = true -> PrimFloat.ltb x c = true.

(** C3 as stated fails: for "Inf" the map holds 2147483647, and the finite
    cost 3000000000 is not below it. *)
Lemma inf_is_recorded_as_INT_MAX : ~ inf_recorded_above_every_finite_cost.
Proof.
  intros H.
  destruct (H reads_3e9 value_3e9 "robot"%string "Inf"%string
              (<["robot"%string := INT_MAX]> ∅)) as (c & Hc & Habove).
  - done.
  - done.
  - rewrite lookup_insert_eq in Hc. injection Hc as <-.
    specialize (Habove 3000000000%float eq_refl). vm_compute in Habove.
    discriminate.
Qed.

(** ** io.hpp: validate_graph *)

Lemma existsb_false_elem {A} (f : A -> bool) (l : list A) x :
  existsb f l = false -> x ∈ l -> f x = false.
Proof.
  intros H Hx. destruct (f x) eqn:E; [|done].
  assert (existsb f l = true); [|congruence].
  apply existsb_exists. exists x. split; [|done]. by apply list_elem_of_In.
Qed.

Definition checked (t : NodeType) : Prop := t = ACTION \/ t = SUBASSEMBLY.

Definition opposite (a b : NodeType) : Prop :=
  (a = SUBASSEMBLY /\ b = ACTION) \/ (a = ACTION /\ b = SUBASSEMBLY).

Lemma rejected_false node other :
  rejected node other = false -> checked (type node) ->
  opposite (type other) (type node).
Proof.
  unfold rejected, checked, opposite.
  destruct (type node), (type other); simpl; intros H [?|?]; try done; auto.
Qed.

(** C5 (as amended): on a graph that validate_graph accepts, every edge with
    an ACTION or a SUBASSEMBLY at either end runs SUBASSEMBLY->ACTION or
    ACTION->SUBASSEMBLY. *)
Theorem validate_graph_alternates g s d ns nd :
  validate_graph g = 0%Z ->
  (s, d) ∈ edges_ g -> nodes_ g !! s = Some ns -> nodes_ g !! d = Some nd ->
  checked (type ns) \/ checked (type nd) ->
  opposite (type ns) (type nd).
Proof.
  unfold validate_graph.
  destruct (existsb _ (nodes g)) eqn:E; [done|]. intros _ Hedge Hs Hd Hchk.
  destruct Hchk as [Hc|Hc].
  - assert ((s, ns) ∈ nodes g) as Hin by (by apply elem_of_map_to_list).
    pose proof (existsb_false_elem _ _ _ E Hin) as H. simpl in H.
    apply orb_false_iff in H as [_ H].
    assert (nd ∈ getSuccessorNodes g s) as Hnd.
    { apply list_elem_of_omap. exists (s, d). split; [done|]. simpl.
      by rewrite decide_True. }
    pose proof (rejected_false _ _ (existsb_false_elem _ _ _ H Hnd) Hc) as Ho.
    unfold opposite in *. tauto.
  - assert ((d, nd) ∈ nodes g) as Hin by (by apply elem_of_map_to_list).
    pose proof (existsb_false_elem _ _ _ E Hin) as H. simpl in H.
    apply orb_false_iff in H as [H _].
    assert (ns ∈ getPredecessorNodes g d) as Hns.
    { apply list_elem_of_omap. exists (s, d). split; [done|]. simpl.
      by rewrite decide_True. }
    exact (rejected_false _ _ (existsb_false_elem _ _ _ H Hns) Hc).
Qed.

Definition node_of_type (t : NodeType) (n : string) : AssemblyData :=
  {| type := t; name := n; assigned_agent := ""; interaction_prev := 0;
     interaction_or := 0; interaction_next := 0 |}.

(** A sub-assembly with one action. *)
Definition one_action : Graph :=
  {| nodes_ := <[0 := node_of_type SUBASSEMBLY "ab"]>
                 (<[1 := node_of_type ACTION "join"]> ∅);
     edges_ := [(0, 1)] |}.

Lemma validate_graph_alternates_one_action :
  (validate_graph one_action = 0%Z
   /\ (0, 1) ∈ edges_ one_action
   /\ nodes_ one_action !! 0 = Some (node_of_type SUBASSEMBLY "ab")
   /\ nodes_ one_action !! 1 = Some (node_of_type ACTION "join")
   /\ (checked SUBASSEMBLY \/ checked ACTION))
  /\ opposite SUBASSEMBLY ACTION.
Proof.
  assert (validate_graph one_action = 0%Z) as H1 by (by vm_compute).
  assert ((0, 1) ∈ edges_ one_action) as H2 by (simpl; left).
  assert (nodes_ one_action !! 0 = Some (node_of_type SUBASSEMBLY "ab")) as H3
    by (by vm_compute).
  assert (nodes_ one_action !! 1 = Some (node_of_type ACTION "join")) as H4
    by (by vm_compute).
  assert (checked SUBASSEMBLY \/ checked ACTION) as H5 by (left; by right).
  split; [done|].
  exact (validate_graph_alternates one_action 0 1 _ _ H1 H2 H3 H4 H5).
Defined.

(** Every edge joins a SUBASSEMBLY and an ACTION. *)
Definition alternates (g : Graph) : Prop :=
  forall s d ns nd,
    (s, d) ∈ edges_ g -> nodes_ g !! s = Some ns -> nodes_ g !! d = Some nd ->
    opposite (type ns) (type nd).

(** Two INTERACTION nodes joined by an edge. *)
Definition two_interactions : Graph :=
  {| nodes_ := <[0 := node_of_type INTERACTION "hand"]>
                 (<[1 := node_of_type INTERACTION "over"]> ∅);
     edges_ := [(0, 1)] |}.

(** C5 as stated fails: validate_graph accepts a graph whose only edge joins
    two INTERACTION nodes. *)
Lemma validate_graph_accepts_interaction_edge :
  validate_graph two_interactions = 0%Z /\ ~ alternates two_interactions.
Proof.
  split; [by vm_compute|]. intros H.
  destruct (H 0 1 (node_of_type INTERACTION "hand")
              (node_of_type INTERACTION "over")) as [[? _]|[? _]];
    try done.
  simpl. left.
Qed.

End IoXmlFacts.

(** ** astar.hpp: the scores *)

Module AStarFacts.
Import AStar.

Section ScoresFacts.
Variable assembly_ : AssemblyGraph.
Variable log2f : float -> float.

Definition name_length (x : string * NodeIndex) : nat :=
  String.length (getNodeName assembly_ x.2).

(** The loop keeps the largest length seen so far. *)
Lemma maximum_length_from : forall subs acc,
  let r := foldl (fun m x => if m <? name_length x then name_length x else m)
                 acc subs in
  acc <= r /\ Forall (fun x => name_length x <= r) subs
  /\ (r = acc \/ exists x, x ∈ subs /\ name_length x = r).
Proof.
  induction subs as [|x subs IH]; intros acc; simpl.
  { split_and!; [lia|constructor|by left]. }
  destruct (IH (if acc <? name_length x then name_length x else acc))
    as (Hle & Hall & Hwho).
  destruct (acc <? name_length x) eqn:E;
    [apply Nat.ltb_lt in E|apply Nat.ltb_ge in E].
  - split_and!; [lia|constructor; [lia|done]|]. right.
    destruct Hwho as [->|(y & Hy & <-)].
    + exists x. split; [left|done].
    + exists y. split; [by right|done].
  - split_and!; [lia|constructor; [lia|done]|].
    destruct Hwho as [->|(y & Hy & <-)]; [by left|].
    right. exists y. split; [by right|done].
Qed.

Lemma maximum_length_spec subs :
  Forall (fun x => name_length x <= maximum_length assembly_ subs) subs
  /\ (maximum_length assembly_ subs = 0
      \/ exists x, x ∈ subs /\ name_length x = maximum_length assembly_ subs).
Proof. by destruct (maximum_length_from subs 0) as (_ & Hall & Hwho). Qed.

(** C4: for a state with at least one sub-assembly, the h_score computed is
    log2f of the largest name length among its sub-assemblies times
    minimum_cost_action, and the f_score computed is g_score + h_score. *)
Theorem scores_formula (n : SearchData) :
  subassemblies n <> ∅ ->
  exists L,
    (forall k id, subassemblies n !! k = Some id ->
                  String.length (getNodeName assembly_ id) <= L)
    /\ (exists k id, subassemblies n !! k = Some id
                     /\ String.length (getNodeName assembly_ id) = L)
    /\ calc_hscore assembly_ log2f n
       = PrimFloat.mul (log2f (float_of_size L)) (minimum_cost_action n)
    /\ h_score (score assembly_ log2f n) = calc_hscore assembly_ log2f n
    /\ f_score (score assembly_ log2f n)
       = PrimFloat.add (g_score n) (h_score (score assembly_ log2f n)).
Proof.
  intros Hne.
  exists (maximum_length assembly_ (map_to_list (subassemblies n))).
  destruct (maximum_length_spec (map_to_list (subassemblies n)))
    as (Hall & Hwho).
  split_and!; [| |done..].
  - intros k id Hk. rewrite Forall_forall in Hall.
    apply (Hall (k, id)). by apply elem_of_map_to_list.
  - destruct Hwho as [H0|([k id] & Hin & Hlen)].
    + rewrite H0 in *.
      destruct (map_to_list (subassemblies n)) as [|[k id] rest] eqn:E.
      { by apply map_to_list_empty_iff in E. }
      exists k, id. split.
      * apply elem_of_map_to_list. rewrite E. left.
      * apply Forall_cons in Hall as [Hx _]. unfold name_length in Hx.
        simpl in Hx. lia.
    + exists k, id. split; [by apply elem_of_map_to_list|done].
Qed.
End ScoresFacts.

Definition shaft_hub : AssemblyGraph :=
  {| getNodeName := fun i => if Nat.eqb i 7 then "shaft" else "hub";
     hasSuccessor := fun _ => true |}.

Definition open_state : SearchData :=
  {| marked := false; g_score := 5; f_score := 0; h_score := 0;
     minimum_cost_action := 3;
     subassemblies := <["shaft"%string := 7]> (<["hub"%string := 1]> ∅);
     actions := ∅ |}.

(** [log2f] on the few arguments used below, rounded to [float]. *)
Definition log2f_table (x : float) : float :=
  if PrimFloat.eqb x 1 then 0
  else if PrimFloat.eqb x 2 then 1
  else if PrimFloat.eqb x 3 then 0x1.95c01ap+0
  else if PrimFloat.eqb x 4 then 2
  else if PrimFloat.eqb x 5 then 0x1.2934fp+1
  else PrimFloat.nan.

Lemma scores_formula_open_state :
  subassemblies open_state <> ∅
  /\ exists L,
      (forall k id, subassemblies open_state !! k = Some id ->
                    String.length (getNodeName shaft_hub id) <= L)
      /\ (exists k id, subassemblies open_state !! k = Some id
                       /\ String.length (getNodeName shaft_hub id) = L)
      /\ calc_hscore shaft_hub log2f_table open_state
         = PrimFloat.mul (log2f_table (float_of_size L))
             (minimum_cost_action open_state)
      /\ h_score (score shaft_hub log2f_table open_state)
         = calc_hscore shaft_hub log2f_table open_state
      /\ f_score (score shaft_hub log2f_table open_state)
         = PrimFloat.add (g_score open_state)
             (h_score (score shaft_hub log2f_table open_state)).
Proof.
  assert (subassemblies open_state <> ∅) as H.
  { intros E. assert (subassemblies open_state !! "hub"%string = None) as E'
      by (by rewrite E). vm_compute in E'. discriminate. }
  split; [exact H|].
  exact (scores_formula shaft_hub log2f_table open_state H).
Defined.

(** ** astar.hpp: a search that finds no goal *)

Lemma sum_list_with_ext_Forall {A} (f g : A -> nat) (l : list A) :
  Forall (fun x => f x = g x) l -> sum_list_with f l = sum_list_with g l.
Proof. induction 1 as [|x l Hx _ IH]; [done|]. simpl. by rewrite Hx, IH. Qed.

Lemma sum_list_with_delete {A} (f : A -> nat) (l : list A) i x :
  l !! i = Some x -> sum_list_with f l = f x + sum_list_with f (delete i l).
Proof.
  revert i. induction l as [|y l IH]; intros [|i] H; simplify_eq/=; [done|].
  rewrite (IH i H). lia.
Qed.

Section SearchFacts.
Variable assembly_ : AssemblyGraph.
Variable log2f : float -> float.
Variable successorEdges : NodeIndex -> list (float * NodeIndex).
Variable top : (NodeIndex -> SearchData) -> list NodeIndex -> nat.

Local Abbreviation isGoal := (AStar.isGoal assembly_).
Local Abbreviation score := (AStar.score assembly_ log2f).
Local Abbreviation relax := (AStar.relax assembly_ log2f).
Local Abbreviation search_loop :=
  (AStar.search_loop assembly_ log2f successorEdges top).
Local Abbreviation search := (AStar.search assembly_ log2f successorEdges top).

Definition children (u : NodeIndex) : list NodeIndex :=
  snd <$> successorEdges u.

(** The states the search can reach from the root. *)
Inductive reachable (root : NodeIndex) : NodeIndex -> Prop :=
  | reachable_root : reachable root root
  | reachable_child u v :
      reachable root u -> v ∈ children u -> reachable root v.

(** The search never writes the sub-assemblies of a state. *)
Definition same_frontiers (s s' : NodeIndex -> SearchData) : Prop :=
  forall v, subassemblies (s v) = subassemblies (s' v).

Lemma isGoal_frontier d d' :
  subassemblies d = subassemblies d' -> isGoal d = isGoal d'.
Proof. unfold AStar.isGoal. by intros ->. Qed.

Lemma same_frontiers_update id f s s' :
  (forall d, subassemblies (f d) = subassemblies d) ->
  same_frontiers s s' -> same_frontiers (update id f s) s'.
Proof.
  intros Hf H v. unfold update. destruct (decide (v = id)); [|done].
  by rewrite Hf.
Qed.

Lemma relax_all cur : forall edges store openSet,
  exists store',
    foldl (fun s edge => relax cur edge s) (store, openSet) edges
      = (store', openSet ++ (snd <$> edges))
    /\ same_frontiers store' store.
Proof.
  induction edges as [|e edges IH]; intros store openSet.
  { exists store. simpl. by rewrite app_nil_r. }
  simpl.
  destruct (IH (update e.2 score
                  (update e.2 (set_g_score
                     (PrimFloat.add (g_score (store cur)) e.1)) store))
               (openSet ++ [e.2])) as (store' & E & Hsame).
  exists store'. rewrite E. split.
  - f_equal. by rewrite <- app_assoc.
  - intros v. rewrite Hsame.
    by apply same_frontiers_update; [|apply same_frontiers_update].
Qed.

(** The number of pops a state causes: itself and what its children
    cause, [d] levels deep. *)
Fixpoint tree_size (d : nat) (u : NodeIndex) : nat :=
  match d with
  | 0 => 1
  | S d' => 1 + sum_list_with (tree_size d') (children u)
  end.

Section Ranked.
Variable rank : NodeIndex -> nat.
Hypothesis rank_decreases :
  forall u v, v ∈ children u -> rank v < rank u.

Lemma tree_size_stable : forall d u,
  rank u <= d -> tree_size (S d) u = tree_size d u.
Proof.
  induction d as [|d IH]; intros u Hu.
  - simpl. destruct (children u) as [|v vs] eqn:E; [done|].
    assert (rank v < rank u); [|lia].
    apply rank_decreases. rewrite E. left.
  - change (tree_size (S (S d)) u)
      with (1 + sum_list_with (tree_size (S d)) (children u)).
    change (tree_size (S d) u)
      with (1 + sum_list_with (tree_size d) (children u)).
    f_equal. apply sum_list_with_ext_Forall, Forall_forall.
    intros v Hv. apply IH. specialize (rank_decreases u v Hv). lia.
Qed.

Lemma tree_size_unfold d u :
  rank u <= d ->
  tree_size d u = 1 + sum_list_with (tree_size d) (children u).
Proof.
  intros Hu. destruct d as [|d].
  - simpl. destruct (children u) as [|v vs] eqn:E; [done|].
    assert (rank v < rank u); [|lia].
    apply rank_decreases. rewrite E. left.
  - change (tree_size (S d) u)
      with (1 + sum_list_with (tree_size d) (children u)).
    f_equal. apply sum_list_with_ext_Forall, Forall_forall.
    intros v Hv. symmetry. apply tree_size_stable.
    specialize (rank_decreases u v Hv). lia.
Qed.

Lemma tree_size_positive d u : 0 < tree_size d u.
Proof. destruct d; simpl; lia. Qed.

Variable root : NodeIndex.
Variable store0 : NodeIndex -> SearchData.
Variable D : nat.
Hypothesis top_in_range :
  forall store q, q <> [] -> top store q < length q.
Hypothesis no_goal :
  forall v, reachable root v -> isGoal (store0 v) = false.

Definition waiting (x : NodeIndex) : Prop := reachable root x /\ rank x <= D.

(** Every round pops one state; the rounds left are counted by the tree
    sizes of the states in the open set. *)
Lemma search_loop_exhausts : forall fuel store openSet current trace,
  same_frontiers store store0 ->
  Forall waiting openSet ->
  sum_list_with (tree_size D) openSet < fuel ->
  exists r more,
    search_loop fuel store openSet current trace = Done r
    /\ open_after r = []
    /\ popped r = trace ++ more
    /\ length more = sum_list_with (tree_size D) openSet
    /\ found r = match last more with Some x => Some x | None => current end
    /\ Forall (reachable root) more
    /\ same_frontiers (store_after r) store0.
Proof.
  induction fuel as [|fuel IH]; intros store openSet current trace
    Hsame Hopen Hfuel; [lia|].
  destruct openSet as [|x q] eqn:Eq.
  { eexists _, []. simpl. rewrite app_nil_r. split_and!; done. }
  rewrite <- Eq in *. assert (openSet <> []) as Hne by (by rewrite Eq).
  destruct (lookup_lt_is_Some_2 openSet (top store openSet)) as [cur Hcur].
  { by apply top_in_range. }
  assert (waiting cur) as [Hreach Hrank].
  { rewrite Forall_forall in Hopen. apply Hopen.
    by eapply list_elem_of_lookup_2. }
  assert (isGoal (store cur) = false) as Hng.
  { rewrite (isGoal_frontier _ (store0 cur)) by apply Hsame.
    by apply no_goal. }
  destruct (relax_all cur (successorEdges cur)
              (update cur (set_marked true) store)
              (delete (top store openSet) openSet))
    as (store' & Erelax & Hsame').
  destruct (IH store'
              (delete (top store openSet) openSet ++ children cur)
              (Some cur) (trace ++ [cur]))
    as (r & more & Er & Hempty & Hpop & Hlen & Hfound & Hmore & Hfinal).
  { intros v. rewrite Hsame'. by apply same_frontiers_update. }
  { apply Forall_app. split.
    - apply Forall_forall. intros y Hy. rewrite Forall_forall in Hopen.
      apply Hopen. by eapply list_elem_of_delete_inv.
    - apply Forall_forall. intros v Hv. split.
      + by eapply reachable_child.
      + specialize (rank_decreases cur v Hv). lia. }
  { rewrite sum_list_with_app.
    rewrite (sum_list_with_delete _ _ _ _ Hcur) in Hfuel.
    rewrite (tree_size_unfold D cur Hrank) in Hfuel. lia. }
  exists r, (cur :: more).
  split_and!; [|done| | | |by constructor|done].
  - rewrite <- Er. rewrite Eq. cbn [AStar.search_loop]. rewrite <- Eq.
    rewrite (at_index_Some _ _ _ Hcur). cbn [mbind outcome_bind].
    rewrite Hng. unfold children. by rewrite Erelax.
  - by rewrite Hpop, <- app_assoc.
  - rewrite sum_list_with_app in Hlen.
    rewrite (sum_list_with_delete _ _ _ _ Hcur).
    rewrite (tree_size_unfold D cur Hrank). simpl. lia.
  - rewrite Hfound. destruct more as [|y more']; [done|].
    rewrite last_cons_cons.
    destruct (last (y :: more')) eqn:E; [done|]. by apply last_None in E.
Qed.
End Ranked.

(** C8 (as amended): when the expansion below the root is finite (edges go
    down in a rank), the queue hands out one of its elements and no
    reachable state is a goal, the search returns with the open set empty,
    and what it returns is the state popped last, a state that is no
    goal. *)
Theorem search_without_goal (rank : NodeIndex -> nat) root store :
  (forall store q, q <> [] -> top store q < length q) ->
  (forall u v, v ∈ children u -> rank v < rank u) ->
  (forall v, reachable root v -> isGoal (store v) = false) ->
  exists fuel0, forall fuel, fuel0 <= fuel ->
    exists r final,
      search fuel store root = Done r
      /\ open_after r = []
      /\ last (popped r) = Some final
      /\ found r = Some final
      /\ isGoal (store_after r final) = false.
Proof.
  intros Htop Hrank Hnogoal.
  exists (S (tree_size (rank root) root)). intros fuel Hfuel.
  destruct (search_loop_exhausts rank Hrank root store (rank root) Htop
              Hnogoal fuel (update root score store) [root] None [])
    as (r & more & Er & Hempty & Hpop & Hlen & Hfound & Hmore & Hfinal).
  { by apply same_frontiers_update. }
  { repeat constructor. }
  { simpl. lia. }
  simpl in Hpop, Hlen. subst more.
  destruct (last (popped r)) as [final|] eqn:Elast.
  2:{ apply last_None in Elast. rewrite Elast in Hlen. simpl in Hlen.
      pose proof (tree_size_positive (rank root) root). lia. }
  exists r, final. split_and!; [done..|].
  rewrite (isGoal_frontier _ (store final)) by apply Hfinal.
  apply Hnogoal. rewrite Forall_forall in Hmore. apply Hmore.
  by eapply last_Some_elem_of.
Qed.
End SearchFacts.

(** A queue that gives the least f_score, the earliest pushed among equals. *)
Fixpoint least_f_from (store : NodeIndex -> SearchData) (q : list NodeIndex)
    (i best : nat) (best_f : float) : nat :=
  match q with
  | [] => best
  | x :: q' =>
      if PrimFloat.ltb (f_score (store x)) best_f
      then least_f_from store q' (S i) i (f_score (store x))
      else least_f_from store q' (S i) best best_f
  end.

Definition least_f (store : NodeIndex -> SearchData) (q : list NodeIndex) : nat :=
  match q with
  | [] => 0
  | x :: q' => least_f_from store q' 1 0 (f_score (store x))
  end.

Lemma least_f_from_in_range store : forall q i best best_f,
  best < i -> least_f_from store q i best best_f < i + length q.
Proof.
  induction q as [|x q IH]; intros i best best_f Hb; simpl; [lia|].
  destruct (PrimFloat.ltb _ _).
  - specialize (IH (S i) i (f_score (store x))). lia.
  - specialize (IH (S i) best best_f). lia.
Qed.

Lemma least_f_in_range store q : q <> [] -> least_f store q < length q.
Proof.
  destruct q as [|x q]; [done|]. intros _. simpl.
  pose proof (least_f_from_in_range store q 1 0 (f_score (store x))). lia.
Qed.

(** A root with two children, one of which has a child of its own. *)
Definition small_tree (i : NodeIndex) : list (float * NodeIndex) :=
  match i with
  | 0 => [(1%float, 1); (2%float, 2)]
  | 1 => [(1%float, 3)]
  | _ => []
  end.

Lemma search_without_goal_small_tree :
  ((forall store q, q <> [] -> least_f store q < length q)
   /\ (forall u v, v ∈ children small_tree u -> 3 - v < 3 - u)
   /\ (forall v, reachable small_tree 0 v ->
                 isGoal shaft_hub ((fun _ => open_state) v) = false))
  /\ exists fuel0, forall fuel, fuel0 <= fuel ->
       exists r final,
         search shaft_hub log2f_table small_tree least_f fuel
           (fun _ => open_state) 0 = Done r
         /\ open_after r = []
         /\ last (popped r) = Some final
         /\ found r = Some final
         /\ isGoal shaft_hub (store_after r final) = false.
Proof.
  assert (forall store q, q <> [] -> least_f store q < length q) as H1
    by apply least_f_in_range.
  assert (forall u v, v ∈ children small_tree u -> 3 - v < 3 - u) as H2.
  { intros [|[|u]] v; unfold children; simpl.
    - intros [->|[->|[]%elem_of_nil]%elem_of_cons]%elem_of_cons; lia.
    - intros [->|[]%elem_of_nil]%elem_of_cons; lia.
    - by intros []%elem_of_nil. }
  assert (forall v, reachable small_tree 0 v ->
                    isGoal shaft_hub ((fun _ => open_state) v) = false) as H3.
  { intros v _. by vm_compute. }
  split; [done|].
  exact (search_without_goal shaft_hub log2f_table small_tree least_f
           (fun v => 3 - v) 0 (fun _ => open_state) H1 H2 H3).
Defined.

(** An expansion that never ends: every state has one successor, a new
    state. *)
Definition chain (i : NodeIndex) : list (float * NodeIndex) :=
  [(1%float, S i)].

Lemma chain_search_loop : forall fuel store i current trace,
  same_frontiers store (fun _ => open_state) ->
  search_loop shaft_hub log2f_table chain least_f fuel store [i] current trace
  = OutOfFuel.
Proof.
  induction fuel as [|fuel IH]; intros store i current trace Hsame; [done|].
  assert (isGoal shaft_hub (store i) = false) as Hgoal.
  { rewrite (isGoal_frontier _ _ open_state) by apply Hsame. by vm_compute. }
  assert (search_loop shaft_hub log2f_table chain least_f (S fuel) store [i]
            current trace
          = cur ← at_index [i] (least_f store [i]);
            if isGoal shaft_hub (store cur) then
              Done {| found := Some cur; store_after := store;
                      open_after := delete (least_f store [i]) [i];
                      popped := trace ++ [cur] |}
            else
              let '(store2, open2) :=
                foldl (fun s edge => relax shaft_hub log2f_table cur edge s)
                      (update cur (set_marked true) store,
                       delete (least_f store [i]) [i])
                      (chain cur) in
              search_loop shaft_hub log2f_table chain least_f fuel store2
                open2 (Some cur) (trace ++ [cur])) as -> by reflexivity.
  change (least_f store [i]) with 0.
  change (at_index [i] 0) with (Done i). cbn [mbind outcome_bind].
  rewrite Hgoal.
  destruct (relax_all shaft_hub log2f_table i (chain i)
              (update i (set_marked true) store) (delete 0 [i]))
    as (store' & -> & Hsame').
  apply IH. intros v. rewrite Hsame'.
  by apply (same_frontiers_update i (set_marked true) store
              (fun _ => open_state)).
Qed.

(** C8 as stated, without a bound on the expansion: on every search graph
    and root without a reachable goal, whatever element the queue hands
    out, the search returns, and with the open set empty and the state
    popped last. *)
Definition search_returns_on_every_graph : Prop :=
  forall assembly_ log2f successorEdges top root store,
    (forall store q, q <> [] -> top store q < length q) ->
    (forall v, reachable successorEdges root v ->
               isGoal assembly_ (store v) = false) ->
    exists fuel r final,
      search assembly_ log2f successorEdges top fuel store root = Done r
      /\ open_after r = []
      /\ last (popped r) = Some final
      /\ found r = Some final
      /\ isGoal assembly_ (store_after r final) = false.

(** C8 as stated fails: on the chain no state is a goal, every pop pushes
    one new state, the open set never empties and the search does not
    return, for any fuel. *)
Lemma chain_search_never_returns : ~ search_returns_on_every_graph.
Proof.
  intros H.
  destruct (H shaft_hub log2f_table chain least_f 0 (fun _ => open_state)
              least_f_in_range)
    as (fuel & r & final & Hrun & _).
  { intros v _. by vm_compute. }
  unfold search in Hrun. rewrite chain_search_loop in Hrun; [done|].
  by apply (same_frontiers_update 0 (score shaft_hub log2f_table)
              (fun _ => open_state) (fun _ => open_state)).
Qed.

End AStarFacts.

(** ** graph.hpp: insertNode, insertEdge, eraseNode *)

Module GraphFacts.
Import Graph.

Section GraphFacts.
Context {nodeData edgeData : Type}.
Local Abbreviation Graph := (Graph.Graph nodeData edgeData).
Local Abbreviation Node := (Graph.Node nodeData).
Local Abbreviation Edge := (Graph.Edge edgeData).

(** C10: insertNode with an identifier that is already bound leaves the
    node map, the number of nodes, the edges and every live node object,
    with its payload and its two adjacency lists, as they were. *)
Theorem insertNode_bound_id (g : Graph) (id p : nat) (d : nodeData) :
  nodes_ g !! id = Some p ->
  exists g',
    insertNode id d g = Done (numberOfNodes g - 1, g')
    /\ nodes_ g' = nodes_ g
    /\ numberOfNodes g' = numberOfNodes g
    /\ edges_ g' = edges_ g
    /\ edge_objects g' = edge_objects g
    /\ forall q (n : Node), node_objects g !! q = Some n ->
                            node_objects g' !! q = Some n.
Proof.
  intros Hid. unfold insertNode. simpl. rewrite Hid. simpl.
  eexists. split; [reflexivity|]. simpl. split_and!; try done.
  intros q n Hq. rewrite lookup_insert_ne; [done|].
  intros <-. apply (is_fresh (dom (node_objects g))).
  apply elem_of_dom. by eexists.
Qed.

Lemma find_from_last (g : Graph) src dst e (edge : Edge) : forall es j,
  Forall (fun e => exists edge : Edge, edge_objects g !! e = Some edge
                     /\ ~ (source edge = src /\ destination edge = dst)) es ->
  edge_objects g !! e = Some edge ->
  source edge = src -> destination edge = dst ->
  find_from g src dst j (es ++ [e]) = Done (true, Some (j + length es)).
Proof.
  induction es as [|e' es IH]; intros j Hall He Hs Hd.
  - simpl. unfold edge_at. rewrite He. simpl.
    rewrite decide_True by done. by rewrite Nat.add_0_r.
  - apply Forall_cons in Hall as [(edge' & He' & Hno) Hall].
    simpl. unfold edge_at. rewrite He'. simpl.
    rewrite decide_False by done.
    rewrite (IH (S j)) by done. do 3 f_equal. lia.
Qed.

(** C7, what the code does: insertEdge returns the number of edges after
    the insertion.  The new edge is stored one position before that, which
    is also where findEdge finds it; at the returned position there is no
    edge. *)
Theorem insertEdge_returns_count (g : Graph) (d : edgeData)
    (srcNodeId destNodeId src dest : nat) :
  nodes_ g !! srcNodeId = Some src ->
  nodes_ g !! destNodeId = Some dest ->
  is_Some (node_objects g !! src) ->
  is_Some (node_objects g !! dest) ->
  exists g' e,
    insertEdge d srcNodeId destNodeId g = Done (S (numberOfEdges g), g')
    /\ edges_ g' = edges_ g ++ [e]
    /\ edge_objects g' !! e
       = Some {| edge_data := d; source := src; destination := dest |}
    /\ edges_ g' !! numberOfEdges g = Some e
    /\ edges_ g' !! S (numberOfEdges g) = None
    /\ (Forall (fun e' => exists edge : Edge,
                  edge_objects g !! e' = Some edge
                  /\ ~ (source edge = src /\ destination edge = dest))
               (edges_ g) ->
        findEdge srcNodeId destNodeId g'
          = Done (true, Some (numberOfEdges g))).
Proof.
  intros Hsrc Hdest [ns Hns] [nd Hnd].
  unfold insertEdge. rewrite Hsrc, Hdest.
  set (e := fresh (dom (edge_objects g))).
  unfold on_node, node_at, addSuccessor, addPredecessor. simpl.
  rewrite Hns. simpl.
  assert (exists nd', <[src := {| id_ := id_ ns; data := data ns;
                                  parents := parents ns;
                                  children := children ns ++ [e] |}]>
                        (node_objects g) !! dest = Some nd') as [nd' Hnd'].
  { destruct (decide (src = dest)) as [->|Hne].
    - rewrite lookup_insert_eq. by eexists.
    - rewrite lookup_insert_ne by done. by eexists. }
  rewrite Hnd'. simpl. eexists _, e. unfold numberOfEdges.
  rewrite length_app. simpl. rewrite Nat.add_1_r.
  split; [reflexivity|]. simpl. split_and!.
  - done.
  - apply lookup_insert_eq.
  - rewrite lookup_app_r by lia. by rewrite Nat.sub_diag.
  - apply lookup_ge_None_2. rewrite length_app. simpl. lia.
  - intros Hall. unfold findEdge. simpl. rewrite Hsrc, Hdest.
    rewrite (find_from_last _ src dest e
               {| edge_data := d; source := src; destination := dest |});
      try done.
    + eapply Forall_impl; [exact Hall|]. intros e' (edge & He' & Hno).
      exists edge. split; [|done]. simpl.
      rewrite lookup_insert_ne; [done|].
      intros <-. apply (is_fresh (dom (edge_objects g))).
      apply elem_of_dom. by eexists.
    + simpl. apply lookup_insert_eq.
Qed.
End GraphFacts.

(** Two nodes and no edge, built by two calls of insertNode; payloads are
    strings. *)
Definition two_nodes : list (operation string string) :=
  [InsertNode 0 "base"; InsertNode 1 "cover"].

Definition two_nodes_graph : Graph.Graph string string :=
  {| nodes_ := <[0 := 0]> (<[1 := 1]> ∅);
     edges_ := [];
     node_objects :=
       <[0 := {| id_ := 0; data := "base"; parents := []; children := [] |}]>
         (<[1 := {| id_ := 1; data := "cover"; parents := [];
                    children := [] |}]> ∅);
     edge_objects := ∅ |}.

Lemma run_two_nodes : run two_nodes Graph.empty = Done two_nodes_graph.
Proof. by vm_compute. Qed.

(** One node with an edge to itself. *)
Definition self_loop : list (operation string string) :=
  [InsertNode 0 "base"; InsertEdge "loop" 0 0].

Definition self_loop_graph : Graph.Graph string string :=
  {| nodes_ := <[0 := 0]> ∅;
     edges_ := [0];
     node_objects :=
       <[0 := {| id_ := 0; data := "base"; parents := [0];
                 children := [0] |}]> ∅;
     edge_objects :=
       <[0 := {| edge_data := "loop"; source := 0; destination := 0 |}]> ∅ |}.

Lemma insertNode_bound_id_two_nodes :
  nodes_ two_nodes_graph !! 1 = Some 1
  /\ exists g',
       insertNode 1 "lid" two_nodes_graph
         = Done (numberOfNodes two_nodes_graph - 1, g')
       /\ nodes_ g' = nodes_ two_nodes_graph
       /\ numberOfNodes g' = numberOfNodes two_nodes_graph
       /\ edges_ g' = edges_ two_nodes_graph
       /\ edge_objects g' = edge_objects two_nodes_graph
       /\ forall q n, node_objects two_nodes_graph !! q = Some n ->
                      node_objects g' !! q = Some n.
Proof.
  assert (nodes_ two_nodes_graph !! 1 = Some 1) as H by (by vm_compute).
  split; [exact H|].
  exact (insertNode_bound_id two_nodes_graph 1 1 "lid" H).
Defined.

Lemma insertEdge_returns_count_two_nodes :
  (nodes_ two_nodes_graph !! 0 = Some 0
   /\ nodes_ two_nodes_graph !! 1 = Some 1
   /\ is_Some (node_objects two_nodes_graph !! 0)
   /\ is_Some (node_objects two_nodes_graph !! 1))
  /\ exists g' e,
       insertEdge "screw" 0 1 two_nodes_graph
         = Done (S (numberOfEdges two_nodes_graph), g')
       /\ edges_ g' = edges_ two_nodes_graph ++ [e]
       /\ edge_objects g' !! e
          = Some {| edge_data := "screw"; source := 0; destination := 1 |}
       /\ edges_ g' !! numberOfEdges two_nodes_graph = Some e
       /\ edges_ g' !! S (numberOfEdges two_nodes_graph) = None
       /\ (Forall (fun e' => exists edge : Graph.Edge string,
                     edge_objects two_nodes_graph !! e' = Some edge
                     /\ ~ (source edge = 0 /\ destination edge = 1))
                  (edges_ two_nodes_graph) ->
           findEdge 0 1 g' = Done (true, Some (numberOfEdges two_nodes_graph))).
Proof.
  assert (nodes_ two_nodes_graph !! 0 = Some 0) as H0 by (by vm_compute).
  assert (nodes_ two_nodes_graph !! 1 = Some 1) as H1 by (by vm_compute).
  assert (is_Some (node_objects two_nodes_graph !! 0)) as H2
    by (eexists; by vm_compute).
  assert (is_Some (node_objects two_nodes_graph !! 1)) as H3
    by (eexists; by vm_compute).
  split; [done|].
  exact (insertEdge_returns_count two_nodes_graph "screw" 0 1 0 1 H0 H1 H2 H3).
Defined.

(** C6: a node may carry an edge to itself, and the graph is sound with it;
    eraseNode then meets that edge twice, once among the predecessors, where
    it deletes it, and once more among the successors, where it reads the
    deleted edge. *)
Theorem eraseNode_self_loop :
  run self_loop Graph.empty = Done self_loop_graph
  /\ integrity self_loop_graph
  /\ eraseNode 0 self_loop_graph = UseAfterFree.
Proof.
  split; [by vm_compute|]. split; [|by vm_compute].
  intros e He. apply list_elem_of_singleton in He as ->.
  exists {| edge_data := "loop"%string; source := 0; destination := 0 |}.
  split; [by vm_compute|].
  assert (is_node self_loop_graph 0) as H; [|by split].
  exists {| id_ := 0; data := "base"%string; parents := [0]; children := [0] |}.
  split; by vm_compute.
Qed.

End GraphFacts.

(** * Further properties of the sources *)

(** ** Loops: the states visited, in order *)

Section Route.
Context {S A : Type} (emit : S -> outcome A) (step : S -> option S).

(** [route s tr s']: started in [s] the loop visits the states [tr], the last
    of which is [s']. *)
Inductive route : S -> list S -> S -> Prop :=
  | route_one s : route s [s] s
  | route_more s s' tr s'' :
      step s = Some s' -> route s' tr s'' -> route s (s :: tr) s''.

Lemma route_app s tr s' s1 tr1 s2 :
  route s tr s' -> step s' = Some s1 -> route s1 tr1 s2 ->
  route s (tr ++ tr1) s2.
Proof.
  induction 1 as [s|s t tr u Hst _ IH]; intros Hs' Hm; simpl.
  - by eapply route_more.
  - eapply route_more; [done|]. by apply IH.
Qed.

Lemma route_visits s tr s' : route s tr s' -> visits step s (length tr) s'.
Proof.
  induction 1 as [s|s t tr u Hst _ IH]; simpl; [constructor|].
  by eapply visits_more.
Qed.

Lemma collect_app (f : S -> outcome A) l1 l2 o1 o2 :
  collect f l1 = Done o1 -> collect f l2 = Done o2 ->
  collect f (l1 ++ l2) = Done (o1 ++ o2).
Proof.
  revert o1. induction l1 as [|a l1 IH]; intros o1; simpl.
  { by intros [= <-]. }
  destruct (f a) as [b| | | | |]; try done. simpl.
  destruct (collect f l1) as [bs| | | | |]; try done. simpl.
  intros [= <-] H2. by rewrite (IH bs eq_refl H2).
Qed.

(** The loop returns what the visited states emit, in the order of the
    visit. *)
Lemma emit_loop_route s tr s' out :
  route s tr s' -> step s' = None -> collect emit tr = Done out ->
  forall fuel acc, length tr <= fuel ->
    emit_loop emit step fuel s acc = Done (acc ++ out).
Proof.
  intros Hr Hend. revert out.
  induction Hr as [s|s t tr u Hst _ IH]; intros out Hout fuel acc Hfuel;
    (destruct fuel as [|fuel]; [simpl in Hfuel; lia|]); simpl in *.
  - destruct (emit s) as [a| | | | |]; try done. simpl in *.
    injection Hout as <-. by rewrite Hend.
  - destruct (emit s) as [a| | | | |]; try done. simpl in *.
    destruct (collect emit tr) as [bs| | | | |] eqn:E; try done. simpl in *.
    injection Hout as <-. rewrite Hst.
    rewrite (IH Hend bs eq_refl fuel (acc ++ [a])) by lia.
    by rewrite <- app_assoc.
Qed.
End Route.

(** ** combinator.hpp: what is enumerated, and in which order *)

(** The Cartesian product of a list of lists, the last factor running
    fastest. *)
Fixpoint cartesian {A} (ls : list (list A)) : list (list A) :=
  match ls with
  | [] => [[]]
  | l :: ls' => a ← l; cons a <$> cartesian ls'
  end.

Section OdometerRoute.
Lemma route_odo_cons i b bounds t tr t' :
  route (odo_step bounds) t tr t' ->
  route (odo_step (b :: bounds)) (i :: t) (cons i <$> tr) (i :: t').
Proof.
  induction 1 as [|s u tr w Hst _ IH]; [constructor|].
  rewrite fmap_cons. eapply route_more; [|done].
  unfold odo_step in *. simpl. by rewrite Hst.
Qed.

(** The index vector goes through all index tuples below the bounds, the
    rightmost index advancing first. *)
Lemma odometer_route bounds :
  Forall (fun b => 1 <= b) bounds ->
  route (odo_step bounds) (replicate (length bounds) 0)
    (cartesian (seq 0 <$> bounds)) (pred <$> bounds).
Proof.
  induction 1 as [|b bounds Hb Hall IH]; [constructor|].
  destruct (odometer_visits bounds Hall) as [_ IHn].
  assert (forall j i, i + j + 1 = b ->
    route (odo_step (b :: bounds)) (i :: replicate (length bounds) 0)
      (x ← seq i (S j); cons x <$> cartesian (seq 0 <$> bounds))
      (pred b :: (pred <$> bounds))) as Hinner.
  { induction j as [|j IHj]; intros i Hi.
    - replace (pred b) with i by lia. simpl. rewrite app_nil_r.
      by apply route_odo_cons.
    - change (seq i (S (S j))) with (i :: seq (S i) (S j)). rewrite bind_cons.
      eapply route_app; [by apply route_odo_cons| |apply (IHj (S i)); lia].
      unfold odo_step in *. simpl. rewrite IHn.
      destruct (b <=? i + 1) eqn:E; [apply Nat.leb_le in E; lia|].
      f_equal. f_equal.
      clear. induction bounds as [|c bounds IH]; [done|].
      rewrite fmap_cons. cbn [zip zip_with]. rewrite fmap_cons.
      cbn [length replicate]. by rewrite IH. }
  rewrite fmap_cons. cbn [cartesian length replicate].
  replace b with (S (pred b)) at 2 by lia. apply Hinner. lia.
Qed.
End OdometerRoute.

Module CombinatorOrder.
Import Combinator CombinatorFacts.

(** The action of a successor, as generateActionCombinationSets stores it. *)
Definition named (g : Graph) (a : NodeIndex) : string * NodeIndex :=
  (getNodeName g a, a).

(** A_1 x ... x A_n: one ACTION successor for each frontier node. *)
Definition action_tuples (g : Graph) (nodes : list NodeIndex)
  : list (list (string * NodeIndex)) :=
  cartesian ((fun s => named g <$> successorNodes g s) <$> nodes).

Lemma collect_action_set_cons g s nodes i a idxs tuples :
  successorNodes g s !! i = Some a ->
  collect (action_set g nodes) idxs = Done tuples ->
  collect (action_set g (s :: nodes)) (cons i <$> idxs)
  = Done (cons (named g a) <$> tuples).
Proof.
  intros Hi. revert tuples.
  induction idxs as [|idx idxs IH]; intros tuples H.
  { simpl in H. by injection H as <-. }
  rewrite fmap_cons. cbn [collect] in *.
  destruct (action_set g nodes idx) as [t| | | | |] eqn:Et; try done.
  destruct (collect (action_set g nodes) idxs) as [ts| | | | |]; try done.
  simpl in H. injection H as <-. rewrite (IH ts eq_refl).
  assert (action_set g (s :: nodes) (i :: idx) = Done (named g a :: t)) as ->.
  { unfold action_set in *. simpl. rewrite (at_index_Some _ _ _ Hi). simpl.
    by rewrite Et. }
  done.
Qed.

Lemma collect_action_set g : forall nodes,
  collect (action_set g nodes) (cartesian (seq 0 <$> branching g nodes))
  = Done (action_tuples g nodes).
Proof.
  unfold action_tuples, branching.
  induction nodes as [|s nodes IH]; [done|].
  rewrite !fmap_cons. cbn [cartesian].
  change (numberOfSuccessors g s) with (length (successorNodes g s)).
  assert (forall succs i0, drop i0 (successorNodes g s) = succs ->
    collect (action_set g (s :: nodes))
      (i ← seq i0 (length succs);
       cons i <$> cartesian (seq 0 <$> (numberOfSuccessors g <$> nodes)))
    = Done (a ← named g <$> succs;
            cons a <$> cartesian ((fun s => named g <$> successorNodes g s)
                                    <$> nodes))) as Hfrom.
  { induction succs as [|a succs IHs]; intros i0 Hdrop; [done|].
    cbn [length seq]. rewrite fmap_cons, !bind_cons.
    assert (successorNodes g s !! i0 = Some a) as Hi0.
    { assert (drop i0 (successorNodes g s) !! 0 = Some a) as H0
        by (by rewrite Hdrop).
      by rewrite lookup_drop, Nat.add_0_r in H0. }
    eapply (collect_app (action_set g (s :: nodes))).
    - by apply collect_action_set_cons.
    - apply IHs. replace (S i0) with (i0 + 1) by lia.
      by rewrite <- drop_drop, Hdrop. }
  apply (Hfrom (successorNodes g s) 0). apply drop_0.
Qed.

(** when every frontier node has an ACTION successor, a call with enough
    fuel leaves in temp_action_combinations_ the Cartesian product
    A_1 x ... x A_n of the successor lists, each action with its name, in
    odometer order (the last frontier node's action changes first). *)
Lemma action_combinations_exact g nodes c fuel :
  Forall (fun s => 1 <= numberOfSuccessors g s) nodes ->
  product (branching g nodes) <= fuel ->
  exists c',
    generateActionCombinationSets fuel g nodes c = Done c'
    /\ temp_action_combinations_ c' = action_tuples g nodes
    /\ agent_action_assignements_ c' = agent_action_assignements_ c
    /\ temp_agent_combinations_ c' = temp_agent_combinations_ c.
Proof.
  intros Hpos Hfuel.
  assert (Forall (fun b => 1 <= b) (branching g nodes)) as Hb.
  { unfold branching. by apply Forall_fmap. }
  pose proof (odometer_route _ Hb) as Hr.
  destruct (odometer_visits _ Hb) as [Hv Hend].
  unfold generateActionCombinationSets.
  rewrite (emit_loop_route (action_set g nodes) (indices_step g nodes)
             (replicate (length nodes) 0)
             (cartesian (seq 0 <$> branching g nodes))
             (pred <$> branching g nodes) (action_tuples g nodes)).
  - eexists. split; [reflexivity|]. by simpl.
  - unfold branching in Hr. by rewrite length_fmap in Hr.
  - done.
  - apply collect_action_set.
  - pose proof (route_visits _ _ _ _ Hr) as Hv'.
    pose proof (odometer_visits _ Hb) as [Hv'' _].
    assert (length (cartesian (seq 0 <$> branching g nodes))
            = product (branching g nodes)) as ->; [|done].
    clear. induction (branching g nodes) as [|b bs IH]; [done|].
    rewrite fmap_cons. cbn [cartesian product foldr].
    fold (product bs). rewrite <- IH.
    generalize (cartesian (seq 0 <$> bs)). intros C.
    generalize 0. induction b as [|b IHb]; intros i0; [done|].
    cbn [seq]. rewrite bind_cons, length_app, length_fmap, IHb. simpl. lia.
Qed.

(** *** The agent subsets *)

(** The vectors of [n] flags of which [a] are set, the greatest first. *)
Fixpoint masks (n a : nat) : list (list bool) :=
  match n with
  | 0 => match a with 0 => [[]] | S _ => [] end
  | S n' =>
      match a with 0 => [] | S a' => cons true <$> masks n' a' end
      ++ (cons false <$> masks n' a)
  end.

(** The sub-lists of [k] elements, by position in lexicographic order. *)
Fixpoint combinations {A} (k : nat) (l : list A) : list (list A) :=
  match l with
  | [] => match k with 0 => [[]] | S _ => [] end
  | x :: l' =>
      match k with 0 => [] | S k' => cons x <$> combinations k' l' end
      ++ combinations k l'
  end.

Lemma masks_zero n : masks n 0 = [replicate n false].
Proof. induction n as [|n IH]; [done|]. simpl. by rewrite IH. Qed.

Lemma masks_above : forall n a, n < a -> masks n a = [].
Proof.
  induction n as [|n IH]; intros [|a] Ha; simpl; try done; try lia.
  by rewrite !IH by lia.
Qed.

Lemma masks_full n : masks n n = [replicate n true].
Proof.
  induction n as [|n IH]; [done|]. simpl.
  by rewrite IH, masks_above by lia.
Qed.

Lemma route_advance_cons {A} (lt : A -> A -> bool) x t tr t' :
  route (advance lt) t tr t' ->
  route (advance lt) (x :: t) (cons x <$> tr) (x :: t').
Proof.
  induction 1 as [|s u tr w Hst _ IH]; [constructor|].
  rewrite fmap_cons. eapply route_more; [|done]. by apply advance_cons_Some.
Qed.

Lemma chooser_route n : forall a b, a + b = n ->
  route (advance bool_gt) (replicate a true ++ replicate b false)
    (masks (a + b) a) (replicate b false ++ replicate a true).
Proof.
  induction n as [n IH] using lt_wf_ind. intros a b Hn.
  destruct a as [|a].
  { simpl. rewrite app_nil_r, masks_zero. constructor. }
  destruct b as [|b].
  { rewrite Nat.add_0_r, masks_full. cbn [replicate app].
    rewrite app_nil_r. constructor. }
  change (masks (S a + S b) (S a))
    with ((cons true <$> masks (a + S b) a)
          ++ (cons false <$> masks (a + S b) (S a))).
  eapply route_app.
  - apply (route_advance_cons bool_gt true).
    apply (IH (a + S b)); [lia|done].
  - cbn [replicate app]. rewrite <- replicate_shift.
    rewrite advance_cons_pivot; [reflexivity|..].
    + rewrite replicate_shift.
      apply (advance_descending _ _ (chooser_last_noasc a (S b))).
    + done.
    + apply Forall_forall. by intros y ->%elem_of_replicate_inv.
    + intros z. destruct b; simpl; by intros [= <-].
  - rewrite rev_chooser_swapped.
    replace (a + S b) with (S a + b) by lia.
    apply (route_advance_cons bool_gt false).
    apply (IH (S a + b)); [lia|done].
Qed.

Lemma selected_cons_true a agents v :
  selected (a :: agents) (true :: v) = a :: selected agents v.
Proof. done. Qed.

Lemma selected_cons_false a agents v :
  selected (a :: agents) (false :: v) = selected agents v.
Proof. done. Qed.

Lemma selected_masks : forall agents k,
  selected agents <$> masks (length agents) k = combinations k agents.
Proof.
  induction agents as [|x agents IH]; intros k.
  { by destruct k. }
  cbn [length masks combinations]. rewrite fmap_app, <- !list_fmap_compose.
  f_equal.
  - destruct k as [|k]; [done|]. rewrite <- IH, <- !list_fmap_compose.
    by apply list_fmap_ext.
  - rewrite <- IH. by apply list_fmap_ext.
Qed.

(** What [combinations] lists: the sub-lists of the given length. *)
Lemma elem_of_combinations {A} (c : list A) : forall l k,
  c ∈ combinations k l <-> c `sublist_of` l /\ length c = k.
Proof.
  intros l. revert c. induction l as [|x l IH]; intros c k.
  - destruct k as [|k]; simpl.
    + rewrite list_elem_of_singleton. split.
      * by intros ->.
      * intros [Hs _]. by apply sublist_nil_r in Hs.
    + split; [by intros ?%elem_of_nil|].
      intros [Hs Hl]. apply sublist_nil_r in Hs as ->. done.
  - simpl. rewrite elem_of_app, IH. split.
    + intros [Hc|[Hs Hl]].
      * destruct k as [|k]; [by apply elem_of_nil in Hc|].
        apply list_elem_of_fmap in Hc as (c' & -> & Hc').
        apply IH in Hc' as [Hs Hl]. split; [by constructor|by simpl; rewrite Hl].
      * split; [by constructor|done].
    + intros [Hs Hl]. apply sublist_cons_r in Hs as [Hs|(c' & -> & Hs)].
      * right. done.
      * left. simpl in Hl. destruct k as [|k]; [done|].
        apply list_elem_of_fmap. exists c'. split; [done|].
        apply IH. split; [done|lia].
Qed.

(** for k not above the roster size, a call with enough fuel leaves in
    temp_agent_combinations_ the k-element sub-lists of the roster, each in
    roster order, in lexicographic order of the positions chosen; so a list
    of agents is among them exactly when it is a sub-list of the roster of
    length k. *)
Lemma agent_combinations_exact agents k c fuel :
  k <= length agents ->
  binomial (length agents) k <= fuel ->
  exists c',
    generateAgentCombinationSets fuel agents k c = Done c'
    /\ temp_agent_combinations_ c' = combinations k agents
    /\ (forall S, S ∈ temp_agent_combinations_ c'
                  <-> S `sublist_of` agents /\ length S = k)
    /\ agent_action_assignements_ c' = agent_action_assignements_ c
    /\ temp_action_combinations_ c' = temp_action_combinations_ c.
Proof.
  intros Hk Hfuel. set (n := length agents) in *.
  pose proof (chooser_route _ k (n - k) eq_refl) as Hr.
  replace (k + (n - k)) with n in Hr by lia.
  unfold generateAgentCombinationSets. fold n.
  destruct (n <? k) eqn:E; [apply Nat.ltb_lt in E; lia|].
  rewrite (emit_loop_route (fun v => Done (selected agents v))
             (advance bool_gt) _ _ _ (combinations k agents) Hr).
  - eexists. split; [reflexivity|]. simpl. split_and!; try done.
    intros S. apply elem_of_combinations.
  - apply chooser_done.
  - rewrite <- selected_masks. fold n. generalize (masks n k).
    intros ms. induction ms as [|m ms IH]; [done|].
    simpl. by rewrite IH.
  - assert (length (masks n k) = binomial n k) as ->; [|done].
    clear. revert k. induction n as [|n IH]; intros [|k]; simpl; try done.
    + rewrite length_fmap, IH. by destruct n.
    + by rewrite length_app, !length_fmap, !IH.
Qed.

(** *** The positions the agents are sent to *)

(** Every element of [l] with the elements that are left, [a] being what
    was passed over already. *)
Fixpoint picks_from {A} (a l : list A) : list (A * list A) :=
  match l with
  | [] => []
  | x :: b => (x, a ++ b) :: picks_from (a ++ [x]) b
  end.

(** The ways to fill [k] ordered places from [s], each element used at most
    once, in lexicographic order of the positions. *)
Fixpoint arrangements {A} (k : nat) (s : list A) : list (list A) :=
  match k with
  | 0 => [[]]
  | S k' => xr ← picks_from [] s; cons xr.1 <$> arrangements k' xr.2
  end.

(** The selector vectors the loop of assignAgentsToActions goes through. *)
Fixpoint selector_states (k : nat) (s : list nat) : list (list nat) :=
  match k with
  | 0 => [s]
  | S k' => xr ← picks_from [] s; cons xr.1 <$> selector_states k' xr.2
  end.

(** Agent [i] with the action at position [p_i]. *)
Definition assign (agents : list string) (actions : list (string * NodeIndex))
    (p : list nat) : list AgentActionAssignment :=
  zip_with (fun a i => {| agent := a; action := (actions !!! i).1;
                          action_node_id := (actions !!! i).2 |}) agents p.

Lemma route_perm_step_cons {A} (lt : A -> A -> bool) k x t tr t' :
  route (perm_step lt k) t tr t' ->
  route (perm_step lt (S k)) (x :: t) (cons x <$> tr) (x :: t').
Proof.
  induction 1 as [|s u tr w Hst _ IH]; [constructor|].
  rewrite fmap_cons. eapply route_more; [|done].
  unfold perm_step in *. rewrite reverse_from_cons. by apply advance_cons_Some.
Qed.

Lemma selector_route k : forall s : list nat,
  StronglySorted Nat.lt s -> k <= length s ->
  exists s_f, route (perm_step Nat.ltb k) s (selector_states k s) s_f
              /\ reverse_from k s_f = rev s.
Proof.
  induction k as [|k IHk]; intros s Hs Hk.
  { exists s. split; [constructor|apply reverse_from_0]. }
  assert (forall b a x, StronglySorted Nat.lt (a ++ x :: b) ->
    k <= length (a ++ b) ->
    exists s_f, route (perm_step Nat.ltb (S k)) (x :: a ++ b)
                  (xr ← picks_from a (x :: b);
                   cons xr.1 <$> selector_states k xr.2) s_f
                /\ reverse_from (S k) s_f = rev (a ++ x :: b)) as Hinner.
  { clear s Hs Hk. induction b as [|y b IHb]; intros a x Hs Hk.
    - destruct (IHk (a ++ []) (asc_middle_out _ _ _ Hs) Hk) as (t_f & Hr & E).
      exists (x :: t_f). split.
      + cbn [picks_from]. rewrite bind_cons. simpl. rewrite !app_nil_r in *.
        by apply route_perm_step_cons.
      + rewrite reverse_from_cons, E, !rev_app_distr. done.
    - destruct (IHk (a ++ y :: b) (asc_middle_out _ _ _ Hs) Hk) as (t_f & Hr & E).
      destruct (IHb (a ++ [x]) y) as (s_f & Hr' & E').
      { by rewrite <- app_assoc. }
      { rewrite !length_app in *. simpl in *. lia. }
      exists s_f. split.
      + change (picks_from a (x :: y :: b))
          with ((x, a ++ y :: b) :: picks_from (a ++ [x]) (y :: b)).
        rewrite bind_cons.
        eapply route_app; [by apply route_perm_step_cons| |done].
        by apply selector_head_moves.
      + rewrite E'. by rewrite <- app_assoc. }
  destruct s as [|x b]; [simpl in Hk; lia|].
  destruct (Hinner b [] x Hs) as (s_f & Hr & E); [simpl in *; lia|].
  by exists s_f.
Qed.

Lemma elem_of_picks_from {A} (x : A) r : forall l a,
  (x, r) ∈ picks_from a l <->
  exists l1 l2, l = l1 ++ x :: l2 /\ r = a ++ l1 ++ l2.
Proof.
  induction l as [|y l IH]; intros a; simpl.
  { split; [by intros ?%elem_of_nil|]. intros (l1 & l2 & E & _).
    by destruct l1. }
  rewrite elem_of_cons, IH. split.
  - intros [[= -> ->]|(l1 & l2 & -> & ->)].
    + by exists [], l.
    + exists (y :: l1), l2. split; [done|]. by rewrite <- app_assoc.
  - intros (l1 & l2 & E & ->). destruct l1 as [|z l1]; simplify_eq/=.
    + by left.
    + right. exists l1, l2. split; [done|]. by rewrite <- app_assoc.
Qed.

Lemma picks_from_perm {A} (x : A) r l a :
  (x, r) ∈ picks_from a l -> x :: r ≡ₚ a ++ l.
Proof.
  intros (l1 & l2 & -> & ->)%elem_of_picks_from.
  rewrite !app_assoc. apply Permutation_middle.
Qed.

Lemma selector_states_perm k : forall s d,
  d ∈ selector_states k s -> d ≡ₚ s.
Proof.
  induction k as [|k IH]; intros s d; simpl.
  { by intros ->%list_elem_of_singleton. }
  intros ([x r] & Hd & Hxr)%list_elem_of_bind.
  apply list_elem_of_fmap in Hd as (d' & -> & Hd'). simpl in *.
  rewrite (IH _ _ Hd'). by apply (picks_from_perm x r s []).
Qed.

Lemma take_selector_states k : forall s,
  take k <$> selector_states k s = arrangements k s.
Proof.
  induction k as [|k IH]; intros s; [done|]. simpl.
  generalize (picks_from [] s). intros ps.
  induction ps as [|[x r] ps IHps]; [done|].
  rewrite !bind_cons, fmap_app, IHps. f_equal. simpl.
  rewrite <- IH, <- !list_fmap_compose. by apply list_fmap_ext.
Qed.

(** What [arrangements] lists when the elements are distinct: the lists of
    [k] distinct elements. *)
Lemma elem_of_arrangements {A} k : forall (s p : list A),
  NoDup s ->
  p ∈ arrangements k s <-> length p = k /\ NoDup p /\ p ⊆ s.
Proof.
  induction k as [|k IH]; intros s p Hs; simpl.
  { rewrite list_elem_of_singleton. split.
    - intros ->. split_and!; [done|constructor|set_solver].
    - intros [Hl _]. by destruct p. }
  rewrite list_elem_of_bind. split.
  - intros ([x r] & Hp & Hxr).
    apply list_elem_of_fmap in Hp as (p' & -> & Hp'). simpl in *.
    pose proof (picks_from_perm _ _ _ _ Hxr) as Hperm. simpl in Hperm.
    assert (NoDup (x :: r)) as [Hx Hr]%NoDup_cons by (by rewrite Hperm).
    apply (IH r p' Hr) in Hp' as (Hl & Hnd & Hsub).
    split_and!; [by rewrite Hl| |].
    + constructor; [|done]. intros Hin. by apply Hx, Hsub.
    + intros y [->|Hy]%elem_of_cons.
      * rewrite <- Hperm. left.
      * rewrite <- Hperm. right. by apply Hsub.
  - intros (Hl & Hnd & Hsub). destruct p as [|x p']; [done|].
    apply NoDup_cons in Hnd as [Hx Hnd].
    assert (x ∈ s) as (l1 & l2 & ->)%list_elem_of_split by (apply Hsub; left).
    exists (x, l1 ++ l2). split.
    + apply list_elem_of_fmap. exists p'. split; [done|]. simpl.
      apply IH.
      * apply NoDup_app in Hs as (H1 & H2 & H3%NoDup_cons).
        apply NoDup_app. split_and!; [done| |tauto].
        intros y Hy1 Hy2. apply (H2 y Hy1). by right.
      * split_and!; [by simpl in Hl; lia|done|].
        intros y Hy. assert (y ∈ l1 ++ x :: l2) as Hin by (apply Hsub; by right).
        apply elem_of_app in Hin as [?|[->|?]%elem_of_cons];
          [apply elem_of_app; by left|done|apply elem_of_app; by right].
    + apply elem_of_picks_from. by exists l1, l2.
Qed.

Lemma visits_end_unique {S} (step : S -> option S) s n s1 :
  visits step s n s1 -> step s1 = None ->
  forall m s2, visits step s m s2 -> step s2 = None -> n = m.
Proof.
  induction 1 as [s|s t n u Hst _ IH]; intros Hend m s2 Hv2 Hend2.
  - destruct Hv2 as [|s t' m u' Hst' _]; [done|congruence].
  - destruct Hv2 as [|s t' m u' Hst' Hv2]; [congruence|].
    f_equal. rewrite Hst in Hst'. injection Hst' as <-. by eapply IH.
Qed.

Lemma collect_pure {A B} (f : A -> outcome B) (h : A -> B) (l : list A) :
  Forall (fun a => f a = Done (h a)) l -> collect f l = Done (h <$> l).
Proof.
  induction 1 as [|a l Ha _ IH]; [done|]. simpl. rewrite Ha. simpl.
  by rewrite IH.
Qed.

Lemma collect_assignment_at (actions : list (string * NodeIndex)) d :
  Forall (fun i => i < length actions) d ->
  forall agents off, off + length agents <= length d ->
    collect (fun '(i, a) =>
               di ← at_index d i;
               act ← at_index actions di;
               Done {| agent := a; action := act.1; action_node_id := act.2 |})
            (imap (fun i a => (off + i, a)) agents)
    = Done (assign agents actions (take (length agents) (drop off d))).
Proof.
  intros Hd. induction agents as [|a agents IH]; intros off Hoff; [done|].
  cbn [length] in *. rewrite imap_cons. cbn [collect].
  destruct (lookup_lt_is_Some_2 d off) as [di Hdi]; [lia|].
  rewrite Nat.add_0_r, (at_index_Some _ _ _ Hdi). cbn [mbind outcome_bind].
  assert (di < length actions) as Hlt.
  { rewrite Forall_forall in Hd. apply Hd. by eapply list_elem_of_lookup_2. }
  rewrite (at_index_Some _ _ (actions !!! di)).
  2:{ by apply list_lookup_lookup_total_lt. }
  cbn [mbind outcome_bind].
  rewrite (imap_ext _ (fun i a => (S off + i, a))).
  2:{ intros i x _. simpl. f_equal. lia. }
  rewrite (IH (S off)) by lia. cbn [mbind outcome_bind].
  rewrite (drop_S _ _ _ Hdi). done.
Qed.

Lemma assignment_of_assign agents actions d :
  length agents <= length d -> Forall (fun i => i < length actions) d ->
  assignment_of agents actions d
  = Done (assign agents actions (take (length agents) d)).
Proof.
  intros Hk Hd. unfold assignment_of.
  pose proof (collect_assignment_at actions d Hd agents 0 ltac:(lia)) as H.
  rewrite drop_0 in H. by rewrite <- H.
Qed.

(** for no more agents than actions, a call with enough fuel appends to
    agent_action_assignements_ one assignment for every way to send the
    agents, in their order, to distinct positions of the action tuple, in
    lexicographic order of the positions. *)
Lemma appended_assignments_exact cur_agents cur_actions c fuel :
  length cur_agents <= length cur_actions ->
  falling (length cur_actions) (length cur_agents) <= fuel ->
  exists c',
    assignAgentsToActions fuel cur_agents cur_actions c = Done c'
    /\ agent_action_assignements_ c'
       = agent_action_assignements_ c
         ++ (assign cur_agents cur_actions
               <$> arrangements (length cur_agents)
                     (seq 0 (length cur_actions)))
    /\ (forall p, p ∈ arrangements (length cur_agents)
                        (seq 0 (length cur_actions))
                  <-> length p = length cur_agents /\ NoDup p
                      /\ Forall (fun i => i < length cur_actions) p)
    /\ temp_action_combinations_ c' = temp_action_combinations_ c
    /\ temp_agent_combinations_ c' = temp_agent_combinations_ c.
Proof.
  intros Hk Hfuel.
  set (n := length cur_actions) in *. set (k := length cur_agents) in *.
  destruct (selector_route k (seq 0 n) (asc_seq 0 n)) as (s_f & Hr & Hrev).
  { by rewrite length_seq. }
  pose proof (selector_done k s_f (seq 0 n) (asc_seq 0 n) Hrev) as Hend.
  unfold assignAgentsToActions. fold n k.
  rewrite (emit_loop_route (assignment_of cur_agents cur_actions)
             (selector_step k) (seq 0 n) (selector_states k (seq 0 n)) s_f
             (assign cur_agents cur_actions <$> arrangements k (seq 0 n))).
  - eexists. split; [reflexivity|]. simpl. split_and!; try done.
    intros p. rewrite (elem_of_arrangements k (seq 0 n) p (NoDup_seq 0 n)).
    assert (p ⊆ seq 0 n <-> Forall (fun i => i < n) p) as ->; [|done].
    rewrite Forall_forall. split.
    + intros Hsub i Hi. apply Hsub, elem_of_seq in Hi. lia.
    + intros Hall i Hi. apply elem_of_seq. specialize (Hall i Hi). lia.
  - exact Hr.
  - exact Hend.
  - rewrite <- take_selector_states, <- list_fmap_compose.
    apply collect_pure, Forall_forall. intros d Hd%selector_states_perm.
    simpl. fold k. apply assignment_of_assign.
    + rewrite Hd, length_seq. done.
    + apply Forall_forall. intros i Hi. rewrite Hd in Hi.
      apply elem_of_seq in Hi. fold n. lia.
  - destruct (selector_visits k (seq 0 n) (asc_seq 0 n)) as (s_f' & Hv & Hrev').
    { by rewrite length_seq. }
    rewrite length_seq in Hv.
    rewrite <- (visits_end_unique _ _ _ _ Hv
                  (selector_done k s_f' (seq 0 n) (asc_seq 0 n) Hrev')
                  _ _ (route_visits _ _ _ _ Hr) Hend). done.
Qed.

(** *** The list returned *)

Lemma for_each_appends {A S X} (body : A -> S -> outcome S) (I : S -> Prop)
    (out : S -> list X) (f : A -> list X) (l : list A) :
  (forall a s, a ∈ l -> I s ->
     exists s', body a s = Done s' /\ I s' /\ out s' = out s ++ f a) ->
  forall s, I s ->
    exists s', for_each body l s = Done s' /\ I s'
               /\ out s' = out s ++ (l ≫= f).
Proof.
  induction l as [|a l IH]; intros Hbody s Hs.
  { exists s. simpl. by rewrite app_nil_r. }
  destruct (Hbody a s) as (s1 & E1 & I1 & O1); [left|done|].
  destruct IH with (s := s1) as (s2 & E2 & I2 & O2); [|done|].
  { intros b t Hb. apply Hbody. by right. }
  exists s2. cbn [for_each]. rewrite E1. cbn [mbind outcome_bind].
  split_and!; [done..|].
  by rewrite O2, O1, bind_cons, app_assoc.
Qed.

Lemma cartesian_length {A} (ls : list (list A)) t :
  t ∈ cartesian ls -> length t = length ls.
Proof.
  revert t. induction ls as [|l ls IH]; intros t; simpl.
  { by intros ->%list_elem_of_singleton. }
  intros (a & Ht & Ha)%list_elem_of_bind.
  apply list_elem_of_fmap in Ht as (t' & -> & Ht'). simpl. by rewrite (IH t').
Qed.

Lemma action_tuples_length g nodes T :
  T ∈ action_tuples g nodes -> length T = length nodes.
Proof.
  intros H%cartesian_length. by rewrite length_fmap in H.
Qed.

(** Every assignment of the agents [S] to the tuple [T], for every tuple and
    every [k]-subset, [k] from 1 to [l]. *)
Definition assignments (g : Graph) (roster : list string)
    (nodes : list NodeIndex) : list (list AgentActionAssignment) :=
  j ← seq 1 (Nat.min (length nodes) (length roster));
  S ← combinations j roster;
  T ← action_tuples g nodes;
  assign S T <$> arrangements j (seq 0 (length nodes)).

(** when every frontier node has an ACTION successor, a call with enough
    fuel returns exactly this list: for k = 1..min(n,m), for every k-element
    sub-list S of the roster, for every action tuple T of A_1 x ... x A_n,
    for every way p to send the agents of S to distinct positions of T, the
    assignment of agent S_i to action T_(p_i), in this order. *)
Lemma returned_list_exact g agents nodes c fuel :
  Forall (fun s => 1 <= numberOfSuccessors g s) nodes ->
  enough_fuel g agents nodes <= fuel ->
  exists c',
    generateAgentActionAssignments fuel g agents nodes c
    = Done (assignments g (roster agents) nodes, c').
Proof.
  intros Hpos Hfuel. unfold enough_fuel in Hfuel.
  unfold assignments. rewrite roster_length.
  set (n := length nodes) in *. set (m := size agents) in *.
  set (l := Nat.min n m) in *.
  destruct (action_combinations_exact g nodes c fuel Hpos)
    as (c0 & E0 & T0 & _); [lia|].
  unfold generateAgentActionAssignments. rewrite E0. simpl.
  fold (roster agents). fold n m l.
  set (I := fun c : Combinator =>
              temp_action_combinations_ c = action_tuples g nodes).
  destruct (for_each_appends
    (fun j c =>
       c ← generateAgentCombinationSets fuel (roster agents) j c;
       for_each (fun ags c =>
         for_each (fun actions c => assignAgentsToActions fuel ags actions c)
           (temp_action_combinations_ c) c)
         (temp_agent_combinations_ c) c)
    I agent_action_assignements_
    (fun j => S ← combinations j (roster agents);
              T ← action_tuples g nodes;
              assign S T <$> arrangements j (seq 0 n))
    (seq 1 l)) with (s := set_assignments [] c0)
    as (c2 & E2 & _ & O2); [|done|].
  2:{ rewrite E2. simpl. exists c2. by rewrite O2. }
  intros j s Hj Is. apply elem_of_seq in Hj.
  assert (binomial m j + falling n j <= fuel) as Hfj.
  { pose proof (sum_from_1_le l (fun j => binomial m j + falling n j) j) as H.
    simpl in H. lia. }
  destruct (agent_combinations_exact (roster agents) j s fuel)
    as (s1 & E1 & C1 & M1 & A1 & T1).
  { rewrite roster_length. fold m. lia. }
  { rewrite roster_length. fold m. lia. }
  rewrite E1. simpl. rewrite C1.
  destruct (for_each_appends
    (fun ags c =>
       for_each (fun actions c => assignAgentsToActions fuel ags actions c)
         (temp_action_combinations_ c) c)
    I agent_action_assignements_
    (fun S => T ← action_tuples g nodes;
              assign S T <$> arrangements j (seq 0 n))
    (combinations j (roster agents))) with (s := s1)
    as (s2 & Es2 & Is2 & Os2); [|by unfold I; rewrite T1|].
  2:{ exists s2. split_and!; [done..|]. by rewrite Os2, A1. }
  intros ags t Hags It. apply elem_of_combinations in Hags as [_ Hags].
  rewrite It.
  destruct (for_each_appends
    (fun actions c => assignAgentsToActions fuel ags actions c)
    I agent_action_assignements_
    (fun T => assign ags T <$> arrangements j (seq 0 n))
    (action_tuples g nodes)) with (s := t)
    as (t2 & Et2 & It2 & Ot2); [|done|].
  2:{ by exists t2. }
  intros actions u Hact%action_tuples_length Iu.
  destruct (appended_assignments_exact ags actions u fuel)
    as (u' & Eu & Ou & _ & Tu & _).
  { rewrite Hags, Hact. fold n. lia. }
  { rewrite Hags, Hact. fold n. lia. }
  exists u'. split_and!; [done| |].
  - unfold I. by rewrite Tu.
  - by rewrite Ou, Hags, Hact.
Qed.

(** *** What a user of the combinator gets *)

(** X1: when every frontier node has an ACTION successor, a call of
    generateActionCombinationSets with enough fuel leaves in
    temp_action_combinations_ the Cartesian product A_1 x ... x A_n of the
    successor lists, each action with its name, in odometer order (the last
    frontier node's action changes first), and touches no other buffer. *)
Theorem generateActionCombinationSets_product g nodes c fuel :
  Forall (fun s => 1 <= numberOfSuccessors g s) nodes ->
  product (branching g nodes) <= fuel ->
  exists c',
    generateActionCombinationSets fuel g nodes c = Done c'
    /\ temp_action_combinations_ c' = action_tuples g nodes
    /\ agent_action_assignements_ c' = agent_action_assignements_ c
    /\ temp_agent_combinations_ c' = temp_agent_combinations_ c.
Proof. apply action_combinations_exact. Qed.

Lemma generateActionCombinationSets_product_scenario5 :
  (Forall (fun s => 1 <= numberOfSuccessors branching_graph s) [0; 1; 2]
   /\ product (branching branching_graph [0; 1; 2]) <= 8)
  /\ exists c',
       generateActionCombinationSets 8 branching_graph [0; 1; 2]
         fresh_combinator = Done c'
       /\ temp_action_combinations_ c' = action_tuples branching_graph [0; 1; 2]
       /\ agent_action_assignements_ c'
          = agent_action_assignements_ fresh_combinator
       /\ temp_agent_combinations_ c'
          = temp_agent_combinations_ fresh_combinator.
Proof.
  assert (Forall (fun s => 1 <= numberOfSuccessors branching_graph s) [0; 1; 2])
    as H1 by (repeat constructor).
  assert (product (branching branching_graph [0; 1; 2]) <= 8) as H2
    by (vm_compute; lia).
  split; [by split|].
  exact (generateActionCombinationSets_product branching_graph [0; 1; 2]
           fresh_combinator 8 H1 H2).
Defined.

(** X2: for k not above the roster size, a call of
    generateAgentCombinationSets with enough fuel leaves in
    temp_agent_combinations_ the k-element sub-lists of the roster, each in
    roster order, in lexicographic order of the positions chosen: a list of
    agents is among them exactly when it is a sub-list of the roster of
    length k. *)
Theorem generateAgentCombinationSets_sublists agents k c fuel :
  k <= length agents ->
  binomial (length agents) k <= fuel ->
  exists c',
    generateAgentCombinationSets fuel agents k c = Done c'
    /\ temp_agent_combinations_ c' = combinations k agents
    /\ (forall S, S ∈ temp_agent_combinations_ c'
                  <-> S `sublist_of` agents /\ length S = k)
    /\ agent_action_assignements_ c' = agent_action_assignements_ c
    /\ temp_action_combinations_ c' = temp_action_combinations_ c.
Proof. apply agent_combinations_exact. Qed.

Lemma generateAgentCombinationSets_sublists_three :
  (2 <= length ["A"; "B"; "C"]%string
   /\ binomial (length ["A"; "B"; "C"]%string) 2 <= 3)
  /\ exists c',
       generateAgentCombinationSets 3 ["A"; "B"; "C"]%string 2
         fresh_combinator = Done c'
       /\ temp_agent_combinations_ c'
          = combinations 2 ["A"; "B"; "C"]%string
       /\ (forall S, S ∈ temp_agent_combinations_ c'
                     <-> S `sublist_of` ["A"; "B"; "C"]%string /\ length S = 2)
       /\ agent_action_assignements_ c'
          = agent_action_assignements_ fresh_combinator
       /\ temp_action_combinations_ c'
          = temp_action_combinations_ fresh_combinator.
Proof.
  assert (2 <= length ["A"; "B"; "C"]%string) as H1 by (simpl; lia).
  assert (binomial (length ["A"; "B"; "C"]%string) 2 <= 3) as H2
    by (vm_compute; lia).
  split; [by split|].
  exact (generateAgentCombinationSets_sublists ["A"; "B"; "C"]%string 2
           fresh_combinator 3 H1 H2).
Defined.

(** X3: for no more agents than actions, a call of assignAgentsToActions with
    enough fuel appends to agent_action_assignements_ one assignment for
    every way to send the agents, in their order, to pairwise distinct
    positions of the action tuple, in lexicographic order of the positions,
    and touches no other buffer. *)
Theorem assignAgentsToActions_arrangements cur_agents cur_actions c fuel :
  length cur_agents <= length cur_actions ->
  falling (length cur_actions) (length cur_agents) <= fuel ->
  exists c',
    assignAgentsToActions fuel cur_agents cur_actions c = Done c'
    /\ agent_action_assignements_ c'
       = agent_action_assignements_ c
         ++ (assign cur_agents cur_actions
               <$> arrangements (length cur_agents)
                     (seq 0 (length cur_actions)))
    /\ (forall p, p ∈ arrangements (length cur_agents)
                        (seq 0 (length cur_actions))
                  <-> length p = length cur_agents /\ NoDup p
                      /\ Forall (fun i => i < length cur_actions) p)
    /\ temp_action_combinations_ c' = temp_action_combinations_ c
    /\ temp_agent_combinations_ c' = temp_agent_combinations_ c.
Proof. apply appended_assignments_exact. Qed.

Definition three_actions : list (string * NodeIndex) :=
  [("fit", 10); ("glue", 12); ("bolt", 14)]%string.

Lemma assignAgentsToActions_arrangements_three :
  (length ["A"; "B"]%string <= length three_actions
   /\ falling (length three_actions) (length ["A"; "B"]%string) <= 6)
  /\ exists c',
       assignAgentsToActions 6 ["A"; "B"]%string three_actions
         fresh_combinator = Done c'
       /\ agent_action_assignements_ c'
          = agent_action_assignements_ fresh_combinator
            ++ (assign ["A"; "B"]%string three_actions
                  <$> arrangements (length ["A"; "B"]%string)
                        (seq 0 (length three_actions)))
       /\ (forall p, p ∈ arrangements (length ["A"; "B"]%string)
                           (seq 0 (length three_actions))
                     <-> length p = length ["A"; "B"]%string /\ NoDup p
                         /\ Forall (fun i => i < length three_actions) p)
       /\ temp_action_combinations_ c'
          = temp_action_combinations_ fresh_combinator
       /\ temp_agent_combinations_ c'
          = temp_agent_combinations_ fresh_combinator.
Proof.
  assert (length ["A"; "B"]%string <= length three_actions) as H1
    by (simpl; lia).
  assert (falling (length three_actions) (length ["A"; "B"]%string) <= 6)
    as H2 by (vm_compute; lia).
  split; [by split|].
  exact (assignAgentsToActions_arrangements ["A"; "B"]%string three_actions
           fresh_combinator 6 H1 H2).
Defined.

(** X4: when every frontier node has an ACTION successor, a call of
    generateAgentActionAssignments with enough fuel returns exactly this
    list: for k = 1..min(n,m), for every k-element sub-list S of the roster,
    for every action tuple T of A_1 x ... x A_n, for every way p to send the
    agents of S to distinct positions of T, the assignment of agent S_i to
    action T_(p_i), in this order. *)
Theorem generateAgentActionAssignments_list g agents nodes c fuel :
  Forall (fun s => 1 <= numberOfSuccessors g s) nodes ->
  enough_fuel g agents nodes <= fuel ->
  exists c',
    generateAgentActionAssignments fuel g agents nodes c
    = Done (assignments g (roster agents) nodes, c').
Proof. apply returned_list_exact. Qed.

Lemma generateAgentActionAssignments_list_two_nodes :
  (Forall (fun s => 1 <= numberOfSuccessors branching_graph s) [0; 1]
   /\ enough_fuel branching_graph two_agents [0; 1] <= 100)
  /\ exists c',
       generateAgentActionAssignments 100 branching_graph two_agents [0; 1]
         fresh_combinator
       = Done (assignments branching_graph (roster two_agents) [0; 1], c').
Proof.
  assert (Forall (fun s => 1 <= numberOfSuccessors branching_graph s) [0; 1])
    as H1 by (repeat constructor).
  assert (enough_fuel branching_graph two_agents [0; 1] <= 100)
    as H2 by (vm_compute; lia).
  split; [by split|].
  exact (generateAgentActionAssignments_list branching_graph two_agents
           [0; 1] fresh_combinator 100 H1 H2).
Defined.

Lemma cartesian_members {A} (ls : list (list A)) t :
  t ∈ cartesian ls -> Forall2 (fun l a => a ∈ l) ls t.
Proof.
  revert t. induction ls as [|l ls IH]; intros t; simpl.
  { intros ->%list_elem_of_singleton. constructor. }
  intros (a & Ht & Ha)%list_elem_of_bind.
  apply list_elem_of_fmap in Ht as (t' & -> & Ht'). constructor; [done|].
  by apply IH.
Qed.

Lemma assign_agents S T p :
  length p = length S -> agent <$> assign S T p = S.
Proof.
  unfold assign. revert p. induction S as [|a S IH]; intros [|i p] Hl;
    simplify_eq/=; [done|]. by rewrite IH.
Qed.

(** A triple that names an ACTION successor of the frontier node at
    position [i], under the name the graph has for it. *)
Definition serves (g : Graph) (nodes : list NodeIndex)
    (t : AgentActionAssignment) (i : nat) : Prop :=
  exists s, nodes !! i = Some s
            /\ action_node_id t ∈ successorNodes g s
            /\ action t = getNodeName g (action_node_id t).

Lemma assign_serves g nodes T : forall S p,
  T ∈ action_tuples g nodes ->
  Forall (fun i => i < length nodes) p ->
  length p = length S ->
  Forall2 (serves g nodes) (assign S T p) p.
Proof.
  intros S p HT%cartesian_members Hp. revert S.
  induction Hp as [|i p Hi _ IH]; intros [|a S] Hl; simplify_eq/=;
    constructor; [|by apply IH].
  destruct (lookup_lt_is_Some_2 nodes i Hi) as [s Hs]. exists s.
  split; [done|]. simpl.
  rewrite Forall2_fmap_l in HT.
  destruct (Forall2_lookup_l _ _ _ _ _ HT Hs) as (t & Ht & Hin).
  rewrite (list_lookup_total_correct _ _ _ Ht).
  apply list_elem_of_fmap in Hin as (b & -> & Hb). done.
Qed.

Lemma returned_assignments_shape g agents nodes alpha :
  alpha ∈ assignments g (roster agents) nodes ->
  agent <$> alpha `sublist_of` roster agents
  /\ 1 <= length alpha <= Nat.min (length nodes) (size agents)
  /\ exists p, NoDup p /\ Forall2 (serves g nodes) alpha p.
Proof.
  unfold assignments. rewrite roster_length.
  intros (j & Ha & Hj%elem_of_seq)%list_elem_of_bind.
  apply list_elem_of_bind in Ha as (S & Ha & [HS HlS]%elem_of_combinations).
  apply list_elem_of_bind in Ha as (T & Ha & HT).
  apply list_elem_of_fmap in Ha as (p & -> & Hp).
  apply (elem_of_arrangements j _ _ (NoDup_seq 0 (length nodes))) in Hp
    as (Hlp & Hnd & Hsub).
  assert (Forall (fun i => i < length nodes) p) as Hlt.
  { apply Forall_forall. intros i Hi%Hsub%elem_of_seq. lia. }
  split_and!.
  - rewrite assign_agents; [done|lia].
  - unfold assign. rewrite length_zip_with. lia.
  - unfold assign. rewrite length_zip_with. lia.
  - exists p. split; [done|]. apply assign_serves; [done..|lia].
Qed.

(** X5: when every frontier node has an ACTION successor, every assignment
    that generateAgentActionAssignments returns names between 1 and min(n,m)
    agents, the agents being a sub-list of the roster (so each agent at most
    once when the roster has no duplicate), and sends them to pairwise
    different frontier positions, each triple naming an ACTION successor of
    the frontier node at its position under the graph's name for it. *)
Theorem returned_assignments_legal g agents nodes c fuel :
  Forall (fun s => 1 <= numberOfSuccessors g s) nodes ->
  enough_fuel g agents nodes <= fuel ->
  exists r c',
    generateAgentActionAssignments fuel g agents nodes c = Done (r, c')
    /\ forall alpha, alpha ∈ r ->
         agent <$> alpha `sublist_of` roster agents
         /\ (NoDup (roster agents) -> NoDup (agent <$> alpha))
         /\ 1 <= length alpha <= Nat.min (length nodes) (size agents)
         /\ exists p, NoDup p /\ Forall2 (serves g nodes) alpha p.
Proof.
  intros Hpos Hfuel.
  destruct (returned_list_exact g agents nodes c fuel Hpos Hfuel) as [c' E].
  exists (assignments g (roster agents) nodes), c'. split; [done|].
  intros alpha Hin.
  destruct (returned_assignments_shape g agents nodes alpha Hin)
    as (H1 & H2 & H3).
  split_and!; try done; [|lia|lia].
  intros Hnd. by eapply sublist_NoDup.
Qed.

Lemma returned_assignments_legal_scenario5 :
  (Forall (fun s => 1 <= numberOfSuccessors branching_graph s) [0; 1; 2]
   /\ enough_fuel branching_graph two_agents [0; 1; 2] <= 100)
  /\ exists r c',
       generateAgentActionAssignments 100 branching_graph two_agents
         [0; 1; 2] fresh_combinator = Done (r, c')
       /\ forall alpha, alpha ∈ r ->
            agent <$> alpha `sublist_of` roster two_agents
            /\ (NoDup (roster two_agents) -> NoDup (agent <$> alpha))
            /\ 1 <= length alpha
               <= Nat.min (length [0; 1; 2]) (size two_agents)
            /\ exists p, NoDup p
                         /\ Forall2 (serves branching_graph [0; 1; 2]) alpha p.
Proof.
  assert (Forall (fun s => 1 <= numberOfSuccessors branching_graph s) [0; 1; 2])
    as H1 by (repeat constructor).
  assert (enough_fuel branching_graph two_agents [0; 1; 2] <= 100)
    as H2 by (vm_compute; lia).
  split; [by split|].
  exact (returned_assignments_legal branching_graph two_agents [0; 1; 2]
           fresh_combinator 100 H1 H2).
Defined.

(** X6: with an empty frontier or an empty roster, and no frontier node
    without successor, the call returns the empty list. *)
Theorem no_agents_or_no_frontier g agents nodes c fuel :
  Forall (fun s => 1 <= numberOfSuccessors g s) nodes ->
  nodes = [] \/ agents = ∅ ->
  product (branching g nodes) <= fuel ->
  exists c', generateAgentActionAssignments fuel g agents nodes c = Done ([], c').
Proof.
  intros Hpos Hzero Hfuel.
  assert (Nat.min (length nodes) (size agents) = 0) as Hl.
  { destruct Hzero as [->| ->]; [done|]. rewrite map_size_empty. lia. }
  destruct (returned_list_exact g agents nodes c fuel Hpos) as [c' E].
  { unfold enough_fuel, sum_from_1. rewrite Hl. cbn [seq foldr]. lia. }
  exists c'. rewrite E. unfold assignments. rewrite roster_length, Hl. done.
Qed.

Lemma no_agents_or_no_frontier_empty_roster :
  (Forall (fun s => 1 <= numberOfSuccessors branching_graph s) [0; 1; 2]
   /\ ([0; 1; 2] = [] \/ (∅ : gmap string Agent) = ∅)
   /\ product (branching branching_graph [0; 1; 2]) <= 8)
  /\ exists c',
       generateAgentActionAssignments 8 branching_graph ∅ [0; 1; 2]
         fresh_combinator = Done ([], c').
Proof.
  assert (Forall (fun s => 1 <= numberOfSuccessors branching_graph s) [0; 1; 2])
    as H1 by (repeat constructor).
  assert ([0; 1; 2] = [] \/ (∅ : gmap string Agent) = ∅) as H2 by (by right).
  assert (product (branching branching_graph [0; 1; 2]) <= 8) as H3
    by (vm_compute; lia).
  split; [done|].
  exact (no_agents_or_no_frontier branching_graph ∅ [0; 1; 2]
           fresh_combinator 8 H1 H2 H3).
Defined.

End CombinatorOrder.

(** ** astar.hpp: what search returns, whether it finds a goal or not *)

Module AStarMore.
Import AStar AStarFacts.

Section SearchReturns.
Variable assembly_ : AssemblyGraph.
Variable log2f : float -> float.
Variable successorEdges : NodeIndex -> list (float * NodeIndex).
Variable top : (NodeIndex -> SearchData) -> list NodeIndex -> nat.

Local Abbreviation isGoal := (AStar.isGoal assembly_).
Local Abbreviation calc_hscore := (AStar.calc_hscore assembly_ log2f).
Local Abbreviation score := (AStar.score assembly_ log2f).
Local Abbreviation relax := (AStar.relax assembly_ log2f).
Local Abbreviation search_loop :=
  (AStar.search_loop assembly_ log2f successorEdges top).
Local Abbreviation search := (AStar.search assembly_ log2f successorEdges top).
Local Abbreviation children := (AStarFacts.children successorEdges).
Local Abbreviation reachable := (AStarFacts.reachable successorEdges).

(** The scores of a state agree with each other. *)
Definition scored (d : SearchData) : Prop :=
  h_score d = calc_hscore d
  /\ f_score d = PrimFloat.add (g_score d) (h_score d).

Lemma scored_score d : scored (score d).
Proof. by split. Qed.

Lemma scored_marked b d : scored d -> scored (set_marked b d).
Proof. by intros [? ?]. Qed.

(** What one pass over the successor edges changes: the scores of the
    children, nothing else. *)
Lemma relax_all_keeps cur : forall edges store openSet,
  exists store',
    foldl (fun s edge => relax cur edge s) (store, openSet) edges
      = (store', openSet ++ (snd <$> edges))
    /\ same_frontiers store' store
    /\ (forall v, marked (store' v) = marked (store v))
    /\ (forall v, scored (store v) -> scored (store' v))
    /\ Forall (fun v => scored (store' v)) (snd <$> edges).
Proof.
  induction edges as [|e edges IH]; intros store openSet.
  { exists store. simpl. rewrite app_nil_r. split_and!; try done. }
  simpl.
  set (store1 := update e.2 score
                   (update e.2 (set_g_score
                      (PrimFloat.add (g_score (store cur)) e.1)) store)).
  destruct (IH store1 (openSet ++ [e.2]))
    as (store' & E & Hsame & Hmark & Hsc & Hkids).
  assert (forall v, scored (store v) -> scored (store1 v)) as Hsc1.
  { intros v Hv. unfold store1, update.
    destruct (decide (v = e.2)); [apply scored_score|done]. }
  assert (scored (store1 e.2)) as Hchild.
  { unfold store1, update. rewrite decide_True by done. apply scored_score. }
  exists store'. rewrite E. split_and!.
  - f_equal. by rewrite <- app_assoc.
  - intros v. rewrite Hsame. unfold store1, update.
    by destruct (decide (v = e.2)).
  - intros v. rewrite Hmark. unfold store1, update.
    by destruct (decide (v = e.2)).
  - intros v Hv. by apply Hsc, Hsc1.
  - constructor; [by apply Hsc|done].
Qed.

(** What holds when the loop returns. *)
Lemma search_loop_returns root : forall fuel store openSet current trace r,
  search_loop fuel store openSet current trace = Done r ->
  exists more,
    popped r = trace ++ more
    /\ found r = match last more with Some x => Some x | None => current end
    /\ same_frontiers (store_after r) store
    /\ ((open_after r = []
         /\ Forall (fun x => isGoal (store x) = false) more
         /\ forall y, marked (store_after r y) = true
                      <-> marked (store y) = true \/ y ∈ more)
        \/ exists body x,
             more = body ++ [x]
             /\ Forall (fun x => isGoal (store x) = false) body
             /\ isGoal (store x) = true
             /\ forall y, marked (store_after r y) = true
                          <-> marked (store y) = true \/ y ∈ body)
    /\ (Forall (reachable root) openSet ->
        Forall (reachable root) (more ++ open_after r))
    /\ (forall v, scored (store v) -> scored (store_after r v))
    /\ (Forall (fun x => scored (store x)) openSet ->
        Forall (fun x => scored (store_after r x)) (more ++ open_after r)).
Proof.
  induction fuel as [|fuel IH]; intros store openSet current trace r; [done|].
  destruct openSet as [|x q] eqn:Eq.
  { simpl. intros [= <-]. exists []. simpl. rewrite app_nil_r.
    split_and!; try done. left. split_and!; [done|constructor|].
    intros y. split; [by left|]. by intros [?|?%elem_of_nil]. }
  assert (AStar.search_loop assembly_ log2f successorEdges top (S fuel) store
            openSet current trace
          = cur ← at_index openSet (top store openSet);
            if isGoal (store cur) then
              Done {| found := Some cur; store_after := store;
                      open_after := delete (top store openSet) openSet;
                      popped := trace ++ [cur] |}
            else
              let '(store2, open2) :=
                foldl (fun s edge => relax cur edge s)
                      (update cur (set_marked true) store,
                       delete (top store openSet) openSet)
                      (successorEdges cur) in
              search_loop fuel store2 open2 (Some cur) (trace ++ [cur])) as Hstep.
  { by rewrite Eq. }
  rewrite <- Eq, Hstep. clear Hstep.
  destruct (openSet !! top store openSet) as [cur|] eqn:Hcur.
  2:{ unfold at_index. by rewrite Hcur. }
  rewrite (at_index_Some _ _ _ Hcur). cbn [mbind outcome_bind].
  assert (cur ∈ openSet) as Hin by (by eapply list_elem_of_lookup_2).
  destruct (isGoal (store cur)) eqn:Hgoal.
  { intros [= <-]. exists [cur]. simpl. split_and!; try done.
    - right. exists [], cur. split_and!; [done|constructor|done|].
      intros y. split; [by left|]. by intros [?|?%elem_of_nil].
    - intros Hopen. constructor.
      + rewrite Forall_forall in Hopen. by apply Hopen.
      + apply Forall_forall. intros y Hy%list_elem_of_delete_inv.
        rewrite Forall_forall in Hopen. by apply Hopen.
    - intros Hopen. constructor.
      + rewrite Forall_forall in Hopen. by apply Hopen.
      + apply Forall_forall. intros y Hy%list_elem_of_delete_inv.
        rewrite Forall_forall in Hopen. by apply Hopen. }
  destruct (relax_all_keeps cur (successorEdges cur)
              (update cur (set_marked true) store)
              (delete (top store openSet) openSet))
    as (store' & Erelax & Hsame' & Hmark' & Hsc' & Hkids').
  rewrite Erelax. intros Hrun.
  destruct (IH _ _ _ _ _ Hrun)
    as (more & Hpop & Hfound & Hsame & Hexit & Hreach & Hmono & Hscored).
  assert (forall v, scored (store v) -> scored (store_after r v)) as Hmono0.
  { intros v Hv. apply Hmono, Hsc'. unfold update.
    destruct (decide (v = cur)); [by apply scored_marked|done]. }
  assert (same_frontiers store' store) as Hfr.
  { intros v. rewrite Hsame'. by apply same_frontiers_update. }
  assert (forall v, isGoal (store' v) = isGoal (store v)) as Hg.
  { intros v. apply isGoal_frontier, Hfr. }
  assert (forall y, marked (store' y) = true
                    <-> marked (store y) = true \/ y = cur) as Hm.
  { intros y. rewrite Hmark'. unfold update.
    destruct (decide (y = cur)) as [->|Hne]; simpl; [tauto|].
    split; [by left|]. by intros [?|?]. }
  exists (cur :: more). split_and!.
  - by rewrite Hpop, <- app_assoc.
  - rewrite Hfound. destruct more as [|y more']; [done|].
    rewrite last_cons_cons.
    destruct (last (y :: more')) eqn:E; [done|]. by apply last_None in E.
  - intros v. by rewrite Hsame, Hfr.
  - destruct Hexit as [(Hempty & Hng & Hmarks)|(body & z & -> & Hng & Hz & Hmarks)].
    + left. split_and!; [done| |].
      * constructor; [done|]. eapply Forall_impl; [exact Hng|].
        intros v. simpl. by rewrite Hg.
      * intros y. rewrite Hmarks, Hm, elem_of_cons. tauto.
    + right. exists (cur :: body), z. split_and!; [done| | |].
      * constructor; [done|]. eapply Forall_impl; [exact Hng|].
        intros v. simpl. by rewrite Hg.
      * by rewrite <- Hg.
      * intros y. rewrite Hmarks, Hm, elem_of_cons. tauto.
  - intros Hopen. rewrite Forall_forall in Hopen.
    assert (reachable root cur) as Hrc by (by apply Hopen).
    simpl. constructor; [done|]. apply Hreach, Forall_app. split.
    + apply Forall_forall. intros y Hy%list_elem_of_delete_inv. by apply Hopen.
    + apply Forall_forall. intros v Hv. by eapply reachable_child.
  - done.
  - intros Hopen. rewrite Forall_forall in Hopen.
    assert (Forall (fun x => scored (store' x))
              (delete (top store openSet) openSet
               ++ (snd <$> successorEdges cur))) as Hnext.
    { apply Forall_app. split; [|done].
      apply Forall_forall. intros y Hy%list_elem_of_delete_inv.
      apply Hsc'. unfold update. destruct (decide (y = cur)) as [->|?].
      - by apply scored_marked, Hopen.
      - by apply Hopen. }
    specialize (Hscored Hnext). simpl. constructor; [|done].
    by apply Hmono0, Hopen.
Qed.

(** On a finite expansion the loop returns. *)
Lemma search_loop_terminates (rank : NodeIndex -> nat) (D : nat) :
  (forall store q, q <> [] -> top store q < length q) ->
  (forall u v, v ∈ children u -> rank v < rank u) ->
  forall fuel store openSet current trace,
    Forall (fun x => rank x <= D) openSet ->
    sum_list_with (tree_size successorEdges D) openSet < fuel ->
    exists r, search_loop fuel store openSet current trace = Done r
      /\ length (popped r)
         <= length trace + sum_list_with (tree_size successorEdges D) openSet.
Proof.
  intros Htop Hrank.
  induction fuel as [|fuel IH]; intros store openSet current trace Hopen Hfuel;
    [lia|].
  destruct openSet as [|x q] eqn:Eq; [eexists; split; [done|simpl; lia]|].
  rewrite <- Eq in *. assert (openSet <> []) as Hne by (by rewrite Eq).
  destruct (lookup_lt_is_Some_2 openSet (top store openSet)) as [cur Hcur].
  { by apply Htop. }
  assert (rank cur <= D) as Hc.
  { rewrite Forall_forall in Hopen. apply Hopen.
    by eapply list_elem_of_lookup_2. }
  assert (AStar.search_loop assembly_ log2f successorEdges top (S fuel) store
            openSet current trace
          = cur ← at_index openSet (top store openSet);
            if isGoal (store cur) then
              Done {| found := Some cur; store_after := store;
                      open_after := delete (top store openSet) openSet;
                      popped := trace ++ [cur] |}
            else
              let '(store2, open2) :=
                foldl (fun s edge => relax cur edge s)
                      (update cur (set_marked true) store,
                       delete (top store openSet) openSet)
                      (successorEdges cur) in
              search_loop fuel store2 open2 (Some cur) (trace ++ [cur])) as ->.
  { by rewrite Eq. }
  rewrite (at_index_Some _ _ _ Hcur). cbn [mbind outcome_bind].
  pose proof (sum_list_with_delete (tree_size successorEdges D) _ _ _ Hcur)
    as Hsum.
  rewrite (tree_size_unfold successorEdges rank Hrank D cur Hc) in Hsum.
  unfold AStarFacts.children in Hsum.
  destruct (isGoal (store cur)).
  { eexists. split; [done|]. simpl. rewrite length_app. simpl. lia. }
  destruct (relax_all_keeps cur (successorEdges cur)
              (update cur (set_marked true) store)
              (delete (top store openSet) openSet))
    as (store' & -> & _).
  destruct (IH store' (delete (top store openSet) openSet
                       ++ (snd <$> successorEdges cur))
              (Some cur) (trace ++ [cur])) as (r & Er & Hlen).
  - apply Forall_app. split.
    + apply Forall_forall. intros y Hy%list_elem_of_delete_inv.
      rewrite Forall_forall in Hopen. by apply Hopen.
    + apply Forall_forall. intros v Hv. specialize (Hrank cur v Hv). lia.
  - rewrite sum_list_with_app. lia.
  - exists r. split; [done|].
    rewrite length_app, sum_list_with_app in Hlen. simpl in Hlen. lia.
Qed.

Lemma search_returns_facts root fuel store r :
  search fuel store root = Done r ->
  exists x body,
    found r = Some x /\ popped r = body ++ [x]
    /\ Forall (fun y => isGoal (store y) = false) body
    /\ Forall (reachable root) (popped r ++ open_after r)
    /\ (isGoal (store_after r x) = true
        \/ (open_after r = [] /\ isGoal (store_after r x) = false))
    /\ (forall y, marked (store_after r y) = true
                  <-> marked (store y) = true
                      \/ (y ∈ popped r /\ isGoal (store y) = false))
    /\ Forall (fun y => scored (store_after r y))
         (popped r ++ open_after r).
Proof.
  unfold AStar.search. intros Hrun.
  destruct (search_loop_returns root _ _ _ _ _ _ Hrun)
    as (more & Hpop & Hfound & Hsame & Hexit & Hreach & _ & Hscored).
  simpl in Hpop. rewrite <- Hpop in *.
  assert (forall y, isGoal (update root score store y) = isGoal (store y)) as Hg.
  { intros y. apply isGoal_frontier. unfold update.
    by destruct (decide (y = root)). }
  assert (forall y, isGoal (store_after r y) = isGoal (store y)) as Hg'.
  { intros y. rewrite <- Hg. apply isGoal_frontier, Hsame. }
  assert (forall y, marked (update root score store y) = marked (store y)) as Hm.
  { intros y. unfold update. by destruct (decide (y = root)). }
  assert (Forall (fun y => scored (update root score store y)) [root]) as Hs0.
  { constructor; [|done]. unfold update. rewrite decide_True by done.
    apply scored_score. }
  specialize (Hscored Hs0).
  specialize (Hreach ltac:(repeat constructor)).
  destruct Hexit as [(Hempty & Hng & Hmarks)|(body & x & E & Hng & Hx & Hmarks)].
  - destruct (popped r) as [|y0 p0] eqn:Ep using rev_ind.
    { (* the root is popped in the first round *)
      exfalso. clear -Hrun Ep.
      destruct fuel as [|fuel]; [done|]. cbn [AStar.search_loop] in Hrun.
      destruct (at_index [root] _) as [cur| | | | |]; try done.
      cbn [mbind outcome_bind] in Hrun.
      destruct (isGoal _).
      - injection Hrun as <-. simpl in Ep. done.
      - destruct (foldl _ _ _) as [s2 o2].
        destruct (search_loop_returns root _ _ _ _ _ _ Hrun) as (m & Hp & _).
        rewrite Ep in Hp. simpl in Hp. done. }
    clear IHp0. exists y0, p0. rewrite last_snoc in Hfound.
    apply Forall_app in Hng as [Hng1 Hng2%Forall_inv].
    split_and!; try done.
    + eapply Forall_impl; [exact Hng1|]. intros y. simpl. by rewrite Hg.
    + right. split; [done|]. by rewrite Hg', <- Hg.
    + intros y. rewrite Hmarks, Hm. split.
      * intros [?|Hin]; [by left|]. right. split; [done|].
        rewrite <- Hg. rewrite Forall_forall in Hng1.
        apply elem_of_app in Hin as [Hin|Hin];
          [by apply Hng1|].
        apply list_elem_of_singleton in Hin. by subst y.
      * intros [?|[? ?]]; [by left|by right].
  - exists x, body. rewrite E, last_snoc in Hfound.
    split_and!; try done.
    + eapply Forall_impl; [exact Hng|]. intros y. simpl. by rewrite Hg.
    + left. by rewrite Hg', <- Hg.
    + intros y. rewrite Hmarks, Hm, E. split.
      * intros [?|Hin]; [by left|]. right. split.
        -- apply elem_of_app. by left.
        -- rewrite <- Hg. rewrite Forall_forall in Hng. by apply Hng.
      * intros [?|[Hin Hy]]; [by left|].
        apply elem_of_app in Hin as [Hin|Hin]; [by right|].
        apply list_elem_of_singleton in Hin. subst y.
        rewrite <- Hg in Hy. congruence.
Qed.

(** X7: when every state has finitely many levels of successors below it
    and the queue names one of its elements, [search] returns once the fuel
    exceeds the size of the expansion tree of the root; it returns a state
    and never the null pointer, that state is the last one popped, and no
    more states are popped than the expansion tree of the root has. *)
Theorem search_returns_within_tree (rank : NodeIndex -> nat) root store :
  (forall store q, q <> [] -> top store q < length q) ->
  (forall u v, v ∈ children u -> rank v < rank u) ->
  forall fuel, tree_size successorEdges (rank root) root < fuel ->
    exists r x,
      search fuel store root = Done r
      /\ found r = Some x
      /\ last (popped r) = Some x
      /\ length (popped r) <= tree_size successorEdges (rank root) root.
Proof.
  intros Htop Hrank fuel Hfuel.
  destruct (search_loop_terminates rank (rank root) Htop Hrank fuel
              (update root score store) [root] None [])
    as (r & Er & Hlen).
  { by constructor. }
  { simpl. lia. }
  destruct (search_returns_facts root fuel store r Er)
    as (x & body & Hfound & Hpop & _).
  exists r, x. split_and!; [done..| |].
  - by rewrite Hpop, last_snoc.
  - simpl in Hlen. lia.
Qed.

(** X8: whenever [search] returns, it returns the last state it popped, no
    state popped before it is a goal, every state popped or left in the open
    set is reachable from the root along successor edges, and the returned
    state is a goal unless the open set ran empty. *)
Theorem search_returns_first_goal root fuel store r :
  search fuel store root = Done r ->
  exists x body,
    found r = Some x
    /\ popped r = body ++ [x]
    /\ Forall (fun y => isGoal (store y) = false) body
    /\ Forall (reachable root) (popped r ++ open_after r)
    /\ (isGoal (store_after r x) = true
        \/ (open_after r = [] /\ isGoal (store_after r x) = false)).
Proof.
  intros Er.
  destruct (search_returns_facts root fuel store r Er)
    as (x & body & ? & ? & ? & ? & ? & _).
  by exists x, body.
Qed.

(** X9: when [search] returns, the states it has marked, beyond those marked
    before, are the popped states that are no goals; the returned goal itself
    is left unmarked. *)
Theorem search_marks_expanded root fuel store r :
  search fuel store root = Done r ->
  forall y, marked (store_after r y) = true
            <-> marked (store y) = true
                \/ (y ∈ popped r /\ isGoal (store y) = false).
Proof.
  intros Er.
  destruct (search_returns_facts root fuel store r Er)
    as (x & body & _ & _ & _ & _ & _ & Hmarks & _).
  exact Hmarks.
Qed.

(** X10: when [search] returns, every state popped or left in the open set
    carries an h_score equal to [calc_hscore] of the state and an f_score
    equal to the sum of its g_score and h_score. *)
Theorem search_scores_agree root fuel store r :
  search fuel store root = Done r ->
  Forall (fun y => scored (store_after r y)) (popped r ++ open_after r).
Proof.
  intros Er.
  destruct (search_returns_facts root fuel store r Er)
    as (x & body & _ & _ & _ & _ & _ & _ & Hscored).
  exact Hscored.
Qed.
End SearchReturns.

(** An assembly in which the parts numbered below 5 can be taken apart. *)
Definition gear_box : AssemblyGraph :=
  {| getNodeName := fun i => if Nat.eqb i 7 then "shaft" else "hub";
     hasSuccessor := fun i => i <? 5 |}.

(** The states of [small_tree]: the third holds two parts that cannot be
    taken apart. *)
Definition states (v : NodeIndex) : SearchData :=
  {| marked := false; g_score := 0; f_score := 0; h_score := 0;
     minimum_cost_action := 3;
     subassemblies :=
       match v with
       | 0 => <["hub"%string := 1]> ∅
       | 1 => <["shaft"%string := 7]> (<["hub"%string := 2]> ∅)
       | _ => <["shaft"%string := 7]> (<["hub"%string := 8]> ∅)
       end;
     actions := ∅ |}.

Definition gear_box_run : outcome SearchResult :=
  search gear_box log2f_table small_tree least_f 10 states 0.

Definition gear_box_result : SearchResult :=
  match gear_box_run with
  | Done r => r
  | _ => {| found := None; store_after := states; open_after := [];
            popped := [] |}
  end.

Lemma small_tree_ranked u v : v ∈ children small_tree u -> 3 - v < 3 - u.
Proof.
  destruct u as [|[|u]]; unfold children; simpl.
  - intros [->|[->|[]%elem_of_nil]%elem_of_cons]%elem_of_cons; lia.
  - intros [->|[]%elem_of_nil]%elem_of_cons; lia.
  - by intros []%elem_of_nil.
Qed.

Lemma gear_box_run_done :
  search gear_box log2f_table small_tree least_f 10 states 0
  = Done gear_box_result.
Proof.
  destruct (search_loop_terminates gear_box log2f_table small_tree least_f
              (fun v => 3 - v) 3 least_f_in_range small_tree_ranked 10
              (update 0 (score gear_box log2f_table) states) [0] None [])
    as (r & E & _); [repeat constructor|simpl; lia|].
  assert (search gear_box log2f_table small_tree least_f 10 states 0 = Done r)
    as E' by exact E.
  unfold gear_box_result, gear_box_run. by rewrite E'.
Qed.

Lemma gear_box_result_lists :
  found gear_box_result = Some 2
  /\ popped gear_box_result = [0; 1; 2]
  /\ open_after gear_box_result = [3].
Proof. by vm_compute. Qed.

Lemma search_returns_within_tree_gear_box :
  ((forall store q, q <> [] -> least_f store q < length q)
   /\ (forall u v, v ∈ children small_tree u -> 3 - v < 3 - u)
   /\ tree_size small_tree (3 - 0) 0 < 10)
  /\ exists r x,
       search gear_box log2f_table small_tree least_f 10 states 0 = Done r
       /\ found r = Some x
       /\ last (popped r) = Some x
       /\ length (popped r) <= tree_size small_tree (3 - 0) 0.
Proof.
  assert (tree_size small_tree (3 - 0) 0 < 10) as H3 by (vm_compute; lia).
  split; [split_and!; [apply least_f_in_range|apply small_tree_ranked|done]|].
  exact (search_returns_within_tree gear_box log2f_table small_tree least_f
           (fun v => 3 - v) 0 states least_f_in_range small_tree_ranked
           10 H3).
Defined.

Lemma search_returns_first_goal_gear_box :
  search gear_box log2f_table small_tree least_f 10 states 0
    = Done gear_box_result
  /\ exists x body,
       found gear_box_result = Some x
       /\ popped gear_box_result = body ++ [x]
       /\ Forall (fun y => isGoal gear_box (states y) = false) body
       /\ Forall (reachable small_tree 0)
            (popped gear_box_result ++ open_after gear_box_result)
       /\ (isGoal gear_box (store_after gear_box_result x) = true
           \/ (open_after gear_box_result = []
               /\ isGoal gear_box (store_after gear_box_result x) = false)).
Proof.
  split; [exact gear_box_run_done|].
  exact (search_returns_first_goal gear_box log2f_table small_tree least_f
           0 10 states gear_box_result gear_box_run_done).
Defined.

Lemma search_marks_expanded_gear_box :
  search gear_box log2f_table small_tree least_f 10 states 0
    = Done gear_box_result
  /\ forall y, marked (store_after gear_box_result y) = true
               <-> marked (states y) = true
                   \/ (y ∈ popped gear_box_result
                       /\ isGoal gear_box (states y) = false).
Proof.
  split; [exact gear_box_run_done|].
  exact (search_marks_expanded gear_box log2f_table small_tree least_f
           0 10 states gear_box_result gear_box_run_done).
Defined.

Lemma search_scores_agree_gear_box :
  search gear_box log2f_table small_tree least_f 10 states 0
    = Done gear_box_result
  /\ Forall (fun y => scored gear_box log2f_table
                        (store_after gear_box_result y))
       (popped gear_box_result ++ open_after gear_box_result).
Proof.
  split; [exact gear_box_run_done|].
  exact (search_scores_agree gear_box log2f_table small_tree least_f
           0 10 states gear_box_result gear_box_run_done).
Defined.
End AStarMore.

(** ** io.hpp: the readers of agents, reachability and nodes, the checks of
    the configuration, [read] and [write] *)

Module IoXmlMore.
Import IoXml IoXmlFacts.

(** *** types.hpp: namespace config.  The member [name] of Agent, Action and
    Subassembly is written with the struct's name before it. *)
Record Agent := {
  agent_name : string;
  hostname : string;
  port : string
}.

Record Action := {
  action_name : string;
  costs : gmap string float
}.

Record Reach := {
  reachable : bool;
  interaction : Action
}.

Record Subassembly := {
  subassembly_name : string;
  reachability : gmap string Reach
}.

Record Configuration := {
  agents : gmap string Agent;
  actions : gmap string Action;
  subassemblies : gmap string Subassembly
}.

Definition set_agents v (c : Configuration) : Configuration :=
  {| agents := v; actions := actions c; subassemblies := subassemblies c |}.

Definition set_actions v (c : Configuration) : Configuration :=
  {| agents := agents c; actions := v; subassemblies := subassemblies c |}.

Definition set_subassemblies v (c : Configuration) : Configuration :=
  {| agents := agents c; actions := actions c; subassemblies := v |}.

(** *** tinyxml2 *)

Inductive XMLError := XML_SUCCESS | XML_ERROR_PARSING.

Definition XMLDocument := list XMLElement.

Definition FirstChildElement (e : XMLElement) (name : string)
  : option XMLElement :=
  head (ChildElements e name).

Definition NewElement (name : string) : XMLElement := Element name [] [].

Fixpoint set_attribute (name value : string) (attrs : list (string * string))
  : list (string * string) :=
  match attrs with
  | [] => [(name, value)]
  | (k, v) :: rest =>
      if String.eqb k name then (k, value) :: rest
      else (k, v) :: set_attribute name value rest
  end.

Definition SetAttribute (name value : string) (e : XMLElement) : XMLElement :=
  match e with
  | Element t attrs cs => Element t (set_attribute name value attrs) cs
  end.

Definition InsertFirstChild (child e : XMLElement) : XMLElement :=
  match e with
  | Element t attrs cs => Element t attrs (child :: cs)
  end.

Definition InsertEndChild (child e : XMLElement) : XMLElement :=
  match e with
  | Element t attrs cs => Element t attrs (cs ++ [child])
  end.

(** *** parse_agents *)

(** One round of the loop over the [<agent>] children. *)
Definition parse_agent (agent : XMLElement) (agent_map : gmap string Agent)
  : option (gmap string Agent) :=
  match Attribute agent "name" with
  | None => None
  | Some name =>
      match Attribute agent "host" with
      | None => None
      | Some host =>
          match Attribute agent "port" with
          | None => None
          | Some port =>
              Some (<[name := {| agent_name := name; hostname := host;
                                 port := port |}]> agent_map)
          end
      end
  end.

Fixpoint parse_agent_loop (agents : list XMLElement)
    (agent_map : gmap string Agent) : option (gmap string Agent) :=
  match agents with
  | [] => Some agent_map
  | agent :: rest =>
      match parse_agent agent agent_map with
      | None => None
      | Some agent_map' => parse_agent_loop rest agent_map'
      end
  end.

Definition parse_agents (agents_root : XMLElement)
  : option (gmap string Agent) :=
  parse_agent_loop (ChildElements agents_root "agent") ∅.

(** *** validate_config *)

Definition validate_config (conf : Configuration) : Z :=
  if bool_decide (agents conf = ∅) then (-1)%Z
  else if existsb (fun sa =>
            existsb (fun agent =>
              bool_decide (reachability sa.2 !! agent_name agent.2 = None))
              (map_to_list (agents conf)))
            (map_to_list (subassemblies conf))
  then (-1)%Z
  else if existsb (fun action =>
            existsb (fun agent =>
              bool_decide (costs action.2 !! agent_name agent.2 = None))
              (map_to_list (agents conf)))
            (map_to_list (actions conf))
  then (-1)%Z
  else 0%Z.

Section Reader.
Variable is_float : string -> bool.
Variable stod : string -> float.

Local Abbreviation parse_costmap := (IoXml.parse_costmap is_float stod).

(** *** parse_interaction *)

Definition parse_interaction (interaction_root : XMLElement) : option Action :=
  match FirstChildElement interaction_root "interaction" with
  | None => None
  | Some interaction_node =>
      match Attribute interaction_node "name" with
      | None => None
      | Some attribute_text =>
          match parse_costmap interaction_node with
          | None => None
          | Some c => Some {| action_name := attribute_text; costs := c |}
          end
      end
  end.

(** *** parse_reachmap

    The reader writes [config.actions] while it goes, so the actions are
    threaded through and are there also when no map is returned. *)
Definition parse_reach (reach : XMLElement) (reach_map : gmap string Reach)
    (acts : gmap string Action)
  : option (gmap string Reach) * gmap string Action :=
  match Attribute reach "agent" with
  | None => (None, acts)
  | Some name =>
      match Attribute reach "reachable" with
      | None => (None, acts)
      | Some text =>
          let agent_part_reach := lowercase text in
          if String.eqb agent_part_reach "false" then
            match parse_interaction reach with
            | None => (None, acts)
            | Some interaction_temp =>
                (Some (<[name := {| reachable := false;
                                    interaction := interaction_temp |}]>
                         reach_map),
                 <[action_name interaction_temp := interaction_temp]> acts)
            end
          else if String.eqb agent_part_reach "true" then
            (Some (<[name := {| reachable := true;
                                interaction := {| action_name := "-";
                                                  costs := ∅ |} |}]>
                     reach_map),
             acts)
          else (None, acts)
      end
  end.

Fixpoint parse_reach_loop (reaches : list XMLElement)
    (reach_map : gmap string Reach) (acts : gmap string Action)
  : option (gmap string Reach) * gmap string Action :=
  match reaches with
  | [] => (Some reach_map, acts)
  | reach :: rest =>
      match parse_reach reach reach_map acts with
      | (None, acts') => (None, acts')
      | (Some reach_map', acts') => parse_reach_loop rest reach_map' acts'
      end
  end.

Definition parse_reachmap (reachmap_root : XMLElement)
    (acts : gmap string Action)
  : option (gmap string Reach) * gmap string Action :=
  parse_reach_loop (ChildElements reachmap_root "reach") ∅ acts.

(** *** The graph factory

    Modelled from the spec: graph_factory.hpp is not among the sources.  The
    reader calls [insertOr], [insertAnd], [insertEdge] and [setRoot] of the
    factory, which builds the graph the reader validates at the end; what
    they do to the factory is left open. *)
Variable GraphFactory : Type.
Variable insertOr : string -> GraphFactory -> GraphFactory.
Variable insertAnd : string -> GraphFactory -> GraphFactory.
Variable insertEdge : string -> string -> GraphFactory -> bool * GraphFactory.
Variable setRoot : string -> GraphFactory -> bool * GraphFactory.
Variable graph : GraphFactory -> Graph.

(** The members of [struct IoXml] the readers write. *)
Record Reader := {
  config : Configuration;
  graph_gen : GraphFactory
}.

Definition on_config (f : Configuration -> Configuration) (this : Reader)
  : Reader :=
  {| config := f (config this); graph_gen := graph_gen this |}.

Definition on_graph_gen (f : GraphFactory -> GraphFactory) (this : Reader)
  : Reader :=
  {| config := config this; graph_gen := f (graph_gen this) |}.

(** *** parse_nodes *)

(** One round of the loop over the [<node>] children. *)
Definition parse_node (child : XMLElement) (this : Reader)
  : XMLError * Reader :=
  match Attribute child "name" with
  | None => (XML_ERROR_PARSING, this)
  | Some node_name =>
      match Attribute child "type" with
      | None => (XML_ERROR_PARSING, this)
      | Some node_type =>
          if String.eqb node_type "OR" then
            let this := on_graph_gen (insertOr node_name) this in
            let '(r, acts) := parse_reachmap child (actions (config this)) in
            let this := on_config (set_actions acts) this in
            match r with
            | None => (XML_ERROR_PARSING, this)
            | Some r =>
                (XML_SUCCESS,
                 on_config (fun c =>
                   set_subassemblies
                     (<[node_name := {| subassembly_name := node_name;
                                        reachability := r |}]>
                        (subassemblies c)) c) this)
            end
          else if String.eqb node_type "AND" then
            let this := on_graph_gen (insertAnd node_name) this in
            match parse_costmap child with
            | None => (XML_ERROR_PARSING, this)
            | Some c =>
                (XML_SUCCESS,
                 on_config (fun conf =>
                   set_actions
                     (<[node_name := {| action_name := node_name;
                                        costs := c |}]> (actions conf)) conf)
                   this)
            end
          else (XML_ERROR_PARSING, this)
      end
  end.

Fixpoint parse_node_loop (children : list XMLElement) (this : Reader)
  : XMLError * Reader :=
  match children with
  | [] => (XML_SUCCESS, this)
  | child :: rest =>
      match parse_node child this with
      | (XML_ERROR_PARSING, this') => (XML_ERROR_PARSING, this')
      | (XML_SUCCESS, this') => parse_node_loop rest this'
      end
  end.

Definition parse_nodes (nodes_root : XMLElement) (this : Reader)
  : XMLError * Reader :=
  parse_node_loop (ChildElements nodes_root "node") this.

(** *** parse_edges *)

Definition parse_edge (child : XMLElement) (this : Reader)
  : XMLError * Reader :=
  match Attribute child "start" with
  | None => (XML_ERROR_PARSING, this)
  | Some start_node =>
      match Attribute child "end" with
      | None => (XML_ERROR_PARSING, this)
      | Some end_node =>
          (* bool inserted = ...: the result is not looked at *)
          (XML_SUCCESS,
           on_graph_gen (fun f => (insertEdge start_node end_node f).2) this)
      end
  end.

Fixpoint parse_edge_loop (children : list XMLElement) (this : Reader)
  : XMLError * Reader :=
  match children with
  | [] => (XML_SUCCESS, this)
  | child :: rest =>
      match parse_edge child this with
      | (XML_ERROR_PARSING, this') => (XML_ERROR_PARSING, this')
      | (XML_SUCCESS, this') => parse_edge_loop rest this'
      end
  end.

Definition parse_edges (edges_root : XMLElement) (this : Reader)
  : XMLError * Reader :=
  parse_edge_loop (ChildElements edges_root "edge") this.

(** *** parse_graph *)

Definition parse_graph (graph_root : XMLElement) (this : Reader)
  : XMLError * Reader :=
  match FirstChildElement graph_root "nodes" with
  | None => (XML_ERROR_PARSING, this)
  | Some nodes_e =>
      match parse_nodes nodes_e this with
      | (XML_ERROR_PARSING, this) => (XML_ERROR_PARSING, this)
      | (XML_SUCCESS, this) =>
          match FirstChildElement graph_root "edges" with
          | None => (XML_ERROR_PARSING, this)
          | Some edges_e => parse_edges edges_e this
          end
      end
  end.

(** *** read

    [doc] is what [LoadFile] gave: no document when the file could not be
    loaded, otherwise the top-level elements.  The tuple returned is
    [(graph, config, flag)] of the reader it leaves. *)
Definition read (doc : option XMLDocument) (this : Reader) : Reader * bool :=
  match doc with
  | None => (this, false)
  | Some doc =>
      match head (filter (fun e => Tag e = "assembly"%string) doc) with
      | None => (this, false)
      | Some root =>
          match FirstChildElement root "agents" with
          | None => (this, false)
          | Some agents_e =>
              match parse_agents agents_e with
              | None => (this, false)
              | Some a =>
                  let this := on_config (set_agents a) this in
                  match FirstChildElement root "graph" with
                  | None => (this, false)
                  | Some graph_e =>
                      match parse_graph graph_e this with
                      | (XML_ERROR_PARSING, this) => (this, false)
                      | (XML_SUCCESS, this) =>
                          match Attribute graph_e "root" with
                          | None => (this, false)
                          | Some attribute_text =>
                              let '(ok, f) :=
                                setRoot attribute_text (graph_gen this) in
                              let this := on_graph_gen (fun _ => f) this in
                              if negb ok then (this, false)
                              else if negb (validate_config (config this) =? 0)%Z
                              then (this, false)
                              else if negb (validate_graph
                                              (graph (graph_gen this)) =? 0)%Z
                              then (this, false)
                              else (this, true)
                          end
                      end
                  end
              end
          end
      end
  end.
End Reader.

Arguments config {GraphFactory} _.
Arguments graph_gen {GraphFactory} _.

(** *** write

    [root] is the identifier of [graph.root].  The elements are put together
    from the inside, which gives the tree the calls of tinyxml2 leave when
    the file is saved.  No document is written where the graph has no node
    for the root or for an end of an edge. *)
Definition write_and (node : nat * AssemblyData) (pRoot : XMLElement)
  : XMLElement :=
  if bool_decide (type node.2 = ACTION \/ type node.2 = INTERACTION) then
    let ag := SetAttribute "name" (assigned_agent node.2) (NewElement "agent") in
    let nd := SetAttribute "type" "AND"
                (SetAttribute "name" (name node.2) (NewElement "node")) in
    InsertFirstChild (InsertFirstChild ag nd) pRoot
  else pRoot.

Definition write_or (node : nat * AssemblyData) (pRoot : XMLElement)
  : XMLElement :=
  if bool_decide (type node.2 = SUBASSEMBLY) then
    let nd := SetAttribute "type" "OR"
                (SetAttribute "name" (name node.2) (NewElement "node")) in
    InsertFirstChild nd pRoot
  else pRoot.

Definition write_edge (g : Graph) (e : option XMLElement) (edge : nat * nat)
  : option XMLElement :=
  match e, nodes_ g !! edge.2, nodes_ g !! edge.1 with
  | Some e, Some destination, Some source =>
      let nd := SetAttribute "to" (name source)
                  (SetAttribute "from" (name destination)
                     (NewElement "edge")) in
      Some (InsertFirstChild nd e)
  | _, _, _ => None
  end.

Definition write (g : Graph) (root : nat) : option XMLDocument :=
  match nodes_ g !! root with
  | None => None
  | Some root_data =>
      let pRoot := NewElement "nodes" in
      let pRoot := foldl (fun p node => write_and node p) pRoot (nodes g) in
      let pRoot := foldl (fun p node => write_or node p) pRoot (nodes g) in
      match foldl (write_edge g) (Some (NewElement "edges")) (edges_ g) with
      | None => None
      | Some e =>
          let g := SetAttribute "root" (name root_data) (NewElement "graph") in
          let g := InsertFirstChild pRoot g in
          let g := InsertEndChild e g in
          Some [g]
      end
  end.

(** *** Properties of the readers *)

Section CostmapFacts.
Variable is_float : string -> bool.
Variable stod : string -> float.

Local Abbreviation parse_cost := (IoXml.parse_cost is_float stod).
Local Abbreviation parse_costs := (IoXml.parse_costs is_float stod).
Local Abbreviation parse_costmap := (IoXml.parse_costmap is_float stod).

(** A [<cost>] the reader accepts. *)
Definition well_formed_cost (c : XMLElement) : Prop :=
  exists a v, Attribute c "agent" = Some a /\ Attribute c "value" = Some v
              /\ (lowercase v = "inf"%string \/ is_float (lowercase v) = true).

(** The cost recorded for a value. *)
Definition recorded (v : string) : float :=
  if String.eqb (lowercase v) "inf" then INT_MAX else stod (lowercase v).

Lemma parse_cost_well_formed c a v m :
  Attribute c "agent" = Some a -> Attribute c "value" = Some v ->
  lowercase v = "inf"%string \/ is_float (lowercase v) = true ->
  parse_cost c m = Some (<[a := recorded v]> m).
Proof.
  unfold IoXml.parse_cost, recorded. intros -> -> H.
  destruct (lowercase v =? "inf")%string eqn:E; [done|].
  destruct H as [H|H]; [|by rewrite H].
  apply String.eqb_neq in E. done.
Qed.

Lemma parse_cost_is_Some c m :
  is_Some (parse_cost c m) <-> well_formed_cost c.
Proof.
  split.
  - unfold IoXml.parse_cost, well_formed_cost. intros [m' H].
    destruct (Attribute c "agent") as [a|]; [|done].
    destruct (Attribute c "value") as [v|]; [|done].
    exists a, v. split_and!; [done..|].
    destruct (lowercase v =? "inf")%string eqn:E.
    + left. by apply String.eqb_eq.
    + right. by destruct (is_float (lowercase v)).
  - intros (a & v & Ha & Hv & H).
    rewrite (parse_cost_well_formed c a v m Ha Hv H). by eexists.
Qed.

Lemma parse_costs_is_Some : forall cs m,
  is_Some (parse_costs cs m) <-> Forall well_formed_cost cs.
Proof.
  induction cs as [|c cs IH]; intros m; simpl.
  { split; [by constructor|by eexists]. }
  rewrite Forall_cons, <- (parse_cost_is_Some c m).
  destruct (parse_cost c m) as [m1|] eqn:E.
  - rewrite IH. split; [by split|by intros [_ ?]].
  - split; [by intros [? ?]|]. by intros [[? ?] _].
Qed.

Lemma parse_costs_keys : forall cs m m',
  parse_costs cs m = Some m' ->
  forall a, is_Some (m' !! a)
            <-> is_Some (m !! a)
                \/ exists c, c ∈ cs /\ Attribute c "agent" = Some a.
Proof.
  induction cs as [|c cs IH]; intros m m'; simpl.
  { intros [= <-] a. split; [by left|].
    intros [?|(c & []%elem_of_nil & _)]. done. }
  destruct (parse_cost c m) as [m1|] eqn:E; [|done].
  intros H a. rewrite (IH _ _ H a).
  assert (is_Some (parse_cost c m)) as (b & v & Hb & Hv & Hw)%parse_cost_is_Some
    by (by eexists).
  rewrite (parse_cost_well_formed c b v m Hb Hv Hw) in E.
  injection E as <-. split.
  - intros [Hs|(c' & Hin & Hc')].
    + destruct (decide (b = a)) as [->|Hne].
      * right. exists c. split; [by left|done].
      * left. by rewrite lookup_insert_ne in Hs.
    + right. exists c'. split; [by right|done].
  - intros [Hs|(c' & Hin & Hc')].
    + left. destruct (decide (b = a)) as [->|Hne].
      * rewrite lookup_insert_eq. by eexists.
      * by rewrite lookup_insert_ne.
    + apply elem_of_cons in Hin as [->|Hin].
      * left. assert (b = a) as -> by congruence.
        rewrite lookup_insert_eq. by eexists.
      * right. by exists c'.
Qed.

Lemma parse_costmap_exact action_node :
  (is_Some (parse_costmap action_node)
   <-> Forall well_formed_cost (ChildElements action_node "cost"))
  /\ forall m, parse_costmap action_node = Some m ->
       (forall a, is_Some (m !! a)
                  <-> exists c, c ∈ ChildElements action_node "cost"
                                /\ Attribute c "agent" = Some a)
       /\ (forall pre c post a v,
             ChildElements action_node "cost" = pre ++ c :: post ->
             Attribute c "agent" = Some a ->
             Attribute c "value" = Some v ->
             Forall (fun c' => Attribute c' "agent" <> Some a) post ->
             m !! a = Some (recorded v)).
Proof.
  unfold IoXml.parse_costmap. split; [apply parse_costs_is_Some|].
  intros m Hm. split.
  - intros a. rewrite (parse_costs_keys _ _ _ Hm a).
    rewrite lookup_empty. split; [|by right].
    intros [[? ?]|?]; done.
  - intros pre c post a v Hch Ha Hv Hpost.
    assert (Forall well_formed_cost (ChildElements action_node "cost")) as Hwf.
    { apply (parse_costs_is_Some _ ∅). by eexists. }
    rewrite Hch in Hm, Hwf.
    apply Forall_app in Hwf as [_ [Hc _]%Forall_cons].
    destruct Hc as (a' & v' & Ha' & Hv' & Hw).
    assert (a' = a) as -> by congruence. assert (v' = v) as -> by congruence.
    apply parse_costs_app in Hm as (m1 & _ & H). simpl in H.
    rewrite (parse_cost_well_formed c a v m1 Ha Hv Hw) in H.
    rewrite (parse_costs_others is_float stod _ _ _ _ Hpost H).
    apply lookup_insert_eq.
Qed.

(** X11: when parse_costmap returns a cost map, every [<cost>] child has an
    agent attribute and a value attribute that is "inf" in any letter case or
    a number; the map has an entry for exactly the agents the children name,
    and for each of them the value of the last child that names it, INT_MAX
    for "inf" and the number read otherwise. *)
Theorem parse_costmap_last_cost_wins action_node m :
  parse_costmap action_node = Some m ->
  Forall well_formed_cost (ChildElements action_node "cost")
  /\ (forall a, is_Some (m !! a)
                <-> exists c, c ∈ ChildElements action_node "cost"
                              /\ Attribute c "agent" = Some a)
  /\ (forall pre c post a v,
        ChildElements action_node "cost" = pre ++ c :: post ->
        Attribute c "agent" = Some a ->
        Attribute c "value" = Some v ->
        Forall (fun c' => Attribute c' "agent" <> Some a) post ->
        m !! a = Some (recorded v)).
Proof.
  intros Hm. destruct (parse_costmap_exact action_node) as [Hs Hv].
  split; [apply Hs; by eexists|]. by apply Hv.
Qed.

End CostmapFacts.

Lemma parse_costmap_last_cost_wins_weld :
  parse_costmap reads_3e9 value_3e9 weld
    = Some (<["human"%string := 3000000000%float]>
              (<["robot"%string := INT_MAX]> ∅))
  /\ Forall (well_formed_cost reads_3e9) (ChildElements weld "cost")
  /\ (forall a, is_Some ((<["human"%string := 3000000000%float]>
                           (<["robot"%string := INT_MAX]> ∅)
                          : gmap string float) !! a)
                <-> exists c, c ∈ ChildElements weld "cost"
                              /\ Attribute c "agent" = Some a)
  /\ (forall pre c post a v,
        ChildElements weld "cost" = pre ++ c :: post ->
        Attribute c "agent" = Some a ->
        Attribute c "value" = Some v ->
        Forall (fun c' => Attribute c' "agent" <> Some a) post ->
        (<["human"%string := 3000000000%float]>
           (<["robot"%string := INT_MAX]> ∅) : gmap string float) !! a
        = Some (recorded value_3e9 v)).
Proof.
  assert (parse_costmap reads_3e9 value_3e9 weld
          = Some (<["human"%string := 3000000000%float]>
                    (<["robot"%string := INT_MAX]> ∅))) as H by done.
  split; [done|].
  exact (parse_costmap_last_cost_wins reads_3e9 value_3e9 weld _ H).
Defined.

(** An [<agent>] the reader accepts. *)
Definition well_formed_agent (e : XMLElement) : Prop :=
  is_Some (Attribute e "name") /\ is_Some (Attribute e "host")
  /\ is_Some (Attribute e "port").

(** Every entry sits under its own name. *)
Definition agents_keyed (m : gmap string Agent) : Prop :=
  forall k a, m !! k = Some a -> agent_name a = k.

Lemma parse_agent_well_formed e n h p m :
  Attribute e "name" = Some n -> Attribute e "host" = Some h ->
  Attribute e "port" = Some p ->
  parse_agent e m
  = Some (<[n := {| agent_name := n; hostname := h; port := p |}]> m).
Proof. unfold parse_agent. by intros -> -> ->. Qed.

Lemma parse_agent_is_Some e m :
  is_Some (parse_agent e m) <-> well_formed_agent e.
Proof.
  unfold parse_agent, well_formed_agent.
  destruct (Attribute e "name"), (Attribute e "host"), (Attribute e "port");
    split; try (by intros [? ?]); try (by intros ([? ?] & [? ?] & [? ?]));
    by intros _; split_and!; eexists.
Qed.

Lemma parse_agent_loop_facts : forall es m m',
  parse_agent_loop es m = Some m' ->
  Forall well_formed_agent es
  /\ (agents_keyed m -> agents_keyed m')
  /\ (forall k, is_Some (m' !! k)
                <-> is_Some (m !! k)
                    \/ exists e, e ∈ es /\ Attribute e "name" = Some k)
  /\ (forall k, Forall (fun e => Attribute e "name" <> Some k) es ->
                m' !! k = m !! k).
Proof.
  induction es as [|e es IH]; intros m m'; simpl.
  { intros [= <-]. split_and!; [done..| |done].
    intros k. split; [by left|]. intros [?|(e & []%elem_of_nil & _)]. done. }
  destruct (parse_agent e m) as [m1|] eqn:E; [|done]. intros H.
  destruct (IH _ _ H) as (Hwf & Hkeyed & Hdom & Hother).
  assert (well_formed_agent e) as He by (apply (parse_agent_is_Some e m); by eexists).
  destruct He as ([n Hn] & [h Hh] & [p Hp]).
  rewrite (parse_agent_well_formed e n h p m Hn Hh Hp) in E. injection E as <-.
  split_and!.
  - constructor; [|done]. split_and!; by eexists.
  - intros Hm. apply Hkeyed. intros k a.
    destruct (decide (n = k)) as [->|Hne].
    + rewrite lookup_insert_eq. by intros [= <-].
    + rewrite lookup_insert_ne by done. apply Hm.
  - intros k. rewrite Hdom. split.
    + intros [Hs|(e' & Hin & He')].
      * destruct (decide (n = k)) as [->|Hne].
        -- right. exists e. split; [by left|done].
        -- left. by rewrite lookup_insert_ne in Hs.
      * right. exists e'. split; [by right|done].
    + intros [Hs|(e' & Hin & He')].
      * left. destruct (decide (n = k)) as [->|Hne].
        -- rewrite lookup_insert_eq. by eexists.
        -- by rewrite lookup_insert_ne.
      * apply elem_of_cons in Hin as [->|Hin].
        -- left. assert (n = k) as -> by congruence.
           rewrite lookup_insert_eq. by eexists.
        -- right. by exists e'.
  - intros k [Hk Hall]%Forall_cons. rewrite (Hother k Hall).
    apply lookup_insert_ne. congruence.
Qed.

Lemma parse_agent_loop_app : forall pre post m m',
  parse_agent_loop (pre ++ post) m = Some m' ->
  exists m1, parse_agent_loop pre m = Some m1
             /\ parse_agent_loop post m1 = Some m'.
Proof.
  induction pre as [|e pre IH]; intros post m m'; simpl.
  { intros H. by exists m. }
  destruct (parse_agent e m) as [m1|]; [|done]. apply IH.
Qed.

Lemma parse_agents_exact agents_root m :
  parse_agents agents_root = Some m ->
  Forall well_formed_agent (ChildElements agents_root "agent")
  /\ agents_keyed m
  /\ (forall k, is_Some (m !! k)
                <-> exists e, e ∈ ChildElements agents_root "agent"
                              /\ Attribute e "name" = Some k)
  /\ (forall pre e post n h p,
        ChildElements agents_root "agent" = pre ++ e :: post ->
        Attribute e "name" = Some n -> Attribute e "host" = Some h ->
        Attribute e "port" = Some p ->
        Forall (fun e' => Attribute e' "name" <> Some n) post ->
        m !! n = Some {| agent_name := n; hostname := h; port := p |}).
Proof.
  unfold parse_agents. intros Hm.
  destruct (parse_agent_loop_facts _ _ _ Hm) as (Hwf & Hkeyed & Hdom & _).
  split_and!; [done|by apply Hkeyed| |].
  - intros k. rewrite Hdom, lookup_empty. split; [|by right].
    intros [[? ?]|?]; done.
  - intros pre e post n h p Hch Hn Hh Hp Hpost. rewrite Hch in Hm.
    apply parse_agent_loop_app in Hm as (m1 & _ & H). simpl in H.
    rewrite (parse_agent_well_formed e n h p m1 Hn Hh Hp) in H.
    destruct (parse_agent_loop_facts _ _ _ H) as (_ & _ & _ & Hother).
    rewrite (Hother n Hpost). apply lookup_insert_eq.
Qed.

(** X13: when parse_agents returns a map, every [<agent>] child has the
    attributes name, host and port; the map has an entry for exactly the
    names the children give, each entry carries the name it is filed under,
    and it holds host and port of the last child of that name. *)
Theorem parse_agents_last_agent_wins agents_root m :
  parse_agents agents_root = Some m ->
  Forall well_formed_agent (ChildElements agents_root "agent")
  /\ (forall k a, m !! k = Some a -> agent_name a = k)
  /\ (forall k, is_Some (m !! k)
                <-> exists e, e ∈ ChildElements agents_root "agent"
                              /\ Attribute e "name" = Some k)
  /\ (forall pre e post n h p,
        ChildElements agents_root "agent" = pre ++ e :: post ->
        Attribute e "name" = Some n -> Attribute e "host" = Some h ->
        Attribute e "port" = Some p ->
        Forall (fun e' => Attribute e' "name" <> Some n) post ->
        m !! n = Some {| agent_name := n; hostname := h; port := p |}).
Proof. apply parse_agents_exact. Qed.

Definition agent_element (n h p : string) : XMLElement :=
  Element "agent" [("name", n); ("host", h); ("port", p)]%string [].

(** A roster in which the robot is listed twice. *)
Definition crew : XMLElement :=
  Element "agents" []
    [agent_element "robot" "10.0.0.1" "80";
     agent_element "human" "10.0.0.2" "80";
     agent_element "robot" "10.0.0.3" "81"].

Definition crew_map : gmap string Agent :=
  <["robot"%string := {| agent_name := "robot"; hostname := "10.0.0.3";
                         port := "81" |}]>
    (<["human"%string := {| agent_name := "human"; hostname := "10.0.0.2";
                            port := "80" |}]>
       (<["robot"%string := {| agent_name := "robot"; hostname := "10.0.0.1";
                               port := "80" |}]> ∅)).

Lemma parse_agents_last_agent_wins_crew :
  parse_agents crew = Some crew_map
  /\ Forall well_formed_agent (ChildElements crew "agent")
  /\ (forall k a, crew_map !! k = Some a -> agent_name a = k)
  /\ (forall k, is_Some (crew_map !! k)
                <-> exists e, e ∈ ChildElements crew "agent"
                              /\ Attribute e "name" = Some k)
  /\ (forall pre e post n h p,
        ChildElements crew "agent" = pre ++ e :: post ->
        Attribute e "name" = Some n -> Attribute e "host" = Some h ->
        Attribute e "port" = Some p ->
        Forall (fun e' => Attribute e' "name" <> Some n) post ->
        crew_map !! n = Some {| agent_name := n; hostname := h; port := p |}).
Proof.
  assert (parse_agents crew = Some crew_map) as H by reflexivity.
  split; [done|].
  exact (parse_agents_last_agent_wins crew crew_map H).
Defined.

(** *** validate_config *)

(** Every agent of the roster has an entry in the map. *)
Definition covers {V} (roster : gmap string Agent) (m : gmap string V) : Prop :=
  forall k a, roster !! k = Some a -> is_Some (m !! agent_name a).

Lemma existsb_missing {V} (roster : gmap string Agent) (m : gmap string V) :
  existsb (fun agent : string * Agent =>
             bool_decide (m !! agent_name agent.2 = None))
    (map_to_list roster) = false
  <-> covers roster m.
Proof.
  unfold covers. split.
  - intros H k a Hk.
    pose proof (existsb_false_elem _ _ (k, a) H) as Hf. simpl in Hf.
    rewrite bool_decide_eq_false in Hf.
    apply not_eq_None_Some, Hf. by apply elem_of_map_to_list.
  - intros H. apply not_true_iff_false. intros Hex.
    apply existsb_exists in Hex as ([k a] & Hin & Hb).
    apply list_elem_of_In, elem_of_map_to_list in Hin.
    simpl in Hb. rewrite bool_decide_eq_true in Hb.
    destruct (H k a Hin) as [? ?]. congruence.
Qed.

Lemma existsb_uncovered {V W} (roster : gmap string Agent)
    (entries : gmap string V) (field : V -> gmap string W) :
  existsb (fun x : string * V =>
             existsb (fun agent : string * Agent =>
                        bool_decide (field x.2 !! agent_name agent.2 = None))
               (map_to_list roster))
    (map_to_list entries) = false
  <-> forall k x, entries !! k = Some x -> covers roster (field x).
Proof.
  split.
  - intros H k x Hk. apply existsb_missing.
    apply (existsb_false_elem _ _ (k, x) H). by apply elem_of_map_to_list.
  - intros H. apply not_true_iff_false. intros Hex.
    apply existsb_exists in Hex as ([k x] & Hin & Hb).
    apply list_elem_of_In, elem_of_map_to_list in Hin.
    pose proof (proj2 (existsb_missing roster (field x)) (H k x Hin)) as Hf.
    simpl in Hb. congruence.
Qed.

Lemma validate_config_exact conf :
  (validate_config conf = 0%Z
   <-> agents conf <> ∅
       /\ (forall k sa, subassemblies conf !! k = Some sa ->
                        covers (agents conf) (reachability sa))
       /\ (forall k action, actions conf !! k = Some action ->
                            covers (agents conf) (costs action)))
  /\ (validate_config conf = 0%Z \/ validate_config conf = (-1)%Z).
Proof.
  unfold validate_config.
  pose proof (existsb_uncovered (agents conf) (subassemblies conf) reachability)
    as Hsa.
  pose proof (existsb_uncovered (agents conf) (actions conf) costs) as Hact.
  destruct (bool_decide (agents conf = ∅)) eqn:E.
  { apply bool_decide_eq_true in E. split; [|by right].
    split; [done|]. by intros [? _]. }
  apply bool_decide_eq_false in E.
  destruct (existsb _ (map_to_list (subassemblies conf))) eqn:E1.
  { split; [|by right]. split; [done|]. intros (_ & H & _).
    apply Hsa in H. congruence. }
  destruct (existsb _ (map_to_list (actions conf))) eqn:E2.
  { split; [|by right]. split; [done|]. intros (_ & _ & H).
    apply Hact in H. congruence. }
  split; [|by left]. split; [|done]. intros _.
  split_and!; [done|by apply Hsa|by apply Hact].
Qed.

(** X14: validate_config returns 0 or -1, and 0 exactly when the roster is
    not empty and the reachability map of every sub-assembly and the cost
    map of every action has an entry under the name of every agent of the
    roster. *)
Theorem validate_config_accepts_iff conf :
  (validate_config conf = 0%Z
   <-> agents conf <> ∅
       /\ (forall k sa, subassemblies conf !! k = Some sa ->
                        covers (agents conf) (reachability sa))
       /\ (forall k action, actions conf !! k = Some action ->
                            covers (agents conf) (costs action)))
  /\ (validate_config conf = 0%Z \/ validate_config conf = (-1)%Z).
Proof. apply validate_config_exact. Qed.

(** *** parse_reachmap and parse_nodes *)

Section ReaderFacts.
Variable is_float : string -> bool.
Variable stod : string -> float.
Variable GraphFactory : Type.
Variable insertOr : string -> GraphFactory -> GraphFactory.
Variable insertAnd : string -> GraphFactory -> GraphFactory.
Variable insertEdge : string -> string -> GraphFactory -> bool * GraphFactory.
Variable setRoot : string -> GraphFactory -> bool * GraphFactory.
Variable graph : GraphFactory -> Graph.

Local Abbreviation parse_costmap := (IoXml.parse_costmap is_float stod).
Local Abbreviation parse_interaction := (parse_interaction is_float stod).
Local Abbreviation parse_reach := (parse_reach is_float stod).
Local Abbreviation parse_reach_loop := (parse_reach_loop is_float stod).
Local Abbreviation parse_reachmap := (parse_reachmap is_float stod).
Local Abbreviation Reader := (Reader GraphFactory).
Local Abbreviation parse_node :=
  (parse_node is_float stod GraphFactory insertOr insertAnd).
Local Abbreviation parse_node_loop :=
  (parse_node_loop is_float stod GraphFactory insertOr insertAnd).
Local Abbreviation parse_nodes :=
  (parse_nodes is_float stod GraphFactory insertOr insertAnd).
Local Abbreviation parse_edge := (parse_edge GraphFactory insertEdge).
Local Abbreviation parse_edge_loop := (parse_edge_loop GraphFactory insertEdge).
Local Abbreviation parse_edges := (parse_edges GraphFactory insertEdge).
Local Abbreviation parse_graph :=
  (parse_graph is_float stod GraphFactory insertOr insertAnd insertEdge).
Local Abbreviation read :=
  (read is_float stod GraphFactory insertOr insertAnd insertEdge setRoot graph).

(** An action is filed under its own name. *)
Definition filed (acts : gmap string Action) (k : string) : Prop :=
  exists act, acts !! k = Some act /\ action_name act = k.

Definition actions_keyed (acts : gmap string Action) : Prop :=
  forall k act, acts !! k = Some act -> action_name act = k.

Definition subassemblies_keyed (subs : gmap string Subassembly) : Prop :=
  forall k sa, subs !! k = Some sa -> subassembly_name sa = k.

(** The interaction of an agent that reaches the part. *)
Definition no_interaction : Action := {| action_name := "-"; costs := ∅ |}.

(** What a [<reach>] element says of the entry made for it. *)
Definition reach_entry (reach : XMLElement) (acts : gmap string Action)
    (x : Reach) : Prop :=
  (reachable x = true /\ interaction x = no_interaction)
  \/ (reachable x = false /\ parse_interaction reach = Some (interaction x)
      /\ filed acts (action_name (interaction x))).

Lemma filed_insert acts act k :
  filed acts k -> filed (<[action_name act := act]> acts) k.
Proof.
  intros (a & Ha & Hn). unfold filed.
  destruct (decide (action_name act = k)) as [<-|Hne].
  - exists act. by rewrite lookup_insert_eq.
  - exists a. by rewrite lookup_insert_ne.
Qed.

Lemma actions_keyed_insert acts act :
  actions_keyed acts -> actions_keyed (<[action_name act := act]> acts).
Proof.
  intros H k a. destruct (decide (action_name act = k)) as [<-|Hne].
  - rewrite lookup_insert_eq. by intros [= <-].
  - rewrite lookup_insert_ne by done. apply H.
Qed.

Lemma reach_entry_mono reach acts acts' x :
  (forall k, filed acts k -> filed acts' k) ->
  reach_entry reach acts x -> reach_entry reach acts' x.
Proof.
  intros Hm [?|(? & ? & ?)]; [by left|]. right. split_and!; [done..|].
  by apply Hm.
Qed.

Lemma parse_reach_facts reach rm acts r acts' :
  parse_reach reach rm acts = (r, acts') ->
  (actions_keyed acts -> actions_keyed acts')
  /\ (forall k, filed acts k -> filed acts' k)
  /\ (forall k, is_Some (acts !! k) -> is_Some (acts' !! k))
  /\ forall rm', r = Some rm' ->
       exists a x, Attribute reach "agent" = Some a
                   /\ rm' = <[a := x]> rm /\ reach_entry reach acts' x.
Proof.
  unfold IoXmlMore.parse_reach.
  destruct (Attribute reach "agent") as [a|] eqn:Ea;
    [|intros [= <- <-]; by split_and!].
  destruct (Attribute reach "reachable") as [text|];
    [|intros [= <- <-]; by split_and!].
  destruct (lowercase text =? "false")%string.
  - destruct (parse_interaction reach) as [i|] eqn:Ei;
      [|intros [= <- <-]; by split_and!].
    intros [= <- <-]. split_and!.
    + apply actions_keyed_insert.
    + intros k. apply filed_insert.
    + intros k Hk. destruct (decide (action_name i = k)) as [<-|Hne].
      * rewrite lookup_insert_eq. by eexists.
      * by rewrite lookup_insert_ne.
    + intros rm' [= <-]. eexists a, _. split_and!; [done..|].
      right. simpl. split_and!; [done..|].
      exists i. by rewrite lookup_insert_eq.
  - destruct (lowercase text =? "true")%string;
      [|intros [= <- <-]; by split_and!].
    intros [= <- <-]. split_and!; [done..|].
    intros rm' [= <-]. eexists a, _. split_and!; [done..|]. by left.
Qed.

Lemma parse_reach_loop_facts : forall reaches rm acts r acts',
  parse_reach_loop reaches rm acts = (r, acts') ->
  (actions_keyed acts -> actions_keyed acts')
  /\ (forall k, filed acts k -> filed acts' k)
  /\ (forall k, is_Some (acts !! k) -> is_Some (acts' !! k))
  /\ forall rm', r = Some rm' ->
       (forall a, is_Some (rm' !! a)
                  <-> is_Some (rm !! a)
                      \/ exists reach, reach ∈ reaches
                                       /\ Attribute reach "agent" = Some a)
       /\ (forall a x, rm' !! a = Some x ->
             rm !! a = Some x
             \/ exists reach, reach ∈ reaches
                              /\ Attribute reach "agent" = Some a
                              /\ reach_entry reach acts' x).
Proof.
  induction reaches as [|reach reaches IH]; intros rm acts r acts'; simpl.
  { intros [= <- <-]. split_and!; [done..|]. intros rm' [= <-]. split.
    - intros a. split; [by left|].
      intros [?|(? & []%elem_of_nil & _)]. done.
    - intros a x ?. by left. }
  destruct (parse_reach reach rm acts) as [[rm1|] acts1] eqn:E.
  2:{ intros [= <- <-].
      destruct (parse_reach_facts _ _ _ _ _ E) as (? & ? & ? & _).
      by split_and!. }
  intros H.
  destruct (parse_reach_facts _ _ _ _ _ E) as (Hk1 & Hf1 & Hs1 & Hr1).
  destruct (IH _ _ _ _ H) as (Hk2 & Hf2 & Hs2 & Hr2).
  split_and!; [by auto..|].
  intros rm' ->. destruct (Hr2 rm' eq_refl) as [Hdom Hent].
  destruct (Hr1 rm1 eq_refl) as (a0 & x0 & Ha0 & -> & Hx0).
  split.
  - intros a. rewrite Hdom. split.
    + intros [Hs|(reach' & Hin & Hr')].
      * destruct (decide (a0 = a)) as [->|Hne].
        -- right. exists reach. split; [by left|done].
        -- left. by rewrite lookup_insert_ne in Hs.
      * right. exists reach'. split; [by right|done].
    + intros [Hs|(reach' & Hin & Hr')].
      * left. destruct (decide (a0 = a)) as [->|Hne].
        -- rewrite lookup_insert_eq. by eexists.
        -- by rewrite lookup_insert_ne.
      * apply elem_of_cons in Hin as [->|Hin].
        -- left. assert (a0 = a) as -> by congruence.
           rewrite lookup_insert_eq. by eexists.
        -- right. by exists reach'.
  - intros a x Hx. destruct (Hent a x Hx) as [Hin|(reach' & Hin & ? & ?)].
    + destruct (decide (a0 = a)) as [->|Hne].
      * rewrite lookup_insert_eq in Hin. injection Hin as ->.
        right. exists reach. split_and!; [by left|done|].
        by apply (reach_entry_mono reach acts1).
      * rewrite lookup_insert_ne in Hin by done. by left.
    + right. exists reach'. split_and!; [by right|done..].
Qed.

(** X15: when parse_reachmap returns a map, the map has an entry for exactly
    the agents the [<reach>] children name; an entry says either reachable,
    with the interaction named "-" and no costs, or not reachable, with the
    interaction parse_interaction reads from a child of that agent, and then
    [config.actions] holds an action under the interaction's name.  Whether
    a map is returned or not, no action is taken out of [config.actions]
    and an action filed under its own name stays so. *)
Theorem parse_reachmap_entries reachmap_root acts r acts' :
  parse_reachmap reachmap_root acts = (r, acts') ->
  (forall k, is_Some (acts !! k) -> is_Some (acts' !! k))
  /\ (actions_keyed acts -> actions_keyed acts')
  /\ forall rm, r = Some rm ->
       (forall a, is_Some (rm !! a)
                  <-> exists reach,
                        reach ∈ ChildElements reachmap_root "reach"
                        /\ Attribute reach "agent" = Some a)
       /\ (forall a x, rm !! a = Some x ->
             exists reach, reach ∈ ChildElements reachmap_root "reach"
                           /\ Attribute reach "agent" = Some a
                           /\ reach_entry reach acts' x).
Proof.
  unfold IoXmlMore.parse_reachmap. intros H.
  destruct (parse_reach_loop_facts _ _ _ _ _ H) as (Hk & _ & Hs & Hr).
  split_and!; [done..|]. intros rm ->.
  destruct (Hr rm eq_refl) as [Hdom Hent]. split.
  - intros a. rewrite Hdom, lookup_empty. split; [|by right].
    intros [[? ?]|?]; done.
  - intros a x Hx. destruct (Hent a x Hx) as [Hin|?]; [|done].
    by rewrite lookup_empty in Hin.
Qed.

(** One node of the document, after it was read. *)
Definition node_read (conf : Configuration) (child : XMLElement) : Prop :=
  exists n, Attribute child "name" = Some n
    /\ ((Attribute child "type" = Some "OR"%string
         /\ exists sa, subassemblies conf !! n = Some sa
                       /\ subassembly_name sa = n)
        \/ (Attribute child "type" = Some "AND"%string
            /\ filed (actions conf) n)).

Definition filed_sub (subs : gmap string Subassembly) (k : string) : Prop :=
  exists sa, subs !! k = Some sa /\ subassembly_name sa = k.

(** What a reader leaves of a configuration it found. *)
Definition extends (conf conf' : Configuration) : Prop :=
  agents conf' = agents conf
  /\ (actions_keyed (actions conf) -> actions_keyed (actions conf'))
  /\ (subassemblies_keyed (subassemblies conf)
      -> subassemblies_keyed (subassemblies conf'))
  /\ (forall k, filed (actions conf) k -> filed (actions conf') k)
  /\ (forall k, filed_sub (subassemblies conf) k
                -> filed_sub (subassemblies conf') k).

Lemma extends_refl conf : extends conf conf.
Proof. by split_and!. Qed.

Lemma extends_trans c1 c2 c3 : extends c1 c2 -> extends c2 c3 -> extends c1 c3.
Proof.
  intros (? & ? & ? & ? & ?) (? & ? & ? & ? & ?).
  split_and!; [congruence|by auto..].
Qed.

Lemma node_read_mono c c' child :
  extends c c' -> node_read c child -> node_read c' child.
Proof.
  intros (_ & _ & _ & Hf & Hs) (n & Hn & [[Ht Hsa]|[Ht Ha]]); exists n;
    (split; [done|]).
  - left. split; [done|]. by apply Hs.
  - right. split; [done|]. by apply Hf.
Qed.

Lemma parse_node_facts child (this this' : Reader) code :
  parse_node child this = (code, this') ->
  extends (config this) (config this')
  /\ (code = XML_SUCCESS -> node_read (config this') child).
Proof.
  unfold IoXmlMore.parse_node.
  destruct (Attribute child "name") as [n|] eqn:En;
    [|intros [= <- <-]; split; [apply extends_refl|done]].
  destruct (Attribute child "type") as [t|] eqn:Et;
    [|intros [= <- <-]; split; [apply extends_refl|done]].
  destruct (t =? "OR")%string eqn:Eor.
  { apply String.eqb_eq in Eor as ->. simpl.
    destruct (IoXmlMore.parse_reachmap is_float stod child
                (actions (config this))) as [r acts] eqn:Er.
    unfold IoXmlMore.parse_reachmap in Er.
    destruct (parse_reach_loop_facts _ _ _ _ _ Er) as (Hk & Hf & _ & _).
    destruct r as [r|]; intros [= <- <-]; simpl.
    - split.
      + split_and!; simpl; [done|done| |done|].
        * intros Hs k sa. destruct (decide (n = k)) as [->|Hne].
          -- rewrite lookup_insert_eq. by intros [= <-].
          -- rewrite lookup_insert_ne by done. apply Hs.
        * intros k (sa & Hsa & Hn). unfold filed_sub.
          destruct (decide (n = k)) as [->|Hne].
          -- eexists. by rewrite lookup_insert_eq.
          -- exists sa. by rewrite lookup_insert_ne.
      + intros _. exists n. split; [done|]. left. split; [done|]. simpl.
        eexists. by rewrite lookup_insert_eq.
    - split; [|done]. by split_and!. }
  destruct (t =? "AND")%string eqn:Eand;
    [|intros [= <- <-]; split; [apply extends_refl|done]].
  apply String.eqb_eq in Eand as ->. simpl.
  destruct (parse_costmap child) as [c|]; intros [= <- <-]; simpl.
  - split.
    + split_and!; simpl; [done| |done| |done].
      * apply (actions_keyed_insert _ {| action_name := n; costs := c |}).
      * intros k. apply (filed_insert _ {| action_name := n; costs := c |}).
    + intros _. exists n. split; [done|]. right. split; [done|]. simpl.
      eexists. by rewrite lookup_insert_eq.
  - split; [apply extends_refl|done].
Qed.

Lemma parse_node_loop_facts : forall children (this this' : Reader) code,
  parse_node_loop children this = (code, this') ->
  extends (config this) (config this')
  /\ (code = XML_SUCCESS -> Forall (node_read (config this')) children).
Proof.
  induction children as [|child children IH]; intros this this' code; simpl.
  { intros [= <- <-]. split; [apply extends_refl|by constructor]. }
  destruct (parse_node child this) as [[] this1] eqn:E.
  - intros H. destruct (parse_node_facts _ _ _ _ E) as [H1 Hc].
    destruct (IH _ _ _ H) as [H2 Hcs].
    split; [by eapply extends_trans|]. intros ->. constructor; [|by apply Hcs].
    eapply node_read_mono; [exact H2|by apply Hc].
  - intros [= <- <-]. split; [|done]. by apply (parse_node_facts _ _ _ _ E).
Qed.

(** X16: parse_nodes leaves the roster of the configuration alone; every
    action and sub-assembly that was filed under its own name is still filed
    so, and when all entries were, they all are; this holds also when it
    reports an error, part of the nodes then having been read.  When it
    reports success, every [<node>] child has a name and the type "OR" or
    "AND", and the configuration holds a sub-assembly or an action under
    that name. *)
Theorem parse_nodes_files_by_name nodes_root (this this' : Reader) code :
  parse_nodes nodes_root this = (code, this') ->
  agents (config this') = agents (config this)
  /\ (actions_keyed (actions (config this))
      -> actions_keyed (actions (config this')))
  /\ (subassemblies_keyed (subassemblies (config this))
      -> subassemblies_keyed (subassemblies (config this')))
  /\ (forall k, filed (actions (config this)) k
                -> filed (actions (config this')) k)
  /\ (code = XML_SUCCESS
      -> Forall (node_read (config this'))
           (ChildElements nodes_root "node")).
Proof.
  unfold IoXmlMore.parse_nodes. intros H.
  destruct (parse_node_loop_facts _ _ _ _ H)
    as ((? & ? & ? & ? & ?) & ?).
  by split_and!.
Qed.

Lemma parse_edge_loop_config : forall children (this this' : Reader) code,
  parse_edge_loop children this = (code, this') ->
  config this' = config this.
Proof.
  induction children as [|child children IH]; intros this this' code; simpl.
  { by intros [= <- <-]. }
  unfold IoXmlMore.parse_edge.
  destruct (Attribute child "start"); [|by intros [= <- <-]].
  destruct (Attribute child "end"); [|by intros [= <- <-]].
  intros H. by rewrite (IH _ _ _ H).
Qed.

Lemma parse_graph_config graph_root (this this' : Reader) code :
  parse_graph graph_root this = (code, this') ->
  extends (config this) (config this').
Proof.
  unfold IoXmlMore.parse_graph.
  destruct (FirstChildElement graph_root "nodes") as [nodes_e|];
    [|intros [= <- <-]; apply extends_refl].
  destruct (IoXmlMore.parse_nodes is_float stod GraphFactory insertOr
              insertAnd nodes_e this) as [[] this1] eqn:E;
    unfold IoXmlMore.parse_nodes in E;
    destruct (parse_node_loop_facts _ _ _ _ E) as [He _].
  - destruct (FirstChildElement graph_root "edges") as [edges_e|];
      [|by intros [= <- <-]].
    unfold IoXmlMore.parse_edges. intros H.
    by rewrite (parse_edge_loop_config _ _ _ _ H).
  - by intros [= <- <-].
Qed.

Lemma read_true_facts doc (this this' : Reader) :
  read doc this = (this', true) ->
  validate_config (config this') = 0%Z
  /\ validate_graph (graph (graph_gen this')) = 0%Z
  /\ exists d root agents_e,
       doc = Some d
       /\ head (filter (fun e => Tag e = "assembly"%string) d) = Some root
       /\ FirstChildElement root "agents" = Some agents_e
       /\ parse_agents agents_e = Some (agents (config this')).
Proof.
  unfold IoXmlMore.read.
  destruct doc as [d|]; [|done].
  destruct (head _) as [root|] eqn:Eroot; [|done].
  destruct (FirstChildElement root "agents") as [agents_e|] eqn:Eag; [|done].
  destruct (parse_agents agents_e) as [a|] eqn:Ea; [|done].
  destruct (FirstChildElement root "graph") as [graph_e|]; [|done].
  destruct (IoXmlMore.parse_graph _ _ _ _ _ _ graph_e _) as [[] this1] eqn:Eg;
    [|done].
  destruct (Attribute graph_e "root") as [text|]; [|done].
  destruct (setRoot text (graph_gen this1)) as [ok f].
  destruct ok; simpl; [|done].
  destruct (validate_config (config this1) =? 0)%Z eqn:Ec; simpl; [|done].
  destruct (validate_graph (graph f) =? 0)%Z eqn:Ev; simpl; [|done].
  intros [= <-]. simpl.
  apply Z.eqb_eq in Ec. apply Z.eqb_eq in Ev.
  split_and!; [done..|].
  exists d, root, agents_e. split_and!; [done..|].
  apply parse_graph_config in Eg as (-> & _). done.
Qed.

(** X17: when [read] returns true, the document has an [<assembly>] element
    with an [<agents>] child, the roster of the configuration returned is
    what parse_agents reads from it, it names at least one agent, every
    agent is filed under its name, every sub-assembly of the configuration
    has a reach entry and every action a cost under every key of the roster,
    and validate_config and validate_graph accept the configuration and the
    graph returned. *)
Theorem read_true_is_validated doc (this this' : Reader) :
  read doc this = (this', true) ->
  validate_config (config this') = 0%Z
  /\ validate_graph (graph (graph_gen this')) = 0%Z
  /\ (exists d root agents_e,
        doc = Some d
        /\ head (filter (fun e => Tag e = "assembly"%string) d) = Some root
        /\ FirstChildElement root "agents" = Some agents_e
        /\ parse_agents agents_e = Some (agents (config this')))
  /\ agents (config this') <> ∅
  /\ agents_keyed (agents (config this'))
  /\ (forall k sa j, subassemblies (config this') !! k = Some sa ->
                     is_Some (agents (config this') !! j) ->
                     is_Some (reachability sa !! j))
  /\ (forall k act j, actions (config this') !! k = Some act ->
                      is_Some (agents (config this') !! j) ->
                      is_Some (costs act !! j)).
Proof.
  intros H. destruct (read_true_facts _ _ _ H) as (Hc & Hg & Hd).
  destruct Hd as (d & root & agents_e & ? & ? & ? & Ha).
  destruct (parse_agents_exact _ _ Ha) as (_ & Hkeyed & _).
  destruct (validate_config_exact (config this')) as [[Hv _] _].
  destruct (Hv Hc) as (Hne & Hsa & Hact).
  split_and!; [done|done|by exists d, root, agents_e|done|done| |].
  - intros k sa j Hk [a Hj]. specialize (Hsa k sa Hk j a Hj).
    by rewrite (Hkeyed j a Hj) in Hsa.
  - intros k act j Hk [a Hj]. specialize (Hact k act Hk j a Hj).
    by rewrite (Hkeyed j a Hj) in Hact.
Qed.
End ReaderFacts.

(** A part the robot reaches and the human does not, the human handing it
    over instead. *)
Definition hand_over : XMLElement :=
  Element "interaction" [("name", "hand")]%string
    [cost_element "robot" "Inf"; cost_element "human" "3000000000"].

Definition part_ab : XMLElement :=
  Element "node" [("name", "ab"); ("type", "OR")]%string
    [Element "reach" [("agent", "robot"); ("reachable", "True")]%string [];
     Element "reach" [("agent", "human"); ("reachable", "FALSE")]%string
       [hand_over]].

Definition hand : Action :=
  {| action_name := "hand";
     costs := <["human"%string := 3000000000%float]>
                (<["robot"%string := INT_MAX]> ∅) |}.

Definition part_ab_reach : gmap string Reach :=
  <["human"%string := {| reachable := false; interaction := hand |}]>
    (<["robot"%string := {| reachable := true;
                            interaction := no_interaction |}]> ∅).

Lemma parse_reachmap_entries_part_ab :
  parse_reachmap reads_3e9 value_3e9 part_ab ∅
    = (Some part_ab_reach, <["hand"%string := hand]> ∅)
  /\ (forall k, is_Some ((∅ : gmap string Action) !! k) ->
                is_Some ((<["hand"%string := hand]> ∅ : gmap string Action) !! k))
  /\ (actions_keyed ∅ -> actions_keyed (<["hand"%string := hand]> ∅))
  /\ forall rm, Some part_ab_reach = Some rm ->
       (forall a, is_Some (rm !! a)
                  <-> exists reach,
                        reach ∈ ChildElements part_ab "reach"
                        /\ Attribute reach "agent" = Some a)
       /\ (forall a x, rm !! a = Some x ->
             exists reach, reach ∈ ChildElements part_ab "reach"
                           /\ Attribute reach "agent" = Some a
                           /\ reach_entry reads_3e9 value_3e9 reach
                                (<["hand"%string := hand]> ∅) x).
Proof.
  assert (parse_reachmap reads_3e9 value_3e9 part_ab ∅
          = (Some part_ab_reach, <["hand"%string := hand]> ∅)) as H
    by reflexivity.
  split; [done|].
  exact (parse_reachmap_entries reads_3e9 value_3e9 part_ab ∅ _ _ H).
Defined.

(** A factory that numbers the nodes in the order they come and links them
    by name. *)
Definition add_node (t : NodeType) (n : string) (g : Graph) : Graph :=
  {| nodes_ := <[size (nodes_ g) := node_of_type t n]> (nodes_ g);
     edges_ := edges_ g |}.

Definition node_named (g : Graph) (n : string) : option nat :=
  fst <$> head (filter (fun x => name x.2 = n) (nodes g)).

Definition link (s e : string) (g : Graph) : bool * Graph :=
  match node_named g s, node_named g e with
  | Some i, Some j => (true, {| nodes_ := nodes_ g; edges_ := edges_ g ++ [(i, j)] |})
  | _, _ => (false, g)
  end.

Definition has_root (n : string) (g : Graph) : bool * Graph :=
  (bool_decide (is_Some (node_named g n)), g).

Definition bench : XMLDocument :=
  [Element "assembly" []
     [Element "agents" [] [agent_element "robot" "10.0.0.1" "80"];
      Element "graph" [("root", "ab")]%string
        [Element "nodes" []
           [Element "node" [("name", "ab"); ("type", "OR")]%string
              [Element "reach" [("agent", "robot"); ("reachable", "True")]%string
                 []];
            Element "node" [("name", "join"); ("type", "AND")]%string
              [cost_element "robot" "inf"]];
         Element "edges" []
           [Element "edge" [("start", "ab"); ("end", "join")]%string []]]]].

Definition fresh_reader : Reader Graph :=
  {| config := {| agents := ∅; actions := ∅; subassemblies := ∅ |};
     graph_gen := {| nodes_ := ∅; edges_ := [] |} |}.

Definition bench_nodes : XMLElement :=
  Element "nodes" []
    [Element "node" [("name", "ab"); ("type", "OR")]%string
       [Element "reach" [("agent", "robot"); ("reachable", "True")]%string []];
     Element "node" [("name", "join"); ("type", "AND")]%string
       [cost_element "robot" "inf"]].

Definition bench_nodes_read : Reader Graph :=
  (parse_nodes reads_3e9 value_3e9 Graph (add_node SUBASSEMBLY)
     (add_node ACTION) bench_nodes fresh_reader).2.

Lemma parse_nodes_files_by_name_bench :
  parse_nodes reads_3e9 value_3e9 Graph (add_node SUBASSEMBLY)
    (add_node ACTION) bench_nodes fresh_reader
    = (XML_SUCCESS, bench_nodes_read)
  /\ agents (config bench_nodes_read) = agents (config fresh_reader)
  /\ (actions_keyed (actions (config fresh_reader))
      -> actions_keyed (actions (config bench_nodes_read)))
  /\ (subassemblies_keyed (subassemblies (config fresh_reader))
      -> subassemblies_keyed (subassemblies (config bench_nodes_read)))
  /\ (forall k, filed (actions (config fresh_reader)) k
                -> filed (actions (config bench_nodes_read)) k)
  /\ (XML_SUCCESS = XML_SUCCESS
      -> Forall (node_read (config bench_nodes_read))
           (ChildElements bench_nodes "node")).
Proof.
  assert (parse_nodes reads_3e9 value_3e9 Graph (add_node SUBASSEMBLY)
            (add_node ACTION) bench_nodes fresh_reader
          = (XML_SUCCESS, bench_nodes_read)) as H by (by vm_compute).
  split; [done|].
  exact (parse_nodes_files_by_name reads_3e9 value_3e9 Graph
           (add_node SUBASSEMBLY) (add_node ACTION) bench_nodes fresh_reader
           bench_nodes_read XML_SUCCESS H).
Defined.

Definition bench_read : Reader Graph :=
  (read reads_3e9 value_3e9 Graph (add_node SUBASSEMBLY) (add_node ACTION)
     link has_root (fun g => g) (Some bench) fresh_reader).1.

Lemma read_true_is_validated_bench :
  read reads_3e9 value_3e9 Graph (add_node SUBASSEMBLY) (add_node ACTION)
    link has_root (fun g => g) (Some bench) fresh_reader = (bench_read, true)
  /\ validate_config (config bench_read) = 0%Z
  /\ validate_graph (graph_gen bench_read) = 0%Z
  /\ (exists d root agents_e,
        Some bench = Some d
        /\ head (filter (fun e => Tag e = "assembly"%string) d) = Some root
        /\ FirstChildElement root "agents" = Some agents_e
        /\ parse_agents agents_e = Some (agents (config bench_read)))
  /\ agents (config bench_read) <> ∅
  /\ agents_keyed (agents (config bench_read))
  /\ (forall k sa j, subassemblies (config bench_read) !! k = Some sa ->
                     is_Some (agents (config bench_read) !! j) ->
                     is_Some (reachability sa !! j))
  /\ (forall k act j, actions (config bench_read) !! k = Some act ->
                      is_Some (agents (config bench_read) !! j) ->
                      is_Some (costs act !! j)).
Proof.
  assert (read reads_3e9 value_3e9 Graph (add_node SUBASSEMBLY)
            (add_node ACTION) link has_root (fun g => g) (Some bench)
            fresh_reader = (bench_read, true)) as H by (by vm_compute).
  split; [done|].
  exact (read_true_is_validated reads_3e9 value_3e9 Graph
           (add_node SUBASSEMBLY) (add_node ACTION) link has_root
           (fun g => g) (Some bench) fresh_reader bench_read H).
Defined.

(** *** write *)

Definition and_element (node : nat * AssemblyData) : XMLElement :=
  Element "node" [("name", name node.2); ("type", "AND")]%string
    [Element "agent" [("name", assigned_agent node.2)]%string []].

Definition or_element (node : nat * AssemblyData) : XMLElement :=
  Element "node" [("name", name node.2); ("type", "OR")]%string [].

Definition edge_element (from to : string) : XMLElement :=
  Element "edge" [("from", from); ("to", to)]%string [].

Definition written_as_and (node : nat * AssemblyData) : Prop :=
  type node.2 = ACTION \/ type node.2 = INTERACTION.

Definition written_as_or (node : nat * AssemblyData) : Prop :=
  type node.2 = SUBASSEMBLY.

(** The element written for an edge: "from" is the name of its destination,
    "to" the name of its source. *)
Definition edge_written (g : Graph) (edge : nat * nat) (el : XMLElement)
  : Prop :=
  exists s d, nodes_ g !! edge.1 = Some s /\ nodes_ g !! edge.2 = Some d
              /\ el = edge_element (name d) (name s).

Lemma write_and_fold t attrs : forall l cs,
  foldl (fun p node => write_and node p) (Element t attrs cs) l
  = Element t attrs (reverse (and_element <$> filter written_as_and l) ++ cs).
Proof.
  induction l as [|node l IH]; intros cs; [done|].
  simpl. unfold write_and at 2.
  destruct (decide (written_as_and node)) as [H|H].
  - rewrite filter_cons_True by done.
    rewrite bool_decide_eq_true_2 by done. simpl. rewrite IH.
    rewrite ?fmap_cons, reverse_cons, <- app_assoc. done.
  - rewrite filter_cons_False by done.
    rewrite bool_decide_eq_false_2 by done. apply IH.
Qed.

Lemma write_or_fold t attrs : forall l cs,
  foldl (fun p node => write_or node p) (Element t attrs cs) l
  = Element t attrs (reverse (or_element <$> filter written_as_or l) ++ cs).
Proof.
  induction l as [|node l IH]; intros cs; [done|].
  simpl. unfold write_or at 2.
  destruct (decide (written_as_or node)) as [H|H].
  - rewrite filter_cons_True by done.
    rewrite bool_decide_eq_true_2 by done. simpl. rewrite IH.
    rewrite ?fmap_cons, reverse_cons, <- app_assoc. done.
  - rewrite filter_cons_False by done.
    rewrite bool_decide_eq_false_2 by done. apply IH.
Qed.

Lemma write_edge_None g : forall l, foldl (write_edge g) None l = None.
Proof. by induction l. Qed.

Lemma write_edge_fold g t attrs : forall l cs e,
  foldl (write_edge g) (Some (Element t attrs cs)) l = Some e ->
  exists els, Forall2 (edge_written g) l els
              /\ e = Element t attrs (reverse els ++ cs).
Proof.
  induction l as [|edge l IH]; intros cs e; simpl.
  { intros [= <-]. exists []. split; [constructor|done]. }
  destruct (nodes_ g !! edge.2) as [d|] eqn:Ed;
    [|by rewrite write_edge_None].
  destruct (nodes_ g !! edge.1) as [s0|] eqn:Es;
    [|by rewrite write_edge_None].
  simpl. intros (els & Hels & ->)%IH.
  exists (edge_element (name d) (name s0) :: els). split.
  - constructor; [|done]. by exists s0, d.
  - by rewrite reverse_cons, <- app_assoc.
Qed.

Lemma write_exact g root doc :
  write g root = Some doc ->
  exists root_data els,
    nodes_ g !! root = Some root_data
    /\ Forall2 (edge_written g) (edges_ g) els
    /\ doc = [Element "graph" [("root", name root_data)]%string
                [Element "nodes" []
                   (reverse (or_element <$> filter written_as_or (nodes g))
                    ++ reverse (and_element
                                  <$> filter written_as_and (nodes g)));
                 Element "edges" [] (reverse els)]].
Proof.
  unfold write. destruct (nodes_ g !! root) as [root_data|]; [|done].
  unfold NewElement. rewrite write_and_fold, write_or_fold.
  destruct (foldl (write_edge g) _ (edges_ g)) as [e|] eqn:E; [|done].
  apply write_edge_fold in E as (els & Hels & ->).
  intros [= <-]. exists root_data, els. split_and!; [done..|].
  simpl. by rewrite !app_nil_r.
Qed.

(** X18: when [write] writes a document, it is one [<graph>] element, with
    the name of the root node as its root attribute, holding [<nodes>] and
    then [<edges>].  [<nodes>] lists the SUBASSEMBLY nodes as type "OR" and
    after them the ACTION and INTERACTION nodes as type "AND", each with an
    [<agent>] child for the assigned agent, both groups in the reverse of
    the order the graph lists its nodes in; INTERASSEMBLY nodes are left
    out.  [<edges>] lists the edges in reverse, each with the name of its
    destination as "from" and the name of its source as "to". *)
Theorem write_document g root doc :
  write g root = Some doc ->
  exists root_data els,
    nodes_ g !! root = Some root_data
    /\ Forall2 (edge_written g) (edges_ g) els
    /\ doc = [Element "graph" [("root", name root_data)]%string
                [Element "nodes" []
                   (reverse (or_element <$> filter written_as_or (nodes g))
                    ++ reverse (and_element
                                  <$> filter written_as_and (nodes g)));
                 Element "edges" [] (reverse els)]].
Proof. apply write_exact. Qed.

Lemma write_document_one_action :
  write one_action 0
    = Some [Element "graph" [("root", "ab")]%string
              [Element "nodes" []
                 [Element "node" [("name", "ab"); ("type", "OR")]%string [];
                  Element "node" [("name", "join"); ("type", "AND")]%string
                    [Element "agent" [("name", "")]%string []]];
               Element "edges" [] [edge_element "join" "ab"]]]
  /\ exists root_data els,
       nodes_ one_action !! 0 = Some root_data
       /\ Forall2 (edge_written one_action) (edges_ one_action) els
       /\ [Element "graph" [("root", "ab")]%string
             [Element "nodes" []
                [Element "node" [("name", "ab"); ("type", "OR")]%string [];
                 Element "node" [("name", "join"); ("type", "AND")]%string
                   [Element "agent" [("name", "")]%string []]];
              Element "edges" [] [edge_element "join" "ab"]]]
          = [Element "graph" [("root", name root_data)]%string
               [Element "nodes" []
                  (reverse (or_element
                              <$> filter written_as_or (nodes one_action))
                   ++ reverse (and_element
                                 <$> filter written_as_and (nodes one_action)));
                Element "edges" [] (reverse els)]].
Proof.
  assert (write one_action 0
          = Some [Element "graph" [("root", "ab")]%string
                    [Element "nodes" []
                       [Element "node" [("name", "ab"); ("type", "OR")]%string
                          [];
                        Element "node"
                          [("name", "join"); ("type", "AND")]%string
                          [Element "agent" [("name", "")]%string []]];
                     Element "edges" [] [edge_element "join" "ab"]]]) as H
    by (by vm_compute).
  split; [done|].
  exact (write_document one_action 0 _ H).
Defined.

Section WriteRead.
Variable is_float : string -> bool.
Variable stod : string -> float.
Variable GraphFactory : Type.
Variable insertOr : string -> GraphFactory -> GraphFactory.
Variable insertAnd : string -> GraphFactory -> GraphFactory.
Variable insertEdge : string -> string -> GraphFactory -> bool * GraphFactory.
Variable setRoot : string -> GraphFactory -> bool * GraphFactory.
Variable graph : GraphFactory -> Graph.

Local Abbreviation parse_edges := (parse_edges GraphFactory insertEdge).
Local Abbreviation read :=
  (read is_float stod GraphFactory insertOr insertAnd insertEdge setRoot graph).

Lemma filter_tag_all t (els : list XMLElement) :
  Forall (fun el => Tag el = t) els ->
  filter (fun c => Tag c = t) els = els.
Proof.
  induction 1 as [|el els Hel _ IH]; [done|].
  by rewrite filter_cons_True, IH.
Qed.

(** X19: a document that [write] wrote is not read back: [read] returns
    false on it and leaves the reader as it was, the document having a
    [<graph>] and no [<assembly>] element at the top; and its [<edges>]
    element, which has one [<edge>] for every edge of the graph, makes
    parse_edges report an error as soon as the graph has an edge, the edges
    being written with "from" and "to" and read with "start" and "end". *)
Theorem write_is_not_read_back g root doc :
  write g root = Some doc ->
  exists graph_e edges_e,
    doc = [graph_e]
    /\ FirstChildElement graph_e "edges" = Some edges_e
    /\ length (ChildElements edges_e "edge") = length (edges_ g)
    /\ (edges_ g <> [] ->
        forall this, parse_edges edges_e this = (XML_ERROR_PARSING, this))
    /\ forall this, read (Some doc) this = (this, false).
Proof.
  intros (root_data & els & _ & Hels & ->)%write_exact.
  eexists _, _. split; [reflexivity|].
  assert (Forall (fun el => Tag el = "edge"%string
                            /\ Attribute el "start" = None) els) as Htags.
  { clear -Hels. induction Hels as [|edge el ? ? (s & d & _ & _ & ->) _ IH];
      constructor; done. }
  assert (ChildElements (Element "edges" [] (reverse els)) "edge"
          = reverse els) as Hch.
  { simpl. apply filter_tag_all. apply Forall_reverse.
    eapply Forall_impl; [exact Htags|]. by intros ? [? _]. }
  split_and!; [done| | |done].
  - rewrite Hch, length_reverse. symmetry. by eapply Forall2_length.
  - intros Hne this. unfold IoXmlMore.parse_edges. rewrite Hch.
    destruct (reverse els) as [|el rest] eqn:E.
    { apply (f_equal length) in E. rewrite length_reverse in E.
      apply Forall2_length in Hels. destruct (edges_ g); simpl in *; [done|lia]. }
    assert (el ∈ els) as Hin.
    { apply elem_of_reverse. rewrite E. by left. }
    rewrite Forall_forall in Htags. destruct (Htags el Hin) as [_ Hstart].
    simpl. unfold parse_edge. by rewrite Hstart.
Qed.

End WriteRead.

Lemma write_is_not_read_back_one_action :
  write one_action 0
    = Some [Element "graph" [("root", "ab")]%string
              [Element "nodes" []
                 [Element "node" [("name", "ab"); ("type", "OR")]%string [];
                  Element "node" [("name", "join"); ("type", "AND")]%string
                    [Element "agent" [("name", "")]%string []]];
               Element "edges" [] [edge_element "join" "ab"]]]
  /\ exists graph_e edges_e,
       [Element "graph" [("root", "ab")]%string
          [Element "nodes" []
             [Element "node" [("name", "ab"); ("type", "OR")]%string [];
              Element "node" [("name", "join"); ("type", "AND")]%string
                [Element "agent" [("name", "")]%string []]];
           Element "edges" [] [edge_element "join" "ab"]]] = [graph_e]
       /\ FirstChildElement graph_e "edges" = Some edges_e
       /\ length (ChildElements edges_e "edge") = length (edges_ one_action)
       /\ (edges_ one_action <> [] ->
           forall this, parse_edges Graph link edges_e this
                        = (XML_ERROR_PARSING, this))
       /\ forall this,
            read reads_3e9 value_3e9 Graph (add_node SUBASSEMBLY)
              (add_node ACTION) link has_root (fun g => g)
              (Some [Element "graph" [("root", "ab")]%string
                       [Element "nodes" []
                          [Element "node"
                             [("name", "ab"); ("type", "OR")]%string [];
                           Element "node"
                             [("name", "join"); ("type", "AND")]%string
                             [Element "agent" [("name", "")]%string []]];
                        Element "edges" [] [edge_element "join" "ab"]]])
              this
            = (this, false).
Proof.
  assert (write one_action 0
          = Some [Element "graph" [("root", "ab")]%string
                    [Element "nodes" []
                       [Element "node" [("name", "ab"); ("type", "OR")]%string
                          [];
                        Element "node"
                          [("name", "join"); ("type", "AND")]%string
                          [Element "agent" [("name", "")]%string []]];
                     Element "edges" [] [edge_element "join" "ab"]]]) as H
    by (by vm_compute).
  split; [done|].
  exact (write_is_not_read_back reads_3e9 value_3e9 Graph
           (add_node SUBASSEMBLY) (add_node ACTION) link has_root
           (fun g => g) one_action 0 _ H).
Defined.

(** *** validate_graph *)

Lemma rejected_true node other :
  rejected node other = true ->
  checked (type node) /\ ~ opposite (type other) (type node).
Proof.
  unfold rejected, checked, opposite.
  destruct (type node), (type other); simpl; intros H; try done;
    (split; [by auto|]); intros [[? ?]|[? ?]]; done.
Qed.

(** X30: validate_graph returns 0 or -1, and 0 exactly when every edge
    between two nodes of the graph that has an ACTION or a SUBASSEMBLY at
    either end runs SUBASSEMBLY->ACTION or ACTION->SUBASSEMBLY. *)
Theorem validate_graph_accepts_iff g :
  (validate_graph g = 0%Z
   <-> forall s d ns nd,
         (s, d) ∈ edges_ g ->
         nodes_ g !! s = Some ns -> nodes_ g !! d = Some nd ->
         checked (type ns) \/ checked (type nd) ->
         opposite (type ns) (type nd))
  /\ (validate_graph g = 0%Z \/ validate_graph g = (-1)%Z).
Proof.
  unfold validate_graph.
  destruct (existsb _ (nodes g)) eqn:E; (split; [|by auto]).
  - split; [done|]. intros Halt. exfalso.
    apply existsb_exists in E as ([i n] & Hin & Hb).
    apply list_elem_of_In, elem_of_map_to_list in Hin. simpl in Hb.
    apply orb_true_iff in Hb as [Hb|Hb];
      apply existsb_exists in Hb as (other & Ho & Hr);
      apply list_elem_of_In, list_elem_of_omap in Ho as ([s d] & Hedge & Ho);
      simpl in Ho; apply rejected_true in Hr as [Hc Hno].
    + destruct (decide (d = i)) as [->|]; [|done].
      apply Hno. by apply (Halt s i other n); [..|right].
    + destruct (decide (s = i)) as [->|]; [|done].
      assert (opposite (type n) (type other)) as Hopp
        by (by apply (Halt i d n other); [..|left]).
      apply Hno. unfold opposite in *. tauto.
  - split; [|done]. intros _ s d ns nd Hedge Hs Hd [Hc|Hc].
    + assert ((s, ns) ∈ nodes g) as Hin by (by apply elem_of_map_to_list).
      pose proof (existsb_false_elem _ _ _ E Hin) as H. simpl in H.
      apply orb_false_iff in H as [_ H].
      assert (nd ∈ getSuccessorNodes g s) as Hnd.
      { apply list_elem_of_omap. exists (s, d). split; [done|]. simpl.
        by rewrite decide_True. }
      pose proof (rejected_false _ _ (existsb_false_elem _ _ _ H Hnd) Hc) as Ho.
      unfold opposite in *. tauto.
    + assert ((d, nd) ∈ nodes g) as Hin by (by apply elem_of_map_to_list).
      pose proof (existsb_false_elem _ _ _ E Hin) as H. simpl in H.
      apply orb_false_iff in H as [H _].
      assert (ns ∈ getPredecessorNodes g d) as Hns.
      { apply list_elem_of_omap. exists (s, d). split; [done|]. simpl.
        by rewrite decide_True. }
      exact (rejected_false _ _ (existsb_false_elem _ _ _ H Hns) Hc).
Qed.

End IoXmlMore.

(** ** graph.hpp: the graph stays sound under its operations *)

Module GraphSound.
Import Graph GraphFacts.

Section GraphSound.
Context {nodeData edgeData : Type}.
Local Abbreviation Graph := (Graph.Graph nodeData edgeData).
Local Abbreviation Node := (Graph.Node nodeData).
Local Abbreviation Edge := (Graph.Edge edgeData).

(** *** insertEdges *)
Definition insertEdges (d : edgeData) (srcNodeId : nat)
    (destNodeId : list nat) (g : Graph) : outcome (nat * Graph) :=
  g ← for_each (fun dst g => r ← insertEdge d srcNodeId dst g; Done r.2)
        destNodeId g;
  Done (length (edges_ g), g).

(** *** Soundness of a graph *)

(** The edge object [e] is live and starts (ends) at the node object [p]. *)
Definition from (objects : gmap nat Edge) (p e : nat) : Prop :=
  source <$> objects !! e = Some p.

Definition to (objects : gmap nat Edge) (p e : nat) : Prop :=
  destination <$> objects !! e = Some p.

#[global] Instance from_dec objects p e : Decision (from objects p e).
Proof. unfold from. apply _. Defined.

#[global] Instance to_dec objects p e : Decision (to objects p e).
Proof. unfold to. apply _. Defined.

(** The node object [p] is the node of some identifier. *)
Definition bound (g : Graph) (p : nat) : Prop :=
  exists id, nodes_ g !! id = Some p.

(** Every identifier names a live node that carries this identifier and
    lists, in the order of [edges_], the edges that start and that end at
    it; no edge is stored twice; every stored edge is live and joins nodes
    of the graph. *)
Record sound (g : Graph) : Prop := {
  sound_nodes : forall id p, nodes_ g !! id = Some p ->
    exists n, node_objects g !! p = Some n /\ id_ n = id
              /\ children n = filter (from (edge_objects g) p) (edges_ g)
              /\ parents n = filter (to (edge_objects g) p) (edges_ g);
  sound_NoDup : NoDup (edges_ g);
  sound_edges : forall e, e ∈ edges_ g ->
    exists edge, edge_objects g !! e = Some edge
                 /\ bound g (source edge) /\ bound g (destination edge)
}.

Lemma sound_empty : sound Graph.empty.
Proof.
  split; simpl.
  - intros id p. by rewrite lookup_empty.
  - constructor.
  - by intros e ?%elem_of_nil.
Qed.

Lemma bound_live (g : Graph) p :
  sound g -> bound g p -> is_Some (node_objects g !! p).
Proof.
  intros Hs [id Hid]. destruct (sound_nodes g Hs id p Hid) as (n & Hn & _).
  by eexists.
Qed.

Lemma bound_id (g : Graph) id id' p :
  sound g -> nodes_ g !! id = Some p -> nodes_ g !! id' = Some p -> id = id'.
Proof.
  intros Hs H H'.
  destruct (sound_nodes g Hs id p H) as (n & Hn & <- & _).
  destruct (sound_nodes g Hs id' p H') as (n' & Hn' & <- & _).
  congruence.
Qed.

Lemma sound_is_node (g : Graph) p : sound g -> bound g p -> is_node g p.
Proof.
  intros Hs [id Hid]. destruct (sound_nodes g Hs id p Hid) as (n & Hn & <- & _).
  by exists n.
Qed.

Lemma sound_integrity (g : Graph) : sound g -> integrity g.
Proof.
  intros Hs e He. destruct (sound_edges g Hs e He) as (edge & ? & ? & ?).
  exists edge. split_and!; [done|by apply sound_is_node..].
Qed.

Lemma edge_live (g : Graph) e :
  sound g -> e ∈ edges_ g -> is_Some (edge_objects g !! e).
Proof. intros Hs He. destruct (sound_edges g Hs e He) as (? & ? & _). by eexists. Qed.

Lemma filter_none {A} (P : A -> Prop) `{!forall x, Decision (P x)} (l : list A) :
  (forall x, x ∈ l -> ~ P x) -> filter P l = [].
Proof.
  induction l as [|x l IH]; intros Hl; [done|].
  rewrite filter_cons_False by (apply Hl; by left).
  apply IH. intros y Hy. apply Hl. by right.
Qed.

Lemma filter_agree {A} (P Q : A -> Prop) `{!forall x, Decision (P x)}
    `{!forall x, Decision (Q x)} (l : list A) :
  (forall x, x ∈ l -> P x <-> Q x) -> filter P l = filter Q l.
Proof.
  induction l as [|x l IH]; intros Hl; [done|].
  assert (filter P l = filter Q l) as IH'.
  { apply IH. intros y Hy. apply Hl. by right. }
  destruct (decide (P x)) as [Hp|Hp].
  - rewrite !filter_cons_True; [by f_equal|by apply Hl; [left|]|done].
  - rewrite !filter_cons_False; [done| |done].
    intros Hq. apply Hp, Hl; [by left|done].
Qed.

(** *** insertNode *)

Lemma insertNode_keeps_sound (g : Graph) id d :
  sound g ->
  exists r g', insertNode id d g = Done (r, g') /\ sound g'
    /\ edges_ g' = edges_ g /\ edge_objects g' = edge_objects g
    /\ (forall id', id' <> id -> nodes_ g' !! id' = nodes_ g !! id')
    /\ (is_Some (nodes_ g !! id) -> nodes_ g' = nodes_ g)
    /\ (nodes_ g !! id = None ->
        r = numberOfNodes g /\ numberOfNodes g' = S (numberOfNodes g)
        /\ exists p, nodes_ g' !! id = Some p /\ node_objects g !! p = None
             /\ node_objects g' !! p
                = Some {| id_ := id; data := d; parents := [];
                          children := [] |}).
Proof.
  intros Hs. unfold insertNode. simpl.
  set (p := fresh (dom (node_objects g))).
  assert (node_objects g !! p = None) as Hp.
  { apply not_elem_of_dom. apply is_fresh. }
  assert (forall q, bound g q -> q <> p) as Hfresh.
  { intros q Hq ->. destruct (bound_live g p Hs Hq) as [? ?]. congruence. }
  destruct (nodes_ g !! id) as [p0|] eqn:Eid.
  - eexists _, _. split; [reflexivity|]. simpl.
    split_and!; [|done|done|done|done|done].
    split; simpl.
    + intros id' p' Hid'.
      destruct (sound_nodes g Hs id' p' Hid') as (n & Hn & ?).
      exists n. split; [|done]. rewrite lookup_insert_ne; [done|].
      apply not_eq_sym, Hfresh. by exists id'.
    + apply (sound_NoDup g Hs).
    + intros e He. destruct (sound_edges g Hs e He) as (edge & ? & ? & ?).
      by exists edge.
  - eexists _, _. split; [reflexivity|]. simpl.
    assert (forall q, bound g q ->
              bound (set_nodes_ (<[id := p]> (nodes_ g))
                       (set_node_objects
                          (<[p := {| id_ := id; data := d; parents := [];
                                     children := [] |}]> (node_objects g)) g))
                    q) as Hbound.
    { intros q [id' Hid']. exists id'. simpl. rewrite lookup_insert_ne; [done|].
      intros <-. congruence. }
    split_and!; [|done|done| |done|].
    + split; simpl.
      * intros id' p'. destruct (decide (id = id')) as [<-|Hne].
        -- rewrite lookup_insert_eq. intros [= <-].
           eexists. rewrite lookup_insert_eq. split_and!; [done|done|..]; simpl;
             symmetry; apply filter_none; intros e He.
           ++ unfold from. destruct (sound_edges g Hs e He) as (edge & -> & Hb & _).
              simpl. intros [= E]. by apply (Hfresh _ Hb).
           ++ unfold to. destruct (sound_edges g Hs e He) as (edge & -> & _ & Hb).
              simpl. intros [= E]. by apply (Hfresh _ Hb).
        -- rewrite lookup_insert_ne by done. intros Hid'.
           destruct (sound_nodes g Hs id' p' Hid') as (n & Hn & ?).
           exists n. split; [|done]. rewrite lookup_insert_ne; [done|].
           apply not_eq_sym, Hfresh. by exists id'.
      * apply (sound_NoDup g Hs).
      * intros e He. destruct (sound_edges g Hs e He) as (edge & ? & ? & ?).
        exists edge. split_and!; [done|by apply Hbound..].
    + intros id' Hne. by rewrite lookup_insert_ne.
    + intros _. unfold numberOfNodes. simpl.
      rewrite map_size_insert_None by done. split_and!; [lia|done|].
      exists p. rewrite !lookup_insert_eq. done.
Qed.

(** *** insertEdge *)

Lemma filter_from_snoc (objects : gmap nat Edge) (l : list nat) e edge p :
  objects !! e = None -> (forall x, x ∈ l -> is_Some (objects !! x)) ->
  filter (from (<[e := edge]> objects) p) (l ++ [e])
  = filter (from objects p) l ++ (if decide (source edge = p) then [e] else []).
Proof.
  intros He Hl. rewrite filter_app. f_equal.
  - apply filter_agree. intros x Hx. unfold from.
    rewrite lookup_insert_ne; [done|]. intros <-.
    destruct (Hl e Hx) as [? ?]. congruence.
  - destruct (decide (source edge = p)) as [Hp|Hp].
    + rewrite filter_cons_True; [done|]. unfold from.
      rewrite lookup_insert_eq. simpl. by f_equal.
    + rewrite filter_cons_False; [done|]. unfold from.
      rewrite lookup_insert_eq. simpl. congruence.
Qed.

Lemma filter_to_snoc (objects : gmap nat Edge) (l : list nat) e edge p :
  objects !! e = None -> (forall x, x ∈ l -> is_Some (objects !! x)) ->
  filter (to (<[e := edge]> objects) p) (l ++ [e])
  = filter (to objects p) l
    ++ (if decide (destination edge = p) then [e] else []).
Proof.
  intros He Hl. rewrite filter_app. f_equal.
  - apply filter_agree. intros x Hx. unfold to.
    rewrite lookup_insert_ne; [done|]. intros <-.
    destruct (Hl e Hx) as [? ?]. congruence.
  - destruct (decide (destination edge = p)) as [Hp|Hp].
    + rewrite filter_cons_True; [done|]. unfold to.
      rewrite lookup_insert_eq. simpl. by f_equal.
    + rewrite filter_cons_False; [done|]. unfold to.
      rewrite lookup_insert_eq. simpl. congruence.
Qed.

Lemma insertEdge_keeps_sound (g : Graph) d s t ps pt :
  sound g -> nodes_ g !! s = Some ps -> nodes_ g !! t = Some pt ->
  exists g' e,
    insertEdge d s t g = Done (S (numberOfEdges g), g') /\ sound g'
    /\ nodes_ g' = nodes_ g
    /\ edges_ g' = edges_ g ++ [e]
    /\ edge_objects g !! e = None
    /\ edge_objects g'
       = <[e := {| edge_data := d; source := ps; destination := pt |}]>
           (edge_objects g).
Proof.
  intros Hs Hps Hpt.
  destruct (sound_nodes g Hs s ps Hps) as (ns & Hns & Hids & Hcs & Hpas).
  destruct (sound_nodes g Hs t pt Hpt) as (nt & Hnt & Hidt & Hct & Hpat).
  unfold insertEdge. rewrite Hps, Hpt.
  set (e := fresh (dom (edge_objects g))).
  assert (edge_objects g !! e = None) as He.
  { apply not_elem_of_dom. apply is_fresh. }
  assert (forall x, x ∈ edges_ g -> is_Some (edge_objects g !! x)) as Hlive.
  { intros x Hx. by apply edge_live. }
  unfold on_node, node_at, addSuccessor, addPredecessor. simpl.
  rewrite Hns. simpl.
  set (ns' := {| id_ := id_ ns; data := data ns; parents := parents ns;
                 children := children ns ++ [e] |}).
  assert (exists nt0, <[ps := ns']> (node_objects g) !! pt = Some nt0
            /\ nt0 = (if decide (ps = pt) then ns' else nt)) as (nt0 & Hnt0 & Ent0).
  { destruct (decide (ps = pt)) as [->|Hne].
    - rewrite lookup_insert_eq. by eexists.
    - rewrite lookup_insert_ne by done. by eexists. }
  rewrite Hnt0. simpl. eexists _, e. unfold numberOfEdges.
  rewrite length_app. simpl. rewrite Nat.add_1_r.
  split; [reflexivity|]. simpl. split_and!; [|done..].
  split; simpl.
  - intros id p Hid.
    rewrite (filter_from_snoc _ _ _ _ p He Hlive).
    rewrite (filter_to_snoc _ _ _ _ p He Hlive). simpl.
    destruct (sound_nodes g Hs id p Hid) as (n & Hn & Hidn & Hc & Hpa).
    destruct (decide (pt = p)) as [<-|Hnpt].
    + rewrite lookup_insert_eq. eexists. split; [done|]. simpl.
      assert (n = nt) as -> by congruence.
      destruct (decide (ps = pt)) as [Heq|Hne].
      * subst nt0. simpl. assert (ns = nt) as -> by congruence.
        rewrite Hc, Hpa. done.
      * subst nt0. rewrite Hc, Hpa, app_nil_r. done.
    + rewrite lookup_insert_ne by done.
      destruct (decide (ps = p)) as [<-|Hnps].
      * rewrite lookup_insert_eq. eexists. split; [done|]. simpl.
        assert (n = ns) as -> by congruence.
        rewrite Hc, Hpa, app_nil_r. done.
      * rewrite lookup_insert_ne by done. exists n.
        rewrite !app_nil_r. done.
  - apply NoDup_app. split_and!; [apply (sound_NoDup g Hs)| |apply NoDup_singleton].
    intros x Hx Hx'. apply list_elem_of_singleton in Hx'. subst x.
    destruct (Hlive e Hx) as [? ?]. congruence.
  - intros x [Hx|Hx]%elem_of_app; [|apply list_elem_of_singleton in Hx; subst x].
    + destruct (sound_edges g Hs x Hx) as (edge & Hedge & ? & ?).
      exists edge. split; [|done]. rewrite lookup_insert_ne; [done|].
      intros <-. congruence.
    + eexists. rewrite lookup_insert_eq. split; [done|]. simpl.
      split; [by exists s|by exists t].
Qed.

(** *** findEdge *)

(** The edge [e] runs from the node object [ps] to the node object [pt]. *)
Definition joins (objects : gmap nat Edge) (ps pt e : nat) : Prop :=
  from objects ps e /\ to objects pt e.

(** [e] is the first edge of the list that runs from [ps] to [pt]. *)
Definition first_joining (objects : gmap nat Edge) (ps pt : nat)
    (l : list nat) (l1 : list nat) (e : nat) (l2 : list nat) : Prop :=
  l = l1 ++ e :: l2 /\ joins objects ps pt e
  /\ Forall (fun x => ~ joins objects ps pt x) l1.

Lemma find_from_spec (g : Graph) ps pt : forall es j,
  (forall x, x ∈ es -> is_Some (edge_objects g !! x)) ->
  (exists l1 e l2, first_joining (edge_objects g) ps pt es l1 e l2
     /\ find_from g ps pt j es = Done (true, Some (j + length l1)))
  \/ (Forall (fun x => ~ joins (edge_objects g) ps pt x) es
      /\ find_from g ps pt j es = Done (false, None)).
Proof.
  induction es as [|e es IH]; intros j Hlive.
  { right. by split. }
  destruct (Hlive e) as [edge Hedge]; [by left|].
  simpl. unfold edge_at. rewrite Hedge. simpl.
  destruct (decide (source edge = ps /\ destination edge = pt)) as [[Hs Hd]|Hno].
  - left. exists [], e, es. split.
    + split_and!; [done| |done]. unfold joins, from, to. rewrite Hedge. simpl.
      by subst.
    + simpl. by rewrite Nat.add_0_r.
  - assert (~ joins (edge_objects g) ps pt e) as Hno'.
    { unfold joins, from, to. rewrite Hedge. simpl. intros [[= ?] [= ?]].
      by apply Hno. }
    destruct (IH (S j)) as [(l1 & e' & l2 & (-> & Hj & Hl1) & ->)|[Hall ->]].
    { intros x Hx. apply Hlive. by right. }
    + left. exists (e :: l1), e', l2. split.
      * split_and!; [done..|]. by constructor.
      * simpl. do 3 f_equal. lia.
    + right. split; [|done]. by constructor.
Qed.

Lemma findEdge_on_sound (g : Graph) s t :
  sound g ->
  (exists ps pt l1 e l2,
     nodes_ g !! s = Some ps /\ nodes_ g !! t = Some pt
     /\ first_joining (edge_objects g) ps pt (edges_ g) l1 e l2
     /\ findEdge s t g = Done (true, Some (length l1)))
  \/ ((nodes_ g !! s = None \/ nodes_ g !! t = None)
      /\ findEdge s t g = Done (false, Some 0))
  \/ (exists ps pt,
        nodes_ g !! s = Some ps /\ nodes_ g !! t = Some pt
        /\ Forall (fun x => ~ joins (edge_objects g) ps pt x) (edges_ g)
        /\ findEdge s t g = Done (false, None)).
Proof.
  intros Hs. unfold findEdge.
  destruct (nodes_ g !! s) as [ps|] eqn:Eps; [|right; left; split; [by left|done]].
  destruct (nodes_ g !! t) as [pt|] eqn:Ept; [|right; left; split; [by right|done]].
  destruct (find_from_spec g ps pt (edges_ g) 0)
    as [(l1 & e & l2 & Hf & ->)|[Hall ->]].
  { intros x Hx. by apply edge_live. }
  - left. by exists ps, pt, l1, e, l2.
  - right. right. by exists ps, pt.
Qed.

(** *** eraseEdge *)

(** The list without its first element for which [Q] holds. *)
Fixpoint remove_where {A} (Q : A -> Prop) `{!forall x, Decision (Q x)}
    (l : list A) : list A :=
  match l with
  | [] => []
  | x :: rest => if decide (Q x) then rest else x :: remove_where Q rest
  end.

Lemma remove_where_middle {A} (Q : A -> Prop) `{!forall x, Decision (Q x)}
    (l1 : list A) e l2 :
  Forall (fun x => ~ Q x) l1 -> Q e ->
  remove_where Q (l1 ++ e :: l2) = l1 ++ l2.
Proof.
  intros Hl1 He. induction Hl1 as [|x l1 Hx _ IH]; simpl.
  - by rewrite decide_True.
  - rewrite decide_False by done. by rewrite IH.
Qed.

Lemma remove_where_none {A} (Q : A -> Prop) `{!forall x, Decision (Q x)}
    (l : list A) :
  Forall (fun x => ~ Q x) l -> remove_where Q l = l.
Proof.
  induction 1 as [|x l Hx _ IH]; simpl; [done|].
  rewrite decide_False by done. by rewrite IH.
Qed.

Lemma remove_first_spec (g : Graph) (far : Edge -> nat) id ptr : forall es,
  (forall x, x ∈ es ->
     exists edge n, edge_objects g !! x = Some edge
                    /\ node_objects g !! far edge = Some n
                    /\ (id_ n = id <-> far edge = ptr)) ->
  remove_first g far id es
  = Done (remove_where (fun x => far <$> edge_objects g !! x = Some ptr) es).
Proof.
  induction es as [|e es IH]; intros Hes; [done|].
  destruct (Hes e) as (edge & n & Hedge & Hn & Hid); [by left|].
  simpl. unfold edge_at, node_at. rewrite Hedge. simpl. rewrite Hn. simpl.
  rewrite IH by (intros x Hx; apply Hes; by right). simpl.
  destruct (decide (id_ n = id)) as [Hy|Hy].
  - rewrite decide_True; [done|]. f_equal. by apply Hid.
  - rewrite decide_False; [done|]. intros [= E]. by apply Hy, Hid.
Qed.

(** On a sound graph an edge ends at the node of an identifier exactly when
    the node it ends at carries the identifier, which is how
    [removeSuccessor] and [removePredecessor] look for it. *)
Lemma far_end_id (g : Graph) id p q :
  sound g -> nodes_ g !! id = Some p -> bound g q ->
  exists n, node_objects g !! q = Some n /\ (id_ n = id <-> q = p).
Proof.
  intros Hs Hid [id' Hid'].
  destruct (sound_nodes g Hs id' q Hid') as (n & Hn & Hidn & _).
  exists n. split; [done|]. split.
  - intros E. subst. congruence.
  - intros ->. rewrite Hidn. exact (bound_id g id' id p Hs Hid' Hid).
Qed.

Lemma filter_middle {A} (P : A -> Prop) `{!forall x, Decision (P x)}
    (l1 : list A) e l2 :
  filter P (l1 ++ e :: l2)
  = filter P l1 ++ (if decide (P e) then [e] else []) ++ filter P l2.
Proof.
  rewrite filter_app, filter_cons. by destruct (decide (P e)).
Qed.

Lemma two_updates (m : gmap nat Node) ps pt ns nt (f1 f2 : Node -> Node) :
  m !! ps = Some ns -> m !! pt = Some nt ->
  <[ps := f1 ns]> m !! pt = Some (if decide (ps = pt) then f1 ns else nt)
  /\ forall p n, m !! p = Some n ->
       <[pt := f2 (if decide (ps = pt) then f1 ns else nt)]>
         (<[ps := f1 ns]> m) !! p
       = Some ((if decide (p = pt) then f2 else fun x => x)
                 ((if decide (p = ps) then f1 else fun x => x) n)).
Proof.
  intros Hps Hpt. split.
  - destruct (decide (ps = pt)) as [->|Hne].
    + by rewrite lookup_insert_eq.
    + by rewrite lookup_insert_ne.
  - intros p n Hp. destruct (decide (p = pt)) as [->|Hnpt].
    + rewrite lookup_insert_eq. f_equal.
      destruct (decide (ps = pt)) as [->|Hne].
      * rewrite decide_True by done. congruence.
      * rewrite decide_False by done. congruence.
    + rewrite lookup_insert_ne by done.
      destruct (decide (p = ps)) as [->|Hnps].
      * rewrite lookup_insert_eq. congruence.
      * by rewrite lookup_insert_ne.
Qed.

Definition set_children (cs : list nat) (n : Node) : Node :=
  {| id_ := id_ n; data := data n; parents := parents n; children := cs |}.

Definition set_parents (ps : list nat) (n : Node) : Node :=
  {| id_ := id_ n; data := data n; parents := ps; children := children n |}.

Lemma eraseEdge_found (g : Graph) s t ps pt l1 e l2 :
  sound g -> nodes_ g !! s = Some ps -> nodes_ g !! t = Some pt ->
  first_joining (edge_objects g) ps pt (edges_ g) l1 e l2 ->
  exists g', eraseEdge s t g = Done (true, g') /\ sound g'
    /\ nodes_ g' = nodes_ g /\ edges_ g' = l1 ++ l2
    /\ edge_objects g' = delete e (edge_objects g).
Proof.
  intros Hs Hps Hpt (Hed & [Hfrom Hto] & Hl1).
  destruct (sound_nodes g Hs s ps Hps) as (ns & Hns & Hids & Hcs & Hpas).
  destruct (sound_nodes g Hs t pt Hpt) as (nt & Hnt & Hidt & Hct & Hpat).
  assert (e ∈ edges_ g) as He.
  { rewrite Hed. apply elem_of_app. right. by left. }
  assert (NoDup (l1 ++ e :: l2)) as Hnd by (rewrite <- Hed; apply Hs).
  assert (e ∉ l1 ++ l2) as Hfresh.
  { apply NoDup_app in Hnd as (_ & H1 & [H2 _]%NoDup_cons).
    intros [?|?]%elem_of_app; [|done]. apply (H1 e); [done|by left]. }
  unfold eraseEdge. rewrite Hps, Hpt.
  assert (findEdge s t g = Done (true, Some (length l1))) as ->.
  { unfold findEdge. rewrite Hps, Hpt.
    destruct (find_from_spec g ps pt (edges_ g) 0)
      as [(k1 & e' & k2 & (Hk & Hj' & Hk1) & ->)|[Hall _]].
    { intros x Hx. by apply edge_live. }
    - do 3 f_equal. simpl.
      (* the first joining edge is unique *)
      rewrite Hed in Hk. clear -Hk Hl1 Hk1 Hfrom Hto Hj'.
      revert k1 Hk Hk1. induction l1 as [|x l1 IH]; intros [|y k1] Hk Hk1.
      + done.
      + simplify_eq/=. apply Forall_cons in Hk1 as [Hy _]. by destruct Hy.
      + simplify_eq/=. apply Forall_cons in Hl1 as [Hx _]. by destruct Hx.
      + simplify_eq/=. apply Forall_cons in Hl1 as [_ Hl1].
        apply Forall_cons in Hk1 as [_ Hk1]. f_equal. by apply IH.
    - rewrite Forall_forall in Hall. by destruct (Hall e He). }
  cbn [mbind outcome_bind negb fst snd].
  (* the source loses its successor *)
  assert (removeSuccessor g t ns
          = Done (set_children (filter (from (edge_objects g) ps) l1
                                ++ filter (from (edge_objects g) ps) l2) ns))
    as Hrs.
  { unfold removeSuccessor.
    rewrite (remove_first_spec g destination t pt).
    2:{ intros x Hx. rewrite Hcs in Hx. apply list_elem_of_filter in Hx as [_ Hx].
        destruct (sound_edges g Hs x Hx) as (edge & Hedge & _ & Hb).
        destruct (far_end_id g t pt _ Hs Hpt Hb) as (n & Hn & Hiff).
        by exists edge, n. }
    simpl. unfold set_children. do 2 f_equal.
    rewrite Hcs, Hed, filter_middle, decide_True by done.
    apply (remove_where_middle (fun x => to (edge_objects g) pt x)); [|done].
    apply Forall_forall. intros x [Hx1 Hx2]%list_elem_of_filter.
    rewrite Forall_forall in Hl1. intros Hx3. by apply (Hl1 x Hx2). }
  set (cs' := filter (from (edge_objects g) ps) l1
              ++ filter (from (edge_objects g) ps) l2) in *.
  set (g1 := set_node_objects (<[ps := set_children cs' ns]> (node_objects g)) g).
  assert (on_node ps (removeSuccessor g t) g = Done g1) as ->.
  { unfold on_node, node_at. rewrite Hns. cbn [mbind outcome_bind].
    by rewrite Hrs. }
  cbn [mbind outcome_bind].
  set (pa' := filter (to (edge_objects g) pt) l1
              ++ filter (to (edge_objects g) pt) l2).
  destruct (two_updates (node_objects g) ps pt ns nt (set_children cs')
              (set_parents pa') Hns Hnt) as [Hnt1 Hafter].
  set (nt1 := if decide (ps = pt) then set_children cs' ns else nt) in *.
  assert (parents nt1 = parents nt /\ id_ nt1 = id_ nt) as [Hpa1 Hid1].
  { unfold nt1. destruct (decide (ps = pt)) as [->|]; [|done].
    simpl. split; congruence. }
  assert (removePredecessor g1 s nt1 = Done (set_parents pa' nt1)) as Hrp.
  { unfold removePredecessor.
    rewrite (remove_first_spec g1 source s ps).
    2:{ intros x Hx. rewrite Hpa1, Hpat in Hx.
        apply list_elem_of_filter in Hx as [_ Hx].
        destruct (sound_edges g Hs x Hx) as (edge & Hedge & Hb & _).
        destruct (far_end_id g s ps _ Hs Hps Hb) as (n & Hn & Hiff).
        destruct (decide (source edge = ps)) as [E|E].
        - exists edge, (set_children cs' ns). simpl. split; [done|].
          rewrite E, lookup_insert_eq. split; [done|]. simpl.
          rewrite E in Hn. assert (n = ns) as -> by congruence. done.
        - exists edge, n. simpl. split; [done|].
          by rewrite lookup_insert_ne. }
    simpl. unfold set_parents. do 2 f_equal.
    rewrite Hpa1, Hpat, Hed, filter_middle, decide_True by done.
    apply (remove_where_middle (fun x => from (edge_objects g) ps x)); [|done].
    apply Forall_forall. intros x [Hx1 Hx2]%list_elem_of_filter.
    rewrite Forall_forall in Hl1. intros Hx3. by apply (Hl1 x Hx2). }
  set (g2 := set_node_objects
               (<[pt := set_parents pa' nt1]> (node_objects g1)) g1).
  assert (on_node pt (removePredecessor g1 s) g1 = Done g2) as ->.
  { unfold on_node, node_at. simpl. rewrite Hnt1. cbn [mbind outcome_bind].
    by rewrite Hrp. }
  cbn [mbind outcome_bind]. simpl. rewrite Hed.
  assert ((l1 ++ e :: l2) !! length l1 = Some e) as Hat.
  { by rewrite list_lookup_middle. }
  rewrite (at_index_Some _ _ _ Hat). cbn [mbind outcome_bind].
  unfold delete_edge, edge_at. simpl.
  destruct (edge_live g e Hs He) as [edge Hedge]. rewrite Hedge.
  cbn [mbind outcome_bind]. unfold erase_at. simpl. rewrite Hed.
  rewrite decide_True by (rewrite length_app; simpl; lia).
  cbn [mbind outcome_bind]. rewrite delete_middle.
  eexists. split; [reflexivity|]. simpl. split_and!; [|done..].
  assert (forall p, filter (from (delete e (edge_objects g)) p) (l1 ++ l2)
                    = filter (from (edge_objects g) p) l1
                      ++ filter (from (edge_objects g) p) l2) as Hfr.
  { intros p. rewrite <- filter_app. apply filter_agree. intros x Hx.
    unfold from. rewrite lookup_delete_ne; [done|]. by intros <-. }
  assert (forall p, filter (to (delete e (edge_objects g)) p) (l1 ++ l2)
                    = filter (to (edge_objects g) p) l1
                      ++ filter (to (edge_objects g) p) l2) as Hto'.
  { intros p. rewrite <- filter_app. apply filter_agree. intros x Hx.
    unfold to. rewrite lookup_delete_ne; [done|]. by intros <-. }
  split; simpl.
  - intros id p Hid.
    destruct (sound_nodes g Hs id p Hid) as (n & Hn & Hidn & Hc & Hpa).
    rewrite (Hafter p n Hn). eexists. split; [reflexivity|].
    rewrite Hfr, Hto'. rewrite Hed, !filter_middle in Hc, Hpa.
    assert (forall q, q <> ps -> ~ from (edge_objects g) q e) as Hnf.
    { intros q Hq. unfold from in *. rewrite Hfrom. congruence. }
    assert (forall q, q <> pt -> ~ to (edge_objects g) q e) as Hnt'.
    { intros q Hq. unfold to in *. rewrite Hto. congruence. }
    split_and!.
    + by destruct (decide (p = pt)), (decide (p = ps)).
    + transitivity (if decide (p = ps) then cs' else children n).
      { by destruct (decide (p = pt)), (decide (p = ps)). }
      destruct (decide (p = ps)) as [Eps|Eps]; [by subst p|].
      rewrite Hc. rewrite decide_False by (by apply Hnf). done.
    + transitivity (if decide (p = pt) then pa' else parents n).
      { by destruct (decide (p = pt)), (decide (p = ps)). }
      destruct (decide (p = pt)) as [Ept|Ept]; [by subst p|].
      rewrite Hpa. rewrite decide_False by (by apply Hnt'). done.
  - apply NoDup_app in Hnd as (H1 & H2 & [H3 H4]%NoDup_cons).
    apply NoDup_app. split_and!; [done| |done].
    intros x Hx Hx'. apply (H2 x Hx). by right.
  - intros x Hx. assert (x ∈ edges_ g) as Hx'.
    { rewrite Hed. apply elem_of_app.
      apply elem_of_app in Hx as [?|?]; [by left|right; by right]. }
    destruct (sound_edges g Hs x Hx') as (edge' & Hedge' & ? & ?).
    exists edge'. split; [|done]. rewrite lookup_delete_ne; [done|].
    by intros <-.
Qed.

(** *** eraseNode *)

(** The graph while eraseNode is at work on the node [p] of identifier
    [id]: the identifier is taken out, the node object is still there, and
    what is left of the graph is as in a sound graph, but that edges may
    still start or end at [p], none doing both. *)
Record erasing (id p : nat) (g : Graph) : Prop := {
  erasing_unbound : nodes_ g !! id = None;
  erasing_free : ~ bound g p;
  erasing_node : exists n, node_objects g !! p = Some n /\ id_ n = id;
  erasing_nodes : forall id' q, nodes_ g !! id' = Some q ->
    exists n, node_objects g !! q = Some n /\ id_ n = id'
              /\ children n = filter (from (edge_objects g) q) (edges_ g)
              /\ parents n = filter (to (edge_objects g) q) (edges_ g);
  erasing_NoDup : NoDup (edges_ g);
  erasing_edges : forall e, e ∈ edges_ g ->
    exists edge, edge_objects g !! e = Some edge
                 /\ (bound g (source edge) \/ source edge = p)
                 /\ (bound g (destination edge) \/ destination edge = p)
                 /\ ~ (source edge = p /\ destination edge = p)
}.

Lemma far_end_erasing (g : Graph) id p q :
  erasing id p g -> bound g q \/ q = p ->
  exists n, node_objects g !! q = Some n /\ (id_ n = id <-> q = p).
Proof.
  intros Hs [[id' Hid']| ->].
  - destruct (erasing_nodes id p g Hs id' q Hid') as (n & Hn & Hidn & _).
    exists n. split; [done|]. split.
    + intros E. rewrite <- Hidn, E in Hid'.
      rewrite (erasing_unbound id p g Hs) in Hid'. done.
    + intros ->. destruct (erasing_free id p g Hs). by exists id'.
  - destruct (erasing_node id p g Hs) as (n & Hn & Hidn). by exists n.
Qed.

Lemma filter_head {A} (P : A -> Prop) `{!forall x, Decision (P x)}
    (l : list A) e rest :
  filter P l = e :: rest ->
  exists l1 l2, l = l1 ++ e :: l2 /\ Forall (fun x => ~ P x) l1 /\ P e
                /\ filter P l2 = rest.
Proof.
  induction l as [|x l IH]; [done|]. rewrite filter_cons.
  destruct (decide (P x)) as [Hx|Hx].
  - intros [= -> <-]. by exists [], l.
  - intros (l1 & l2 & -> & ? & ? & ?)%IH. exists (x :: l1), l2.
    split_and!; [done| |done..]. by constructor.
Qed.

Lemma findEdgeIndexHelper_middle (g : Graph) l1 e l2 :
  edges_ g = l1 ++ e :: l2 -> e ∉ l1 ->
  findEdgeIndexHelper e g = Some (length l1).
Proof.
  unfold findEdgeIndexHelper. intros -> Hl1.
  induction l1 as [|x l1 IH]; simpl.
  - by rewrite decide_True.
  - rewrite decide_False.
    2:{ intros ->. apply Hl1. by left. }
    assert (e ∉ l1) as H by (intros ?; apply Hl1; by right).
    specialize (IH H). destruct (list_find _ (l1 ++ e :: l2)) as [[i y]|];
      simplify_eq/=. done.
Qed.

Lemma delete_agree_from (objects : gmap nat Edge) e q (l : list nat) :
  e ∉ l ->
  filter (from (delete e objects) q) l = filter (from objects q) l.
Proof.
  intros He. apply filter_agree. intros x Hx. unfold from.
  rewrite lookup_delete_ne; [done|]. by intros <-.
Qed.

Lemma delete_agree_to (objects : gmap nat Edge) e q (l : list nat) :
  e ∉ l ->
  filter (to (delete e objects) q) l = filter (to objects q) l.
Proof.
  intros He. apply filter_agree. intros x Hx. unfold to.
  rewrite lookup_delete_ne; [done|]. by intros <-.
Qed.

(** One round of the loop over the predecessors, at the first edge that is
    left of those that end at [p]. *)
Lemma erase_predecessor (g : Graph) id p e rest :
  erasing id p g ->
  filter (to (edge_objects g) p) (edges_ g) = e :: rest ->
  exists g' l1 l2,
    erase_incident source removeSuccessor id e g = Done g'
    /\ erasing id p g'
    /\ nodes_ g' = nodes_ g
    /\ edges_ g = l1 ++ e :: l2 /\ edges_ g' = l1 ++ l2
    /\ Forall (fun x => ~ to (edge_objects g) p x) l1
    /\ filter (to (edge_objects g) p) l2 = rest
    /\ edge_objects g' = delete e (edge_objects g).
Proof.
  intros Hs Hhead.
  destruct (filter_head _ _ _ _ Hhead) as (l1 & l2 & Hed & Hl1 & Hto & Hrest).
  assert (e ∈ edges_ g) as He.
  { rewrite Hed. apply elem_of_app. right. by left. }
  assert (NoDup (l1 ++ e :: l2)) as Hnd by (rewrite <- Hed; apply Hs).
  assert ((e ∉ l1) /\ (e ∉ l2)) as [Hn1 Hn2].
  { apply NoDup_app in Hnd as (_ & H1 & [H2 _]%NoDup_cons). split; [|done].
    intros ?. apply (H1 e); [done|by left]. }
  assert (e ∉ l1 ++ l2) as Hfresh.
  { by intros [?|?]%elem_of_app. }
  destruct (erasing_edges id p g Hs e He) as (edge & Hedge & Hsrc & _ & Hloop).
  assert (destination edge = p) as Hdst.
  { unfold to in Hto. rewrite Hedge in Hto. simpl in Hto. congruence. }
  set (q := source edge).
  assert (q <> p) as Hqp by (intros E; apply Hloop; by split).
  destruct Hsrc as [[idq Hq]|Hsrc]; [|done]. fold q in Hq.
  destruct (erasing_nodes id p g Hs idq q Hq) as (nq & Hnq & Hidq & Hcq & Hpq).
  assert (from (edge_objects g) q e) as Hfrom.
  { unfold from. by rewrite Hedge. }
  unfold erase_incident, edge_at. rewrite Hedge. cbn [mbind outcome_bind].
  fold q.
  set (cs' := filter (from (edge_objects g) q) l1
              ++ filter (from (edge_objects g) q) l2).
  assert (removeSuccessor g id nq = Done (set_children cs' nq)) as Hrs.
  { unfold removeSuccessor.
    rewrite (remove_first_spec g destination id p).
    2:{ intros x Hx. rewrite Hcq in Hx.
        apply list_elem_of_filter in Hx as [_ Hx].
        destruct (erasing_edges id p g Hs x Hx) as (ex & Hex & _ & Hb & _).
        destruct (far_end_erasing g id p _ Hs Hb) as (n & Hn & Hiff).
        by exists ex, n. }
    simpl. unfold set_children. do 2 f_equal.
    rewrite Hcq, Hed, filter_middle, decide_True by done.
    apply (remove_where_middle (fun x => to (edge_objects g) p x)); [|done].
    apply Forall_forall. intros x [Hx1 Hx2]%list_elem_of_filter.
    rewrite Forall_forall in Hl1. by apply Hl1. }
  set (g1 := set_node_objects (<[q := set_children cs' nq]> (node_objects g)) g).
  assert (on_node q (removeSuccessor g id) g = Done g1) as ->.
  { unfold on_node, node_at. rewrite Hnq. cbn [mbind outcome_bind].
    by rewrite Hrs. }
  cbn [mbind outcome_bind].
  rewrite (findEdgeIndexHelper_middle g1 l1 e l2 Hed Hn1).
  unfold erase_at. simpl. rewrite Hed.
  rewrite decide_True by (rewrite length_app; simpl; lia).
  cbn [mbind outcome_bind]. rewrite delete_middle.
  unfold delete_edge, edge_at. simpl. rewrite Hedge. cbn [mbind outcome_bind].
  eexists _, l1, l2. split; [reflexivity|]. simpl.
  split_and!; [|done..].
  assert (forall x, bound g x ->
            bound (set_edge_objects (delete e (edge_objects g))
                     (set_edges_ (l1 ++ l2) g1)) x) as Hbound.
  { intros x [idx Hx]. by exists idx. }
  split; simpl.
  - apply Hs.
  - intros [idx Hx]. apply (erasing_free id p g Hs). by exists idx.
  - destruct (erasing_node id p g Hs) as (n & Hn & Hidn). exists n.
    by rewrite lookup_insert_ne.
  - intros id' r Hr.
    destruct (erasing_nodes id p g Hs id' r Hr) as (n & Hn & Hidn & Hc & Hpa).
    rewrite (delete_agree_from _ _ _ _ Hfresh).
    rewrite (delete_agree_to _ _ _ _ Hfresh).
    rewrite !filter_app. rewrite Hed, !filter_middle in Hc, Hpa.
    assert (r <> p) as Hrp.
    { intros ->. apply (erasing_free id p g Hs). by exists id'. }
    rewrite (decide_False (P := to (edge_objects g) r e)) in Hpa.
    2:{ unfold to. rewrite Hedge. simpl. congruence. }
    destruct (decide (r = q)) as [->|Hrq].
    + rewrite lookup_insert_eq. eexists. split; [done|]. simpl.
      assert (n = nq) as -> by congruence. done.
    + rewrite lookup_insert_ne by done. exists n. split_and!; [done..| |done].
      rewrite Hc. rewrite decide_False; [done|].
      unfold from. rewrite Hedge. simpl. fold q. congruence.
  - apply NoDup_app in Hnd as (H1 & H2 & [H3 H4]%NoDup_cons).
    apply NoDup_app. split_and!; [done| |done].
    intros x Hx Hx'. apply (H2 x Hx). by right.
  - intros x Hx. assert (x ∈ edges_ g) as Hx'.
    { rewrite Hed. apply elem_of_app.
      apply elem_of_app in Hx as [?|?]; [by left|right; by right]. }
    destruct (erasing_edges id p g Hs x Hx') as (ex & Hex & Hb1 & Hb2 & Hnl).
    exists ex. split_and!; [|by destruct Hb1; [left; apply Hbound|right]
                            |by destruct Hb2; [left; apply Hbound|right]|done].
    rewrite lookup_delete_ne; [done|]. by intros <-.
Qed.

(** One round of the loop over the successors, at the first edge that is
    left of those that start at [p]. *)
Lemma erase_successor (g : Graph) id p e rest :
  erasing id p g ->
  filter (from (edge_objects g) p) (edges_ g) = e :: rest ->
  exists g' l1 l2,
    erase_incident destination removePredecessor id e g = Done g'
    /\ erasing id p g'
    /\ nodes_ g' = nodes_ g
    /\ edges_ g = l1 ++ e :: l2 /\ edges_ g' = l1 ++ l2
    /\ Forall (fun x => ~ from (edge_objects g) p x) l1
    /\ filter (from (edge_objects g) p) l2 = rest
    /\ edge_objects g' = delete e (edge_objects g).
Proof.
  intros Hs Hhead.
  destruct (filter_head _ _ _ _ Hhead) as (l1 & l2 & Hed & Hl1 & Hto & Hrest).
  assert (e ∈ edges_ g) as He.
  { rewrite Hed. apply elem_of_app. right. by left. }
  assert (NoDup (l1 ++ e :: l2)) as Hnd by (rewrite <- Hed; apply Hs).
  assert ((e ∉ l1) /\ (e ∉ l2)) as [Hn1 Hn2].
  { apply NoDup_app in Hnd as (_ & H1 & [H2 _]%NoDup_cons). split; [|done].
    intros ?. apply (H1 e); [done|by left]. }
  assert (e ∉ l1 ++ l2) as Hfresh.
  { by intros [?|?]%elem_of_app. }
  destruct (erasing_edges id p g Hs e He) as (edge & Hedge & _ & Hsrc & Hloop).
  assert (source edge = p) as Hdst.
  { unfold from in Hto. rewrite Hedge in Hto. simpl in Hto. congruence. }
  set (q := destination edge).
  assert (q <> p) as Hqp by (intros E; apply Hloop; by split).
  destruct Hsrc as [[idq Hq]|Hsrc]; [|done]. fold q in Hq.
  destruct (erasing_nodes id p g Hs idq q Hq) as (nq & Hnq & Hidq & Hpq & Hcq).
  assert (to (edge_objects g) q e) as Hfrom.
  { unfold to. by rewrite Hedge. }
  unfold erase_incident, edge_at. rewrite Hedge. cbn [mbind outcome_bind].
  fold q.
  set (cs' := filter (to (edge_objects g) q) l1
              ++ filter (to (edge_objects g) q) l2).
  assert (removePredecessor g id nq = Done (set_parents cs' nq)) as Hrs.
  { unfold removePredecessor.
    rewrite (remove_first_spec g source id p).
    2:{ intros x Hx. rewrite Hcq in Hx.
        apply list_elem_of_filter in Hx as [_ Hx].
        destruct (erasing_edges id p g Hs x Hx) as (ex & Hex & Hb & _ & _).
        destruct (far_end_erasing g id p _ Hs Hb) as (n & Hn & Hiff).
        by exists ex, n. }
    simpl. unfold set_parents. do 2 f_equal.
    rewrite Hcq, Hed, filter_middle, decide_True by done.
    apply (remove_where_middle (fun x => from (edge_objects g) p x)); [|done].
    apply Forall_forall. intros x [Hx1 Hx2]%list_elem_of_filter.
    rewrite Forall_forall in Hl1. by apply Hl1. }
  set (g1 := set_node_objects (<[q := set_parents cs' nq]> (node_objects g)) g).
  assert (on_node q (removePredecessor g id) g = Done g1) as ->.
  { unfold on_node, node_at. rewrite Hnq. cbn [mbind outcome_bind].
    by rewrite Hrs. }
  cbn [mbind outcome_bind].
  rewrite (findEdgeIndexHelper_middle g1 l1 e l2 Hed Hn1).
  unfold erase_at. simpl. rewrite Hed.
  rewrite decide_True by (rewrite length_app; simpl; lia).
  cbn [mbind outcome_bind]. rewrite delete_middle.
  unfold delete_edge, edge_at. simpl. rewrite Hedge. cbn [mbind outcome_bind].
  eexists _, l1, l2. split; [reflexivity|]. simpl.
  split_and!; [|done..].
  assert (forall x, bound g x ->
            bound (set_edge_objects (delete e (edge_objects g))
                     (set_edges_ (l1 ++ l2) g1)) x) as Hbound.
  { intros x [idx Hx]. by exists idx. }
  split; simpl.
  - apply Hs.
  - intros [idx Hx]. apply (erasing_free id p g Hs). by exists idx.
  - destruct (erasing_node id p g Hs) as (n & Hn & Hidn). exists n.
    by rewrite lookup_insert_ne.
  - intros id' r Hr.
    destruct (erasing_nodes id p g Hs id' r Hr) as (n & Hn & Hidn & Hpa & Hc).
    rewrite (delete_agree_to _ _ _ _ Hfresh).
    rewrite (delete_agree_from _ _ _ _ Hfresh).
    rewrite !filter_app. rewrite Hed, !filter_middle in Hc, Hpa.
    assert (r <> p) as Hrp.
    { intros ->. apply (erasing_free id p g Hs). by exists id'. }
    rewrite (decide_False (P := from (edge_objects g) r e)) in Hpa.
    2:{ unfold from. rewrite Hedge. simpl. congruence. }
    destruct (decide (r = q)) as [->|Hrq].
    + rewrite lookup_insert_eq. eexists. split; [done|]. simpl.
      assert (n = nq) as -> by congruence. done.
    + rewrite lookup_insert_ne by done. exists n. split_and!; [done|done|done|].
      rewrite Hc. rewrite decide_False; [done|].
      unfold to. rewrite Hedge. simpl. fold q. congruence.
  - apply NoDup_app in Hnd as (H1 & H2 & [H3 H4]%NoDup_cons).
    apply NoDup_app. split_and!; [done| |done].
    intros x Hx Hx'. apply (H2 x Hx). by right.
  - intros x Hx. assert (x ∈ edges_ g) as Hx'.
    { rewrite Hed. apply elem_of_app.
      apply elem_of_app in Hx as [?|?]; [by left|right; by right]. }
    destruct (erasing_edges id p g Hs x Hx') as (ex & Hex & Hb1 & Hb2 & Hnl).
    exists ex. split_and!; [|by destruct Hb1; [left; apply Hbound|right]
                            |by destruct Hb2; [left; apply Hbound|right]|done].
    rewrite lookup_delete_ne; [done|]. by intros <-.
Qed.

Lemma filter_all {A} (P : A -> Prop) `{!forall x, Decision (P x)} (l : list A) :
  (forall x, x ∈ l -> P x) -> filter P l = l.
Proof.
  induction l as [|x l IH]; intros Hl; [done|].
  rewrite filter_cons_True by (apply Hl; by left).
  f_equal. apply IH. intros y Hy. apply Hl. by right.
Qed.

(** The loop over the predecessors: the edges that end at [p] go, one by
    one, and nothing else. *)
Lemma erase_predecessors id p : forall P (g : Graph),
  erasing id p g ->
  filter (to (edge_objects g) p) (edges_ g) = P ->
  exists g',
    for_each (erase_incident source removeSuccessor id) P g = Done g'
    /\ erasing id p g'
    /\ nodes_ g' = nodes_ g
    /\ edges_ g' = filter (fun x => ~ to (edge_objects g) p x) (edges_ g)
    /\ forall x, edge_objects g' !! x
                 = if decide (x ∈ P) then None else edge_objects g !! x.
Proof.
  induction P as [|e rest IH]; intros g Hs HP.
  { exists g. simpl. split_and!; [done..| |done].
    symmetry. apply filter_all. intros x Hx Hto.
    assert (x ∈ filter (to (edge_objects g) p) (edges_ g)) as Hin
      by (by apply list_elem_of_filter).
    rewrite HP in Hin. by apply elem_of_nil in Hin. }
  destruct (erase_predecessor g id p e rest Hs HP)
    as (g1 & l1 & l2 & Hstep & Hs1 & Hn1 & Hed & Hed1 & Hl1 & Hl2 & Heo1).
  assert (NoDup (l1 ++ e :: l2)) as Hnd by (rewrite <- Hed; apply Hs).
  assert (e ∉ l1 ++ l2) as Hfresh.
  { apply NoDup_app in Hnd as (_ & H1 & [H2 _]%NoDup_cons).
    intros [?|?]%elem_of_app; [|done]. apply (H1 e); [done|by left]. }
  assert (to (edge_objects g) p e) as Hto.
  { assert (e ∈ filter (to (edge_objects g) p) (edges_ g)) as Hin
      by (rewrite HP; by left).
    by apply list_elem_of_filter in Hin as [? _]. }
  destruct (IH g1 Hs1) as (g' & Hrun & Hs' & Hn' & Hed' & Heo').
  { rewrite Heo1, Hed1, (delete_agree_to _ _ _ _ Hfresh), filter_app.
    rewrite (filter_none _ l1); [done|].
    intros x Hx. rewrite Forall_forall in Hl1. by apply Hl1. }
  exists g'. simpl. rewrite Hstep. cbn [mbind outcome_bind].
  split_and!; [done|done|congruence| |].
  - rewrite Hed', Hed1, Hed, Heo1. rewrite filter_middle.
    rewrite (decide_False (P := ~ to (edge_objects g) p e)) by tauto.
    simpl. rewrite <- filter_app. apply filter_agree. intros x Hx. unfold to.
    rewrite lookup_delete_ne; [done|]. by intros <-.
  - intros x. rewrite Heo', Heo1.
    destruct (decide (x = e)) as [->|Hne].
    + rewrite lookup_delete_eq. rewrite (decide_True (P := e ∈ e :: rest)) by (by left).
      by destruct (decide (e ∈ rest)).
    + rewrite lookup_delete_ne by done.
      destruct (decide (x ∈ rest)) as [Hin|Hin].
      * rewrite decide_True; [done|by right].
      * rewrite decide_False; [done|].
        by intros [?|?]%elem_of_cons.
Qed.

(** The loop over the successors: the edges that start at [p] go, one by
    one, and nothing else. *)
Lemma erase_successors id p : forall P (g : Graph),
  erasing id p g ->
  filter (from (edge_objects g) p) (edges_ g) = P ->
  exists g',
    for_each (erase_incident destination removePredecessor id) P g = Done g'
    /\ erasing id p g'
    /\ nodes_ g' = nodes_ g
    /\ edges_ g' = filter (fun x => ~ from (edge_objects g) p x) (edges_ g)
    /\ forall x, edge_objects g' !! x
                 = if decide (x ∈ P) then None else edge_objects g !! x.
Proof.
  induction P as [|e rest IH]; intros g Hs HP.
  { exists g. simpl. split_and!; [done..| |done].
    symmetry. apply filter_all. intros x Hx Hto.
    assert (x ∈ filter (from (edge_objects g) p) (edges_ g)) as Hin
      by (by apply list_elem_of_filter).
    rewrite HP in Hin. by apply elem_of_nil in Hin. }
  destruct (erase_successor g id p e rest Hs HP)
    as (g1 & l1 & l2 & Hstep & Hs1 & Hn1 & Hed & Hed1 & Hl1 & Hl2 & Heo1).
  assert (NoDup (l1 ++ e :: l2)) as Hnd by (rewrite <- Hed; apply Hs).
  assert (e ∉ l1 ++ l2) as Hfresh.
  { apply NoDup_app in Hnd as (_ & H1 & [H2 _]%NoDup_cons).
    intros [?|?]%elem_of_app; [|done]. apply (H1 e); [done|by left]. }
  assert (from (edge_objects g) p e) as Hto.
  { assert (e ∈ filter (from (edge_objects g) p) (edges_ g)) as Hin
      by (rewrite HP; by left).
    by apply list_elem_of_filter in Hin as [? _]. }
  destruct (IH g1 Hs1) as (g' & Hrun & Hs' & Hn' & Hed' & Heo').
  { rewrite Heo1, Hed1, (delete_agree_from _ _ _ _ Hfresh), filter_app.
    rewrite (filter_none _ l1); [done|].
    intros x Hx. rewrite Forall_forall in Hl1. by apply Hl1. }
  exists g'. simpl. rewrite Hstep. cbn [mbind outcome_bind].
  split_and!; [done|done|congruence| |].
  - rewrite Hed', Hed1, Hed, Heo1. rewrite filter_middle.
    rewrite (decide_False (P := ~ from (edge_objects g) p e)) by tauto.
    simpl. rewrite <- filter_app. apply filter_agree. intros x Hx. unfold from.
    rewrite lookup_delete_ne; [done|]. by intros <-.
  - intros x. rewrite Heo', Heo1.
    destruct (decide (x = e)) as [->|Hne].
    + rewrite lookup_delete_eq. rewrite (decide_True (P := e ∈ e :: rest)) by (by left).
      by destruct (decide (e ∈ rest)).
    + rewrite lookup_delete_ne by done.
      destruct (decide (x ∈ rest)) as [Hin|Hin].
      * rewrite decide_True; [done|by right].
      * rewrite decide_False; [done|].
        by intros [?|?]%elem_of_cons.
Qed.

(** X24: on a sound graph eraseNode of a node that has no edge to itself
    returns true and leaves a sound graph: the identifier and the node
    object are gone, the edges that started or ended at the node are taken
    out of the edges and their objects deleted, and the other edges stay,
    in their order and with their objects. *)
Theorem eraseNode_removes_incident (g : Graph) id p :
  sound g -> nodes_ g !! id = Some p ->
  (forall e, e ∈ edges_ g -> ~ joins (edge_objects g) p p e) ->
  exists g',
    eraseNode id g = Done (true, g') /\ sound g'
    /\ nodes_ g' = delete id (nodes_ g)
    /\ node_objects g' !! p = None
    /\ edges_ g'
       = filter (fun e => ~ from (edge_objects g) p e
                          /\ ~ to (edge_objects g) p e) (edges_ g)
    /\ (forall e, e ∈ edges_ g' -> edge_objects g' !! e = edge_objects g !! e)
    /\ (forall e, e ∈ edges_ g -> e ∉ edges_ g' -> edge_objects g' !! e = None).
Proof.
  intros Hs Hid Hloop.
  destruct (sound_nodes g Hs id p Hid) as (n & Hn & Hidn & Hc & Hpa).
  unfold eraseNode. rewrite Hid.
  set (g0 := set_nodes_ (delete id (nodes_ g)) g).
  assert (forall q, bound g q -> bound g0 q \/ q = p) as Hb0.
  { intros q [idq Hq]. destruct (decide (idq = id)) as [->|Hne].
    - right. congruence.
    - left. exists idq. simpl. by rewrite lookup_delete_ne. }
  assert (erasing id p g0) as Hs0.
  { split; simpl.
    - apply lookup_delete_eq.
    - intros [id' Hid']. simpl in Hid'.
      destruct (decide (id' = id)) as [->|Hne].
      + by rewrite lookup_delete_eq in Hid'.
      + rewrite lookup_delete_ne in Hid' by done.
        apply Hne. exact (bound_id g id' id p Hs Hid' Hid).
    - by exists n.
    - intros id' q Hq. apply (sound_nodes g Hs id' q).
      destruct (decide (id' = id)) as [->|Hne].
      + by rewrite lookup_delete_eq in Hq.
      + by rewrite lookup_delete_ne in Hq.
    - apply Hs.
    - intros e He. destruct (sound_edges g Hs e He) as (edge & Hedge & H1 & H2).
      exists edge. split_and!; [done|by apply Hb0..|].
      intros [E1 E2]. apply (Hloop e He). unfold joins, from, to.
      rewrite Hedge. simpl. by rewrite E1, E2. }
  unfold node_at. simpl. rewrite Hn. cbn [mbind outcome_bind].
  destruct (erase_predecessors id p (parents n) g0 Hs0)
    as (g1 & -> & Hs1 & Hn1 & Hed1 & Heo1); [by rewrite Hpa|].
  cbn [mbind outcome_bind]. simpl in Hn1, Hed1, Heo1.
  (* what is left after the first loop *)
  assert (forall x, x ∈ edges_ g1 ->
            x ∈ edges_ g /\ ~ to (edge_objects g) p x
            /\ edge_objects g1 !! x = edge_objects g !! x) as Hleft1.
  { intros x Hx. rewrite Hed1 in Hx.
    apply list_elem_of_filter in Hx as [Hx1 Hx2]. split_and!; [done..|].
    rewrite Heo1. rewrite decide_False; [done|].
    rewrite Hpa. by intros [? _]%list_elem_of_filter. }
  assert (filter (from (edge_objects g1) p) (edges_ g1) = children n) as Hc1.
  { rewrite Hc, Hed1, list_filter_filter. apply filter_agree.
    intros x Hx. split.
    - intros [Hf Ht]. unfold from in *. rewrite Heo1 in Hf.
      by destruct (decide (x ∈ parents n)).
    - intros Hf.
      assert (~ to (edge_objects g) p x) as Ht.
      { intros Ht. by apply (Hloop x Hx). }
      split; [|done]. unfold from in *. rewrite Heo1.
      rewrite decide_False; [done|].
      rewrite Hpa. by intros [? _]%list_elem_of_filter. }
  destruct (erase_successors id p (children n) g1 Hs1 Hc1)
    as (g2 & -> & Hs2 & Hn2 & Hed2 & Heo2).
  cbn [mbind outcome_bind].
  assert (forall x, x ∈ edges_ g2 ->
            x ∈ edges_ g /\ ~ to (edge_objects g) p x
            /\ ~ from (edge_objects g) p x
            /\ edge_objects g2 !! x = edge_objects g !! x) as Hleft2.
  { intros x Hx. rewrite Hed2 in Hx.
    apply list_elem_of_filter in Hx as [Hx1 Hx2].
    destruct (Hleft1 x Hx2) as (H1 & H2 & H3).
    assert (~ from (edge_objects g) p x) as H4.
    { unfold from in *. by rewrite <- H3. }
    split_and!; [done..|].
    rewrite Heo2. rewrite decide_False; [done|].
    rewrite Hc. by intros [? _]%list_elem_of_filter. }
  destruct (erasing_node id p g2 Hs2) as (n2 & Hn2' & _).
  unfold delete_node, node_at. rewrite Hn2'. cbn [mbind outcome_bind].
  eexists. split; [reflexivity|]. simpl.
  split_and!.
  - split; simpl.
    + intros id' q Hq.
      destruct (erasing_nodes id p g2 Hs2 id' q Hq) as (nq & Hnq & ?).
      exists nq. split; [|done]. rewrite lookup_delete_ne; [done|].
      intros <-. apply (erasing_free id p g2 Hs2). by exists id'.
    + apply Hs2.
    + intros e He.
      destruct (erasing_edges id p g2 Hs2 e He) as (edge & Hedge & H1 & H2 & _).
      destruct (Hleft2 e He) as (_ & Ht & Hf & Heq).
      exists edge. split; [done|].
      unfold from, to in Ht, Hf. rewrite <- Heq, Hedge in Ht, Hf.
      simpl in Ht, Hf.
      split; [destruct H1 as [?|E]|destruct H2 as [?|E]]; try done;
        by rewrite E in *.
  - congruence.
  - apply lookup_delete_eq.
  - rewrite Hed2, Hed1, list_filter_filter. apply filter_agree.
    intros x Hx. split.
    + intros [Hf Ht]. split; [|done]. unfold from in *.
      rewrite Heo1 in Hf. rewrite decide_False in Hf; [done|].
      rewrite Hpa. by intros [? _]%list_elem_of_filter.
    + intros [Hf Ht]. split; [|done]. unfold from in *.
      rewrite Heo1. rewrite decide_False; [done|].
      rewrite Hpa. by intros [? _]%list_elem_of_filter.
  - intros e He. by apply Hleft2.
  - intros e He Hne. rewrite Heo2, Heo1.
    destruct (decide (e ∈ children n)) as [?|Hnc]; [done|].
    destruct (decide (e ∈ parents n)) as [?|Hnp]; [done|].
    destruct Hne. rewrite Hed2, Hed1.
    apply list_elem_of_filter. split.
    + unfold from. rewrite Heo1. rewrite decide_False by done.
      intros Hf. apply Hnc. rewrite Hc. by apply list_elem_of_filter.
    + apply list_elem_of_filter. split; [|done].
      intros Ht. apply Hnp. rewrite Hpa. by apply list_elem_of_filter.
Qed.

Lemma eraseEdge_total (g : Graph) s t :
  sound g ->
  exists b g',
    eraseEdge s t g = Done (b, g') /\ sound g' /\ nodes_ g' = nodes_ g
    /\ ((b = true
         /\ exists ps pt l1 e l2,
              nodes_ g !! s = Some ps /\ nodes_ g !! t = Some pt
              /\ first_joining (edge_objects g) ps pt (edges_ g) l1 e l2
              /\ edges_ g' = l1 ++ l2
              /\ edge_objects g' = delete e (edge_objects g))
        \/ (b = false /\ g' = g
            /\ forall ps pt, nodes_ g !! s = Some ps ->
                 nodes_ g !! t = Some pt ->
                 Forall (fun x => ~ joins (edge_objects g) ps pt x)
                   (edges_ g))).
Proof.
  intros Hs.
  destruct (findEdge_on_sound g s t Hs)
    as [(ps & pt & l1 & e & l2 & Hps & Hpt & Hf & _)
       |[[Hmiss Hfind]|(ps & pt & Hps & Hpt & Hall & Hfind)]].
  - destruct (eraseEdge_found g s t ps pt l1 e l2 Hs Hps Hpt Hf)
      as (g' & Hrun & Hs' & Hn & He & Heo).
    exists true, g'. split_and!; [done..|]. left. split; [done|].
    by exists ps, pt, l1, e, l2.
  - exists false, g. split_and!; [|done|done|].
    + unfold eraseEdge. destruct Hmiss as [->|Hmiss]; [done|].
      destruct (nodes_ g !! s); [|done]. by rewrite Hmiss.
    + right. split_and!; [done..|]. intros ps pt Hps Hpt.
      destruct Hmiss; congruence.
  - exists false, g. split_and!; [|done|done|].
    + unfold eraseEdge. rewrite Hps, Hpt, Hfind. done.
    + right. split_and!; [done..|]. intros ps' pt' Hps' Hpt'.
      assert (ps' = ps) as -> by congruence.
      assert (pt' = pt) as -> by congruence. done.
Qed.

Lemma perform_keeps_sound (g : Graph) op :
  sound g -> (forall id, op <> EraseNode id) ->
  exists g', perform op g = Done g' /\ sound g'.
Proof.
  intros Hs Hop. destruct op as [id d|d s t|id|s t]; unfold perform.
  - destruct (insertNode_keeps_sound g id d Hs) as (r & g' & -> & Hs' & _).
    by exists g'.
  - destruct (nodes_ g !! s) as [ps|] eqn:Eps.
    2:{ exists g. unfold insertEdge. by rewrite Eps. }
    destruct (nodes_ g !! t) as [pt|] eqn:Ept.
    2:{ exists g. unfold insertEdge. by rewrite Eps, Ept. }
    destruct (insertEdge_keeps_sound g d s t ps pt Hs Eps Ept)
      as (g' & e & -> & Hs' & _).
    by exists g'.
  - by destruct (Hop id).
  - destruct (eraseEdge_total g s t Hs) as (b & g' & -> & Hs' & _).
    by exists g'.
Qed.

Lemma run_keeps_sound : forall ops (g : Graph),
  sound g -> Forall (fun op => forall id, op <> EraseNode id) ops ->
  exists g', run ops g = Done g' /\ sound g'.
Proof.
  unfold run. induction ops as [|op ops IH]; intros g Hs Hops.
  { by exists g. }
  apply Forall_cons in Hops as [Hop Hops].
  destruct (perform_keeps_sound g op Hs Hop) as (g1 & Hrun & Hs1).
  destruct (IH g1 Hs1 Hops) as (g' & Hrun' & Hs').
  exists g'. simpl. rewrite Hrun. done.
Qed.

(** *** insertEdges *)

(** X29: on a sound graph insertEdges from a node of the graph to a list of
    identifiers that are all in the graph returns the number of edges after
    the call, which is the number before plus the length of the list; the
    graph is sound, has the same nodes, and has as many new edges at the end
    of its edges, all starting at that node. *)
Theorem insertEdges_on_sound d s ps : forall dests (g : Graph),
  sound g -> nodes_ g !! s = Some ps ->
  Forall (fun t => is_Some (nodes_ g !! t)) dests ->
  exists g' es,
    insertEdges d s dests g = Done (numberOfEdges g + length dests, g')
    /\ sound g' /\ nodes_ g' = nodes_ g
    /\ edges_ g' = edges_ g ++ es /\ length es = length dests
    /\ (forall x edge, edge_objects g !! x = Some edge ->
                       edge_objects g' !! x = Some edge)
    /\ Forall (fun e => edge_objects g !! e = None
                        /\ from (edge_objects g') ps e) es.
Proof.
  unfold insertEdges.
  induction dests as [|t dests IH]; intros g Hs Hps Hall.
  { exists g, []. simpl. unfold numberOfEdges. rewrite Nat.add_0_r, app_nil_r.
    by split_and!. }
  apply Forall_cons in Hall as [[pt Hpt] Hall].
  destruct (insertEdge_keeps_sound g d s t ps pt Hs Hps Hpt)
    as (g1 & e & Hrun & Hs1 & Hn1 & Hed1 & He & Heo1).
  destruct (IH g1 Hs1)
    as (g' & es & Hrun' & Hs' & Hn' & Hed' & Hlen & Hmono & Hes).
  { by rewrite Hn1. }
  { by rewrite Hn1. }
  destruct (for_each _ dests g1) as [g2| | | | |] eqn:Efor; try done.
  simpl in Hrun'. injection Hrun' as Hcount <-.
  exists g2, (e :: es). simpl. rewrite Hrun. cbn [mbind outcome_bind]. simpl.
  rewrite Efor. cbn [mbind outcome_bind].
  split_and!.
  - do 2 f_equal. rewrite Hed', Hed1, !length_app. unfold numberOfEdges.
    simpl. lia.
  - done.
  - congruence.
  - by rewrite Hed', Hed1, <- app_assoc.
  - simpl. by rewrite Hlen.
  - intros x edge Hx. apply Hmono. rewrite Heo1.
    rewrite lookup_insert_ne; [done|]. intros <-. congruence.
  - constructor.
    + split; [done|]. unfold from.
      rewrite (Hmono e {| edge_data := d; source := ps; destination := pt |});
        [done|].
      by rewrite Heo1, lookup_insert_eq.
    + eapply Forall_impl; [exact Hes|]. intros x [Hx ?]. split; [|done].
      rewrite Heo1 in Hx. destruct (decide (e = x)) as [->|Hne].
      * by rewrite lookup_insert_eq in Hx.
      * by rewrite lookup_insert_ne in Hx.
Qed.

(** X20: on a sound graph insertNode returns and leaves a sound graph with
    the same edges; under an identifier that is not yet in the graph it
    returns the number of nodes there were before, the graph has one node
    more, and the identifier names a new node object that carries the
    identifier and the payload and has no edges. *)
Theorem insertNode_on_sound (g : Graph) id d :
  sound g ->
  exists r g', insertNode id d g = Done (r, g') /\ sound g'
    /\ edges_ g' = edges_ g /\ edge_objects g' = edge_objects g
    /\ (forall id', id' <> id -> nodes_ g' !! id' = nodes_ g !! id')
    /\ (is_Some (nodes_ g !! id) -> nodes_ g' = nodes_ g)
    /\ (nodes_ g !! id = None ->
        r = numberOfNodes g /\ numberOfNodes g' = S (numberOfNodes g)
        /\ exists p, nodes_ g' !! id = Some p /\ node_objects g !! p = None
             /\ node_objects g' !! p
                = Some {| id_ := id; data := d; parents := [];
                          children := [] |}).
Proof. apply insertNode_keeps_sound. Qed.

(** X21: on a sound graph insertEdge between two identifiers of the graph
    returns the number of edges after the call and leaves a sound graph:
    the nodes are the same, a new edge object from the node of the first to
    the node of the second identifier is appended to the edges, and the
    node it starts at has it appended to its outgoing edges, the node it
    ends at to its incoming edges. *)
Theorem insertEdge_on_sound (g : Graph) d s t ps pt :
  sound g -> nodes_ g !! s = Some ps -> nodes_ g !! t = Some pt ->
  exists g' e,
    insertEdge d s t g = Done (S (numberOfEdges g), g') /\ sound g'
    /\ nodes_ g' = nodes_ g
    /\ edges_ g' = edges_ g ++ [e]
    /\ edge_objects g !! e = None
    /\ edge_objects g'
       = <[e := {| edge_data := d; source := ps; destination := pt |}]>
           (edge_objects g)
    /\ (exists ns ns', node_objects g !! ps = Some ns
                       /\ node_objects g' !! ps = Some ns'
                       /\ children ns' = children ns ++ [e])
    /\ (exists nt nt', node_objects g !! pt = Some nt
                       /\ node_objects g' !! pt = Some nt'
                       /\ parents nt' = parents nt ++ [e]).
Proof.
  intros Hs Hps Hpt.
  destruct (insertEdge_keeps_sound g d s t ps pt Hs Hps Hpt)
    as (g' & e & Hrun & Hs' & Hn & Hed & He & Heo).
  assert (forall x, x ∈ edges_ g -> is_Some (edge_objects g !! x)) as Hlive
    by (intros x Hx; by apply edge_live).
  exists g', e. split_and!; [done..| |].
  - destruct (sound_nodes g Hs s ps Hps) as (ns & Hns & _ & Hc & _).
    destruct (sound_nodes g' Hs' s ps) as (ns' & Hns' & _ & Hc' & _);
      [by rewrite Hn|].
    exists ns, ns'. split_and!; [done..|].
    rewrite Hc', Hc, Hed, Heo, (filter_from_snoc _ _ _ _ ps He Hlive).
    simpl. by rewrite decide_True.
  - destruct (sound_nodes g Hs t pt Hpt) as (nt & Hnt & _ & _ & Hpa).
    destruct (sound_nodes g' Hs' t pt) as (nt' & Hnt' & _ & _ & Hpa');
      [by rewrite Hn|].
    exists nt, nt'. split_and!; [done..|].
    rewrite Hpa', Hpa, Hed, Heo, (filter_to_snoc _ _ _ _ pt He Hlive).
    simpl. by rewrite decide_True.
Qed.

(** X22: on a sound graph findEdge returns, and in one of three ways: with
    true and the position of the first stored edge that runs from the node
    of the first to the node of the second identifier; with false and 0
    when one of the identifiers is not in the graph; with false and an
    index that was never assigned when both are and no stored edge joins
    them. *)
Theorem findEdge_first_match (g : Graph) s t :
  sound g ->
  (exists ps pt l1 e l2,
     nodes_ g !! s = Some ps /\ nodes_ g !! t = Some pt
     /\ first_joining (edge_objects g) ps pt (edges_ g) l1 e l2
     /\ findEdge s t g = Done (true, Some (length l1)))
  \/ ((nodes_ g !! s = None \/ nodes_ g !! t = None)
      /\ findEdge s t g = Done (false, Some 0))
  \/ (exists ps pt,
        nodes_ g !! s = Some ps /\ nodes_ g !! t = Some pt
        /\ Forall (fun x => ~ joins (edge_objects g) ps pt x) (edges_ g)
        /\ findEdge s t g = Done (false, None)).
Proof. apply findEdge_on_sound. Qed.

(** X23: on a sound graph eraseEdge returns and leaves a sound graph with
    the same nodes.  It returns true exactly when an edge joins the two
    nodes; the first such edge is then taken out of the edges, the other
    edges keeping their order, and its object is deleted.  Otherwise it
    returns false and the graph is as it was. *)
Theorem eraseEdge_removes_first (g : Graph) s t :
  sound g ->
  exists b g',
    eraseEdge s t g = Done (b, g') /\ sound g' /\ nodes_ g' = nodes_ g
    /\ ((b = true
         /\ exists ps pt l1 e l2,
              nodes_ g !! s = Some ps /\ nodes_ g !! t = Some pt
              /\ first_joining (edge_objects g) ps pt (edges_ g) l1 e l2
              /\ edges_ g' = l1 ++ l2
              /\ edge_objects g' = delete e (edge_objects g))
        \/ (b = false /\ g' = g
            /\ forall ps pt, nodes_ g !! s = Some ps ->
                 nodes_ g !! t = Some pt ->
                 Forall (fun x => ~ joins (edge_objects g) ps pt x)
                   (edges_ g))).
Proof. apply eraseEdge_total. Qed.

(** X25: a sequence of insertNode, insertEdge and eraseEdge calls, in which
    an insertEdge that throws is caught, runs without a fault from any sound
    graph, the empty graph being one, and leaves a sound graph, in which
    every stored edge is live and joins nodes of the graph. *)
Theorem run_without_eraseNode (g : Graph) ops :
  sound g -> Forall (fun op => forall id, op <> EraseNode id) ops ->
  exists g', run ops g = Done g' /\ sound g' /\ integrity g'.
Proof.
  intros Hs Hops. destruct (run_keeps_sound ops g Hs Hops) as (g' & ? & ?).
  exists g'. split_and!; [done..|]. by apply sound_integrity.
Qed.

(** X26: insertNode under an identifier that is not in the graph, followed
    by eraseNode of that identifier, gives back the graph as it was, in
    every member and object. *)
Theorem insertNode_then_eraseNode (g : Graph) id d :
  nodes_ g !! id = None ->
  exists r g1, insertNode id d g = Done (r, g1)
               /\ eraseNode id g1 = Done (true, g).
Proof.
  intros Hid. unfold insertNode. simpl. rewrite Hid.
  eexists _, _. split; [reflexivity|].
  unfold eraseNode. simpl. rewrite lookup_insert_eq.
  unfold node_at. simpl. rewrite lookup_insert_eq. simpl.
  unfold delete_node, node_at. simpl. rewrite lookup_insert_eq. simpl.
  do 2 f_equal. destruct g as [ns es no eo]. unfold set_node_objects, set_nodes_.
  simpl in *. f_equal.
  - by apply delete_insert_id.
  - apply delete_insert_id. apply not_elem_of_dom. apply is_fresh.
Qed.

(** X28: on a sound graph in which no edge joins two nodes yet, insertEdge
    between them followed by eraseEdge gives back the nodes, the edges and
    the edge objects as they were, in a sound graph. *)
Theorem insertEdge_then_eraseEdge (g : Graph) d s t ps pt :
  sound g -> nodes_ g !! s = Some ps -> nodes_ g !! t = Some pt ->
  Forall (fun x => ~ joins (edge_objects g) ps pt x) (edges_ g) ->
  exists r g1 g2,
    insertEdge d s t g = Done (r, g1)
    /\ eraseEdge s t g1 = Done (true, g2)
    /\ sound g2 /\ nodes_ g2 = nodes_ g /\ edges_ g2 = edges_ g
    /\ edge_objects g2 = edge_objects g.
Proof.
  intros Hs Hps Hpt Hnone.
  destruct (insertEdge_keeps_sound g d s t ps pt Hs Hps Hpt)
    as (g1 & e & Hrun & Hs1 & Hn1 & Hed1 & He & Heo1).
  destruct (eraseEdge_found g1 s t ps pt (edges_ g) e [] Hs1)
    as (g2 & Hrun2 & Hs2 & Hn2 & Hed2 & Heo2); [by rewrite Hn1..| |].
  { split_and!; [done| |].
    - unfold joins, from, to. by rewrite Heo1, lookup_insert_eq.
    - apply Forall_forall. intros x Hx. rewrite Forall_forall in Hnone.
      intros [Hf Ht]. apply (Hnone x Hx). unfold joins, from, to in *.
      rewrite Heo1 in Hf, Ht.
      assert (e <> x) as Hne.
      { intros <-. destruct (edge_live g e Hs Hx) as [? ?]. congruence. }
      by rewrite lookup_insert_ne in Hf, Ht. }
  exists (S (numberOfEdges g)), g1, g2.
  split_and!; [done..|congruence|by rewrite Hed2, app_nil_r|].
  rewrite Heo2, Heo1. by apply delete_insert_id.
Qed.

End GraphSound.

(** Two nodes joined twice. *)
Definition linked : list (operation string string) :=
  [InsertNode 0 "base"; InsertNode 1 "cover"; InsertEdge "screw" 0 1;
   InsertEdge "glue" 0 1].

Definition linked_graph : Graph.Graph string string :=
  {| nodes_ := <[0 := 0]> (<[1 := 1]> ∅);
     edges_ := [0; 1];
     node_objects :=
       <[0 := {| id_ := 0; data := "base"; parents := [];
                 children := [0; 1] |}]>
         (<[1 := {| id_ := 1; data := "cover"; parents := [0; 1];
                    children := [] |}]> ∅);
     edge_objects :=
       <[0 := {| edge_data := "screw"; source := 0; destination := 1 |}]>
         (<[1 := {| edge_data := "glue"; source := 0; destination := 1 |}]>
            ∅) |}.

Lemma run_linked : run linked Graph.empty = Done linked_graph.
Proof. by vm_compute. Qed.

Lemma no_eraseNode_linked :
  Forall (fun op : operation string string => forall id, op <> EraseNode id)
    linked.
Proof. repeat constructor; done. Qed.

Lemma no_eraseNode_two_nodes :
  Forall (fun op : operation string string => forall id, op <> EraseNode id)
    two_nodes.
Proof. repeat constructor; done. Qed.

Lemma sound_linked_graph : sound linked_graph.
Proof.
  destruct (run_keeps_sound linked Graph.empty sound_empty no_eraseNode_linked)
    as (g' & Hrun & Hs).
  rewrite run_linked in Hrun. by injection Hrun as <-.
Qed.

Lemma sound_two_nodes_graph : sound two_nodes_graph.
Proof.
  destruct (run_keeps_sound two_nodes Graph.empty sound_empty
              no_eraseNode_two_nodes) as (g' & Hrun & Hs).
  rewrite run_two_nodes in Hrun. by injection Hrun as <-.
Qed.

Lemma insertNode_on_sound_two_nodes :
  (sound two_nodes_graph)
  /\ (exists r g', insertNode 2 "lid" two_nodes_graph = Done (r, g') /\ sound g'
    /\ edges_ g' = edges_ two_nodes_graph /\ edge_objects g' = edge_objects two_nodes_graph
    /\ (forall id', id' <> 2 -> nodes_ g' !! id' = nodes_ two_nodes_graph !! id')
    /\ (is_Some (nodes_ two_nodes_graph !! 2) -> nodes_ g' = nodes_ two_nodes_graph)
    /\ (nodes_ two_nodes_graph !! 2 = None ->
        r = numberOfNodes two_nodes_graph /\ numberOfNodes g' = S (numberOfNodes two_nodes_graph)
        /\ exists p, nodes_ g' !! 2 = Some p /\ node_objects two_nodes_graph !! p = None
             /\ node_objects g' !! p
                = Some {| id_ := 2; data := "lid"; parents := [];
                          children := [] |})).
Proof.
  assert (sound two_nodes_graph) as H1 by exact sound_two_nodes_graph.
  split; [done|].
  exact (insertNode_on_sound two_nodes_graph 2 "lid" H1).
Defined.

Lemma insertEdge_on_sound_two_nodes :
  (sound two_nodes_graph
   /\ nodes_ two_nodes_graph !! 0 = Some 0
   /\ nodes_ two_nodes_graph !! 1 = Some 1)
  /\ (exists g' e,
    insertEdge "screw" 0 1 two_nodes_graph = Done (S (numberOfEdges two_nodes_graph), g') /\ sound g'
    /\ nodes_ g' = nodes_ two_nodes_graph
    /\ edges_ g' = edges_ two_nodes_graph ++ [e]
    /\ edge_objects two_nodes_graph !! e = None
    /\ edge_objects g'
       = <[e := {| edge_data := "screw"; source := 0; destination := 1 |}]>
           (edge_objects two_nodes_graph)
    /\ (exists ns ns', node_objects two_nodes_graph !! 0 = Some ns
                       /\ node_objects g' !! 0 = Some ns'
                       /\ children ns' = children ns ++ [e])
    /\ (exists nt nt', node_objects two_nodes_graph !! 1 = Some nt
                       /\ node_objects g' !! 1 = Some nt'
                       /\ parents nt' = parents nt ++ [e])).
Proof.
  assert (sound two_nodes_graph) as H1 by exact sound_two_nodes_graph.
  assert (nodes_ two_nodes_graph !! 0 = Some 0) as H2 by (by vm_compute).
  assert (nodes_ two_nodes_graph !! 1 = Some 1) as H3 by (by vm_compute).
  split; [by split_and!|].
  exact (insertEdge_on_sound two_nodes_graph "screw" 0 1 0 1 H1 H2 H3).
Defined.

Lemma findEdge_first_match_linked :
  (sound linked_graph)
  /\ ((exists ps pt l1 e l2,
     nodes_ linked_graph !! 0 = Some ps /\ nodes_ linked_graph !! 1 = Some pt
     /\ first_joining (edge_objects linked_graph) ps pt (edges_ linked_graph) l1 e l2
     /\ findEdge 0 1 linked_graph = Done (true, Some (length l1)))
  \/ ((nodes_ linked_graph !! 0 = None \/ nodes_ linked_graph !! 1 = None)
      /\ findEdge 0 1 linked_graph = Done (false, Some 0))
  \/ (exists ps pt,
        nodes_ linked_graph !! 0 = Some ps /\ nodes_ linked_graph !! 1 = Some pt
        /\ Forall (fun x => ~ joins (edge_objects linked_graph) ps pt x) (edges_ linked_graph)
        /\ findEdge 0 1 linked_graph = Done (false, None))).
Proof.
  assert (sound linked_graph) as H1 by exact sound_linked_graph.
  split; [done|].
  exact (findEdge_first_match linked_graph 0 1 H1).
Defined.

Lemma eraseEdge_removes_first_linked :
  (sound linked_graph)
  /\ (exists b g',
    eraseEdge 0 1 linked_graph = Done (b, g') /\ sound g' /\ nodes_ g' = nodes_ linked_graph
    /\ ((b = true
         /\ exists ps pt l1 e l2,
              nodes_ linked_graph !! 0 = Some ps /\ nodes_ linked_graph !! 1 = Some pt
              /\ first_joining (edge_objects linked_graph) ps pt (edges_ linked_graph) l1 e l2
              /\ edges_ g' = l1 ++ l2
              /\ edge_objects g' = delete e (edge_objects linked_graph))
        \/ (b = false /\ g' = linked_graph
            /\ forall ps pt, nodes_ linked_graph !! 0 = Some ps ->
                 nodes_ linked_graph !! 1 = Some pt ->
                 Forall (fun x => ~ joins (edge_objects linked_graph) ps pt x)
                   (edges_ linked_graph)))).
Proof.
  assert (sound linked_graph) as H1 by exact sound_linked_graph.
  split; [done|].
  exact (eraseEdge_removes_first linked_graph 0 1 H1).
Defined.

Lemma eraseNode_removes_incident_linked :
  (sound linked_graph
   /\ nodes_ linked_graph !! 1 = Some 1
   /\ (forall e, e ∈ edges_ linked_graph -> ~ joins (edge_objects linked_graph) 1 1 e))
  /\ (exists g',
    eraseNode 1 linked_graph = Done (true, g') /\ sound g'
    /\ nodes_ g' = delete 1 (nodes_ linked_graph)
    /\ node_objects g' !! 1 = None
    /\ edges_ g'
       = filter (fun e => ~ from (edge_objects linked_graph) 1 e
                          /\ ~ to (edge_objects linked_graph) 1 e) (edges_ linked_graph)
    /\ (forall e, e ∈ edges_ g' -> edge_objects g' !! e = edge_objects linked_graph !! e)
    /\ (forall e, e ∈ edges_ linked_graph -> e ∉ edges_ g' -> edge_objects g' !! e = None)).
Proof.
  assert (sound linked_graph) as H1 by exact sound_linked_graph.
  assert (nodes_ linked_graph !! 1 = Some 1) as H2 by (by vm_compute).
  assert (forall e, e ∈ edges_ linked_graph ->
            ~ joins (edge_objects linked_graph) 1 1 e) as H3.
  { intros e He [Hf _]. unfold from in Hf. simpl in He.
    apply elem_of_cons in He as [->|He]; [by vm_compute in Hf|].
    apply elem_of_cons in He as [->|He]; [by vm_compute in Hf|].
    by apply elem_of_nil in He. }
  split; [by split_and!|].
  exact (eraseNode_removes_incident linked_graph 1 1 H1 H2 H3).
Defined.

Lemma run_without_eraseNode_linked :
  (sound (Graph.empty : Graph.Graph string string)
   /\ Forall (fun op => forall id, op <> EraseNode id) linked)
  /\ (exists g', run linked (Graph.empty : Graph.Graph string string) = Done g' /\ sound g' /\ integrity g').
Proof.
  assert (sound (Graph.empty : Graph.Graph string string)) as H1
    by exact sound_empty.
  assert (Forall (fun op : operation string string =>
                    forall id, op <> EraseNode id) linked) as H2
    by exact no_eraseNode_linked.
  split; [by split_and!|].
  exact (run_without_eraseNode Graph.empty linked H1 H2).
Defined.

Lemma insertNode_then_eraseNode_two_nodes :
  (nodes_ two_nodes_graph !! 2 = None)
  /\ (exists r g1, insertNode 2 "lid" two_nodes_graph = Done (r, g1)
               /\ eraseNode 2 g1 = Done (true, two_nodes_graph)).
Proof.
  assert (nodes_ two_nodes_graph !! 2 = None) as H1 by (by vm_compute).
  split; [done|].
  exact (insertNode_then_eraseNode two_nodes_graph 2 "lid" H1).
Defined.

Lemma insertEdge_then_eraseEdge_two_nodes :
  (sound two_nodes_graph
   /\ nodes_ two_nodes_graph !! 0 = Some 0
   /\ nodes_ two_nodes_graph !! 1 = Some 1
   /\ Forall (fun x => ~ joins (edge_objects two_nodes_graph) 0 1 x) (edges_ two_nodes_graph))
  /\ (exists r g1 g2,
    insertEdge "screw" 0 1 two_nodes_graph = Done (r, g1)
    /\ eraseEdge 0 1 g1 = Done (true, g2)
    /\ sound g2 /\ nodes_ g2 = nodes_ two_nodes_graph /\ edges_ g2 = edges_ two_nodes_graph
    /\ edge_objects g2 = edge_objects two_nodes_graph).
Proof.
  assert (sound two_nodes_graph) as H1 by exact sound_two_nodes_graph.
  assert (nodes_ two_nodes_graph !! 0 = Some 0) as H2 by (by vm_compute).
  assert (nodes_ two_nodes_graph !! 1 = Some 1) as H3 by (by vm_compute).
  assert (Forall (fun x => ~ joins (edge_objects two_nodes_graph) 0 1 x)
            (edges_ two_nodes_graph)) as H4 by constructor.
  split; [by split_and!|].
  exact (insertEdge_then_eraseEdge two_nodes_graph "screw" 0 1 0 1 H1 H2 H3 H4).
Defined.

Lemma insertEdges_on_sound_two_nodes :
  (sound two_nodes_graph
   /\ nodes_ two_nodes_graph !! 0 = Some 0
   /\ Forall (fun t => is_Some (nodes_ two_nodes_graph !! t)) [1; 1])
  /\ (exists g' es,
    insertEdges "screw" 0 [1; 1] two_nodes_graph = Done (numberOfEdges two_nodes_graph + length [1; 1], g')
    /\ sound g' /\ nodes_ g' = nodes_ two_nodes_graph
    /\ edges_ g' = edges_ two_nodes_graph ++ es /\ length es = length [1; 1]
    /\ (forall x edge, edge_objects two_nodes_graph !! x = Some edge ->
                       edge_objects g' !! x = Some edge)
    /\ Forall (fun e => edge_objects two_nodes_graph !! e = None
                        /\ from (edge_objects g') 0 e) es).
Proof.
  assert (sound two_nodes_graph) as H1 by exact sound_two_nodes_graph.
  assert (nodes_ two_nodes_graph !! 0 = Some 0) as H2 by (by vm_compute).
  assert (Forall (fun t => is_Some (nodes_ two_nodes_graph !! t)) [1; 1])
    as H3 by (apply Forall_cons_2; [eexists; by vm_compute|];
              apply Forall_cons_2; [eexists; by vm_compute|]; constructor).
  split; [by split_and!|].
  exact (insertEdges_on_sound "screw" 0 0 [1; 1] two_nodes_graph H1 H2 H3).
Defined.

End GraphSound.
